(** * Layer.js: the layer transform-and-mask compositing pipeline

    A shallow embedding of [src/tokenizer/Layer.js].  JavaScript numbers are
    IEEE doubles ([float]); canvas dimensions, pixel bytes and typed-array
    indices are integers ([Z]); canvases live in a heap and are handled
    through references, because layers share and rebind them; the 2D
    rendering primitives, the imported libraries and the constants module
    form the host environment [Host]. *)

From Stdlib Require Import ZArith List Bool String Lia Floats.
From stdpp Require Import base list.
Import ListNotations.
Open Scope Z_scope.

(** ** JavaScript conventions *)
Module JS.

Inductive Error := TypeError (what : string).

Inductive Result (A : Type) :=
| Ok (a : A)
| Throw (e : Error).
Arguments Ok {A} a.
Arguments Throw {A} e.

(** A canvas dimension (an unsigned long) as a double. *)
Definition Z2f (z : Z) : float := PrimFloat.of_uint63 (Uint63.of_Z z).

(** [a[i]] on an array or typed array: [None] is [undefined]. *)
Definition get {A} (a : list A) (i : Z) : option A :=
  if i <? 0 then None else a !! Z.to_nat i.

(** [T < v] where [v] may be [undefined]: comparing with [undefined] is false. *)
Definition lt_undef (T : Z) (v : option Z) : bool :=
  match v with Some a => T <? a | None => false end.

End JS.
Import JS.

(** ** Color (libs/Color.js): the channel values handed to its constructor *)
Module Color.
Record t := mk { red : option Z; blue : option Z; green : option Z; alpha : option Z }.
End Color.

(** ** ImageData: [width], [height] and the flat RGBA [data] *)
Module ImageData.
Record t := mk { width : Z; height : Z; data : list Z }.
End ImageData.

(** ** The canvas element and its 2D context *)
Module Canvas.

(** The current transformation is kept as the elementary transforms composed
    since the last [resetTransform], first applied first. *)
Inductive Xform :=
| Translate (x y : float)
| Scale (x y : float)
| Rotate (angle : float).

(** Path-building calls; an argument is [None] when the script passed
    [undefined]. *)
Inductive PathOp :=
| MoveTo (x y : option Z)
| LineTo (x y : option Z)
| Rect (x y w h : Z)
| ClosePath.

Inductive BlendMode := source_over | source_in | source_atop | color.

Record Context2D := mkCtx {
  transform : list Xform;
  globalAlpha : float;
  globalCompositeOperation : BlendMode;
  fillStyle : string;
  strokeStyle : string;
  lineWidth : float;
  path : list PathOp
}.

Definition defaultContext : Context2D :=
  mkCtx [] 1%float source_over "#000000" "#000000" 1%float [].

Record t := mk {
  width : Z;
  height : Z;
  pixels : list Z;          (* row-major RGBA bytes *)
  ctx : Context2D
}.

(** The bitmap of [n] pixels that all hold the bytes [p]. *)
Definition uniform (p : list Z) (n : nat) : list Z := concat (repeat p n).

(** A canvas right after [createElement] and sizing: transparent black. *)
Definition blank (w h : Z) : t :=
  mk w h (uniform [0; 0; 0; 0] (Z.to_nat (w * h))) defaultContext.

Definition set_pixels (c : t) (p : list Z) : t := mk (width c) (height c) p (ctx c).
Definition set_ctx (c : t) (k : Context2D) : t := mk (width c) (height c) (pixels c) k.

Definition set_transform (k : Context2D) (x : list Xform) : Context2D :=
  mkCtx x (globalAlpha k) (globalCompositeOperation k) (fillStyle k) (strokeStyle k)
        (lineWidth k) (path k).
Definition set_globalAlpha (k : Context2D) (a : float) : Context2D :=
  mkCtx (transform k) a (globalCompositeOperation k) (fillStyle k) (strokeStyle k)
        (lineWidth k) (path k).
Definition set_gco (k : Context2D) (m : BlendMode) : Context2D :=
  mkCtx (transform k) (globalAlpha k) m (fillStyle k) (strokeStyle k) (lineWidth k) (path k).
Definition set_fillStyle (k : Context2D) (s : string) : Context2D :=
  mkCtx (transform k) (globalAlpha k) (globalCompositeOperation k) s (strokeStyle k)
        (lineWidth k) (path k).
Definition set_strokeStyle (k : Context2D) (s : string) : Context2D :=
  mkCtx (transform k) (globalAlpha k) (globalCompositeOperation k) (fillStyle k) s
        (lineWidth k) (path k).
Definition set_lineWidth (k : Context2D) (w : float) : Context2D :=
  mkCtx (transform k) (globalAlpha k) (globalCompositeOperation k) (fillStyle k)
        (strokeStyle k) w (path k).
Definition set_path (k : Context2D) (p : list PathOp) : Context2D :=
  mkCtx (transform k) (globalAlpha k) (globalCompositeOperation k) (fillStyle k)
        (strokeStyle k) (lineWidth k) p.

(** The pixel at column [x], row [y]; transparent black outside the bitmap. *)
Definition pixelAt (c : t) (x y : Z) : list Z :=
  if (0 <=? x) && (x <? width c) && (0 <=? y) && (y <? height c)
  then take 4 (drop (Z.to_nat (4 * (y * width c + x))) (pixels c))
  else [0; 0; 0; 0].

Definition zrange (n : Z) : list Z := map Z.of_nat (seq 0 (Z.to_nat n)).

(** [getImageData(sx, sy, sw, sh)] for a rectangle of positive size.  (With
    [sw] or [sh] at 0 the call throws an IndexSizeError, which is not
    modelled: see [positiveSize].) *)
Definition getImageData (c : t) (sx sy sw sh : Z) : ImageData.t :=
  ImageData.mk sw sh
    (flat_map (fun y => flat_map (fun x => pixelAt c (sx + x) (sy + y)) (zrange sw))
              (zrange sh)).

(** [putImageData(imageData, 0, 0)]: the bitmap takes the image's pixels
    where the image covers it. *)
Definition putImageData (c : t) (d : ImageData.t) : t :=
  let src := mk (ImageData.width d) (ImageData.height d) (ImageData.data d) defaultContext in
  set_pixels c
    (flat_map (fun y => flat_map (fun x =>
         if (x <? ImageData.width d) && (y <? ImageData.height d)
         then pixelAt src x y else pixelAt c x y) (zrange (width c)))
      (zrange (height c))).

(** The alpha byte of the pixel at column [x], row [y]. *)
Definition alphaAt (c : t) (x y : Z) : option Z := pixelAt c x y !! 3%nat.

(** A bitmap holds four bytes for each of its [width * height] pixels. *)
Definition wf (c : t) : Prop :=
  0 <= width c /\ 0 <= height c /\ length (pixels c) = Z.to_nat (4 * (width c * height c)).

(** A canvas with pixels.  On a canvas without any, [getImageData] over the
    whole surface throws an IndexSizeError and [drawImage] of it throws an
    InvalidStateError.  The model leaves these two exceptions out: what is
    proved of a script that reads or draws a canvas is proved for canvases
    of positive size, or for the runs that complete. *)
Definition positiveSize (c : t) : Prop := 0 < width c /\ 0 < height c.

(** Every pixel of the bitmap has an alpha satisfying [P]. *)
Definition allAlpha (P : Z -> Prop) (c : t) : Prop :=
  forall x y a, 0 <= x < width c -> 0 <= y < height c -> alphaAt c x y = Some a -> P a.

(** Some pixel of the bitmap has an alpha satisfying [P]. *)
Definition someAlpha (P : Z -> Prop) (c : t) : Prop :=
  exists x y a, 0 <= x < width c /\ 0 <= y < height c /\ alphaAt c x y = Some a /\ P a.

(** Every pixel of the bitmap holds the bytes [p]. *)
Definition allPixels (p : list Z) (c : t) : Prop :=
  forall x y, 0 <= x < width c -> 0 <= y < height c -> pixelAt c x y = p.

(** The heap of canvas elements; a reference is an index. *)
Abbreviation Ref := nat.
Abbreviation Heap := (list t).

Definition deref (h : Heap) (r : Ref) : t := default (blank 0 0) (h !! r).

End Canvas.

(** ** The host environment

    What [Layer.js] imports or reaches through globals: [constants.js],
    [game.settings], [libs/MarchingSquares.js], [libs/Color.js], and the
    browser's rasteriser behind the 2D context.  A rendering primitive maps
    the target canvas (bitmap and context state) and the call's arguments to
    the target's new bitmap. *)
Class Host := {
  TRANSPARENCY_THRESHOLD : Z;
  MASK_DENSITY : Z;
  TO_RADIANS : float;
  default_color : string;                                   (* game.settings "default-color" *)
  geom_contour : (Z -> Z -> bool) -> list (list Z);         (* geom.contour(grid) *)
  isNeighborColor : Color.t -> Color.t -> bool;             (* color.isNeighborColor(other) *)
  render_clearRect : Canvas.t -> float -> float -> float -> float -> list Z;
  render_fillRect : Canvas.t -> float -> float -> float -> float -> list Z;
  render_fill : Canvas.t -> list Z;                         (* fills the current path *)
  render_drawImage : Canvas.t -> Canvas.t ->
                     float -> float -> float -> float ->    (* sx sy sw sh *)
                     float -> float -> float -> float ->    (* dx dy dw dh *)
                     list Z
}.

(** ** Scripts: heap-passing computations that may throw *)
Definition M (A : Type) : Type := Canvas.Heap -> Result (A * Canvas.Heap).

Definition ret {A} (a : A) : M A := fun h => Ok (a, h).
Definition throw {A} (e : Error) : M A := fun _ => Throw e.
Definition bind {A B} (m : M A) (k : A -> M B) : M B :=
  fun h => match m h with
           | Ok (a, h') => k a h'
           | Throw e => Throw e
           end.

Notation "x <~ m ;; k" := (bind m (fun x => k))
  (at level 100, m at next level, right associativity).
Notation "m ;;; k" := (bind m (fun _ => k))
  (at level 100, right associativity).

(** [for (const x of xs) body(x)] *)
Fixpoint forEach {A} (xs : list A) (body : A -> M unit) : M unit :=
  match xs with
  | [] => ret tt
  | x :: xs' => body x ;;; forEach xs' body
  end.

Definition when (b : bool) (m : M unit) : M unit := if b then m else ret tt.

Module Dom.
Import Canvas.

(** [document.createElement('canvas')] followed by the two size assignments,
    for a width and a height that are canvas sizes (integers from 0 to
    2^31 - 1).  What the DOM makes of any other number assigned to
    [canvas.width] is not modelled. *)
Definition createElement (w h : Z) : M Ref :=
  fun hp => Ok (length hp, hp ++ [blank w h]).

Definition read (r : Ref) : M Canvas.t := fun hp => Ok (deref hp r, hp).

Definition modify (r : Ref) (f : Canvas.t -> Canvas.t) : M unit :=
  fun hp => Ok (tt, <[r := f (deref hp r)]> hp).

Definition modifyCtx (r : Ref) (f : Context2D -> Context2D) : M unit :=
  modify r (fun c => set_ctx c (f (ctx c))).

(** Assigning [canvas.width] clears the bitmap and resets the context. *)
Definition setWidth (r : Ref) (w : Z) : M unit := modify r (fun c => blank w (height c)).
Definition setHeight (r : Ref) (h : Z) : M unit := modify r (fun c => blank (width c) h).

(** Modelled from the spec: [Utils.cloneCanvas] (libs/Utils.js is not part of
    the sources): "Raster Surface ... supports clone"; a clone is a new
    raster of the same size holding a copy of the pixels. *)
Definition cloneCanvas (r : Ref) : M Ref :=
  fun hp => let c := deref hp r in
            Ok (length hp, hp ++ [mk (width c) (height c) (pixels c) defaultContext]).

Section Context2D.
Context `{Host}.

Definition resetTransform r := modifyCtx r (fun k => set_transform k []).
Definition translate r x y := modifyCtx r (fun k => set_transform k (transform k ++ [Translate x y])).
Definition scale r x y := modifyCtx r (fun k => set_transform k (transform k ++ [Scale x y])).
Definition rotate r a := modifyCtx r (fun k => set_transform k (transform k ++ [Rotate a])).

Definition setGlobalAlpha r a := modifyCtx r (fun k => set_globalAlpha k a).
Definition setGlobalCompositeOperation r m := modifyCtx r (fun k => set_gco k m).
Definition setFillStyle r s := modifyCtx r (fun k => set_fillStyle k s).
Definition setStrokeStyle r s := modifyCtx r (fun k => set_strokeStyle k s).
Definition setLineWidth r w := modifyCtx r (fun k => set_lineWidth k w).

Definition beginPath r := modifyCtx r (fun k => set_path k []).
Definition moveTo r x y := modifyCtx r (fun k => set_path k (path k ++ [MoveTo x y])).
Definition lineTo r x y := modifyCtx r (fun k => set_path k (path k ++ [LineTo x y])).
Definition rect r x y w h := modifyCtx r (fun k => set_path k (path k ++ [Rect x y w h])).
Definition closePath r := modifyCtx r (fun k => set_path k (path k ++ [ClosePath])).

Definition clearRect r x y w h := modify r (fun c => set_pixels c (render_clearRect c x y w h)).
Definition fillRect r x y w h := modify r (fun c => set_pixels c (render_fillRect c x y w h)).
Definition fill r := modify r (fun c => set_pixels c (render_fill c)).

(** [drawImage(image, sx, sy, sw, sh, dx, dy, dw, dh)] of an image of
    positive size (see [Canvas.positiveSize] for the other case). *)
Definition drawImage9 (r image : Ref) sx sy sw sh dx dy dw dh : M unit :=
  fun hp => let src := deref hp image in
            modify r (fun c => set_pixels c (render_drawImage c src sx sy sw sh dx dy dw dh)) hp.

(** [drawImage(image, dx, dy, dw, dh)]: the whole image is the source. *)
Definition drawImage5 (r image : Ref) dx dy dw dh : M unit :=
  fun hp => let src := deref hp image in
            drawImage9 r image 0%float 0%float (Z2f (width src)) (Z2f (height src))
                       dx dy dw dh hp.

(** [drawImage(image, dx, dy)]: drawn at its own size. *)
Definition drawImage3 (r image : Ref) dx dy : M unit :=
  fun hp => let src := deref hp image in
            drawImage5 r image dx dy (Z2f (width src)) (Z2f (height src)) hp.

End Context2D.
End Dom.

(** ** The layer object

    The class [Layer]: its properties as a record, its methods as scripts
    that take [this] and return it as the call leaves it.  [view] is passed
    to the methods that reach through [this.view].  Not embedded:
    [fromImage] (it draws a decoded image element) and [editMask] (the mask
    editor). *)
Module Layer.

Record Position := mkPos { x : float; y : float }.

(** The decoded image element a layer was made from. *)
Record Image := mkImage { src : string; naturalWidth : Z; naturalHeight : Z }.

Record t := mk {
  id : string;
  canvas : Canvas.Ref;
  source : Canvas.Ref;
  preview : Canvas.Ref;
  position : Position;
  scale : float;
  rotation : float;
  center : Position;
  mirror : float;
  flipped : bool;
  img : option Image;
  sourceImg : option string;
  active : bool;
  providesMask : bool;
  renderedMask : option Canvas.Ref;
  mask : option Canvas.Ref;
  sourceMask : option Canvas.Ref;
  maskCompositeOperation : Canvas.BlendMode;
  customMask : bool;
  appliedMaskIds : list string;
  customMaskLayers : bool;
  alpha : float;
  compositeOperation : Canvas.BlendMode;
  visible : bool;
  previousColor : option string;
  color : option string;
  colorLayer : bool;
  previousAlphaPixelColors : option (list Color.t);
  alphaPixelColors : list Color.t;
  tintLayer : bool;
  tintColor : option string
}.

(** Assignments to one property: [this.f = v]. *)
Definition set_source (l : t) (v : Canvas.Ref) : t :=
  mk (id l) (canvas l) v (preview l) (position l) (scale l) (rotation l) (center l)
     (mirror l) (flipped l) (img l) (sourceImg l) (active l) (providesMask l)
     (renderedMask l) (mask l) (sourceMask l) (maskCompositeOperation l) (customMask l)
     (appliedMaskIds l) (customMaskLayers l) (alpha l) (compositeOperation l)
     (visible l) (previousColor l) (color l) (colorLayer l) (previousAlphaPixelColors l)
     (alphaPixelColors l) (tintLayer l) (tintColor l).
Definition set_position (l : t) (v : Position) : t :=
  mk (id l) (canvas l) (source l) (preview l) v (scale l) (rotation l) (center l)
     (mirror l) (flipped l) (img l) (sourceImg l) (active l) (providesMask l)
     (renderedMask l) (mask l) (sourceMask l) (maskCompositeOperation l) (customMask l)
     (appliedMaskIds l) (customMaskLayers l) (alpha l) (compositeOperation l)
     (visible l) (previousColor l) (color l) (colorLayer l) (previousAlphaPixelColors l)
     (alphaPixelColors l) (tintLayer l) (tintColor l).
Definition set_scale (l : t) (v : float) : t :=
  mk (id l) (canvas l) (source l) (preview l) (position l) v (rotation l) (center l)
     (mirror l) (flipped l) (img l) (sourceImg l) (active l) (providesMask l)
     (renderedMask l) (mask l) (sourceMask l) (maskCompositeOperation l) (customMask l)
     (appliedMaskIds l) (customMaskLayers l) (alpha l) (compositeOperation l)
     (visible l) (previousColor l) (color l) (colorLayer l) (previousAlphaPixelColors l)
     (alphaPixelColors l) (tintLayer l) (tintColor l).
Definition set_rotation (l : t) (v : float) : t :=
  mk (id l) (canvas l) (source l) (preview l) (position l) (scale l) v (center l)
     (mirror l) (flipped l) (img l) (sourceImg l) (active l) (providesMask l)
     (renderedMask l) (mask l) (sourceMask l) (maskCompositeOperation l) (customMask l)
     (appliedMaskIds l) (customMaskLayers l) (alpha l) (compositeOperation l)
     (visible l) (previousColor l) (color l) (colorLayer l) (previousAlphaPixelColors l)
     (alphaPixelColors l) (tintLayer l) (tintColor l).
Definition set_center (l : t) (v : Position) : t :=
  mk (id l) (canvas l) (source l) (preview l) (position l) (scale l) (rotation l) v
     (mirror l) (flipped l) (img l) (sourceImg l) (active l) (providesMask l)
     (renderedMask l) (mask l) (sourceMask l) (maskCompositeOperation l) (customMask l)
     (appliedMaskIds l) (customMaskLayers l) (alpha l) (compositeOperation l)
     (visible l) (previousColor l) (color l) (colorLayer l) (previousAlphaPixelColors l)
     (alphaPixelColors l) (tintLayer l) (tintColor l).
Definition set_mirror (l : t) (v : float) : t :=
  mk (id l) (canvas l) (source l) (preview l) (position l) (scale l) (rotation l)
     (center l) v (flipped l) (img l) (sourceImg l) (active l) (providesMask l)
     (renderedMask l) (mask l) (sourceMask l) (maskCompositeOperation l) (customMask l)
     (appliedMaskIds l) (customMaskLayers l) (alpha l) (compositeOperation l)
     (visible l) (previousColor l) (color l) (colorLayer l) (previousAlphaPixelColors l)
     (alphaPixelColors l) (tintLayer l) (tintColor l).
Definition set_flipped (l : t) (v : bool) : t :=
  mk (id l) (canvas l) (source l) (preview l) (position l) (scale l) (rotation l)
     (center l) (mirror l) v (img l) (sourceImg l) (active l) (providesMask l)
     (renderedMask l) (mask l) (sourceMask l) (maskCompositeOperation l) (customMask l)
     (appliedMaskIds l) (customMaskLayers l) (alpha l) (compositeOperation l)
     (visible l) (previousColor l) (color l) (colorLayer l) (previousAlphaPixelColors l)
     (alphaPixelColors l) (tintLayer l) (tintColor l).
Definition set_active (l : t) (v : bool) : t :=
  mk (id l) (canvas l) (source l) (preview l) (position l) (scale l) (rotation l)
     (center l) (mirror l) (flipped l) (img l) (sourceImg l) v (providesMask l)
     (renderedMask l) (mask l) (sourceMask l) (maskCompositeOperation l) (customMask l)
     (appliedMaskIds l) (customMaskLayers l) (alpha l) (compositeOperation l)
     (visible l) (previousColor l) (color l) (colorLayer l) (previousAlphaPixelColors l)
     (alphaPixelColors l) (tintLayer l) (tintColor l).
Definition set_renderedMask (l : t) (v : option Canvas.Ref) : t :=
  mk (id l) (canvas l) (source l) (preview l) (position l) (scale l) (rotation l)
     (center l) (mirror l) (flipped l) (img l) (sourceImg l) (active l) (providesMask l)
     v (mask l) (sourceMask l) (maskCompositeOperation l) (customMask l)
     (appliedMaskIds l) (customMaskLayers l) (alpha l) (compositeOperation l)
     (visible l) (previousColor l) (color l) (colorLayer l) (previousAlphaPixelColors l)
     (alphaPixelColors l) (tintLayer l) (tintColor l).
Definition set_mask (l : t) (v : option Canvas.Ref) : t :=
  mk (id l) (canvas l) (source l) (preview l) (position l) (scale l) (rotation l)
     (center l) (mirror l) (flipped l) (img l) (sourceImg l) (active l) (providesMask l)
     (renderedMask l) v (sourceMask l) (maskCompositeOperation l) (customMask l)
     (appliedMaskIds l) (customMaskLayers l) (alpha l) (compositeOperation l)
     (visible l) (previousColor l) (color l) (colorLayer l) (previousAlphaPixelColors l)
     (alphaPixelColors l) (tintLayer l) (tintColor l).
Definition set_sourceMask (l : t) (v : option Canvas.Ref) : t :=
  mk (id l) (canvas l) (source l) (preview l) (position l) (scale l) (rotation l)
     (center l) (mirror l) (flipped l) (img l) (sourceImg l) (active l) (providesMask l)
     (renderedMask l) (mask l) v (maskCompositeOperation l) (customMask l)
     (appliedMaskIds l) (customMaskLayers l) (alpha l) (compositeOperation l)
     (visible l) (previousColor l) (color l) (colorLayer l) (previousAlphaPixelColors l)
     (alphaPixelColors l) (tintLayer l) (tintColor l).
Definition set_maskCompositeOperation (l : t) (v : Canvas.BlendMode) : t :=
  mk (id l) (canvas l) (source l) (preview l) (position l) (scale l) (rotation l)
     (center l) (mirror l) (flipped l) (img l) (sourceImg l) (active l) (providesMask l)
     (renderedMask l) (mask l) (sourceMask l) v (customMask l) (appliedMaskIds l)
     (customMaskLayers l) (alpha l) (compositeOperation l) (visible l) (previousColor l)
     (color l) (colorLayer l) (previousAlphaPixelColors l) (alphaPixelColors l)
     (tintLayer l) (tintColor l).
Definition set_customMask (l : t) (v : bool) : t :=
  mk (id l) (canvas l) (source l) (preview l) (position l) (scale l) (rotation l)
     (center l) (mirror l) (flipped l) (img l) (sourceImg l) (active l) (providesMask l)
     (renderedMask l) (mask l) (sourceMask l) (maskCompositeOperation l) v
     (appliedMaskIds l) (customMaskLayers l) (alpha l) (compositeOperation l)
     (visible l) (previousColor l) (color l) (colorLayer l) (previousAlphaPixelColors l)
     (alphaPixelColors l) (tintLayer l) (tintColor l).
Definition set_appliedMaskIds (l : t) (v : list string) : t :=
  mk (id l) (canvas l) (source l) (preview l) (position l) (scale l) (rotation l)
     (center l) (mirror l) (flipped l) (img l) (sourceImg l) (active l) (providesMask l)
     (renderedMask l) (mask l) (sourceMask l) (maskCompositeOperation l) (customMask l)
     v (customMaskLayers l) (alpha l) (compositeOperation l) (visible l)
     (previousColor l) (color l) (colorLayer l) (previousAlphaPixelColors l)
     (alphaPixelColors l) (tintLayer l) (tintColor l).
Definition set_customMaskLayers (l : t) (v : bool) : t :=
  mk (id l) (canvas l) (source l) (preview l) (position l) (scale l) (rotation l)
     (center l) (mirror l) (flipped l) (img l) (sourceImg l) (active l) (providesMask l)
     (renderedMask l) (mask l) (sourceMask l) (maskCompositeOperation l) (customMask l)
     (appliedMaskIds l) v (alpha l) (compositeOperation l) (visible l) (previousColor l)
     (color l) (colorLayer l) (previousAlphaPixelColors l) (alphaPixelColors l)
     (tintLayer l) (tintColor l).
Definition set_alpha (l : t) (v : float) : t :=
  mk (id l) (canvas l) (source l) (preview l) (position l) (scale l) (rotation l)
     (center l) (mirror l) (flipped l) (img l) (sourceImg l) (active l) (providesMask l)
     (renderedMask l) (mask l) (sourceMask l) (maskCompositeOperation l) (customMask l)
     (appliedMaskIds l) (customMaskLayers l) v (compositeOperation l) (visible l)
     (previousColor l) (color l) (colorLayer l) (previousAlphaPixelColors l)
     (alphaPixelColors l) (tintLayer l) (tintColor l).
Definition set_compositeOperation (l : t) (v : Canvas.BlendMode) : t :=
  mk (id l) (canvas l) (source l) (preview l) (position l) (scale l) (rotation l)
     (center l) (mirror l) (flipped l) (img l) (sourceImg l) (active l) (providesMask l)
     (renderedMask l) (mask l) (sourceMask l) (maskCompositeOperation l) (customMask l)
     (appliedMaskIds l) (customMaskLayers l) (alpha l) v (visible l) (previousColor l)
     (color l) (colorLayer l) (previousAlphaPixelColors l) (alphaPixelColors l)
     (tintLayer l) (tintColor l).
Definition set_visible (l : t) (v : bool) : t :=
  mk (id l) (canvas l) (source l) (preview l) (position l) (scale l) (rotation l)
     (center l) (mirror l) (flipped l) (img l) (sourceImg l) (active l) (providesMask l)
     (renderedMask l) (mask l) (sourceMask l) (maskCompositeOperation l) (customMask l)
     (appliedMaskIds l) (customMaskLayers l) (alpha l) (compositeOperation l) v
     (previousColor l) (color l) (colorLayer l) (previousAlphaPixelColors l)
     (alphaPixelColors l) (tintLayer l) (tintColor l).
Definition set_previousColor (l : t) (v : option string) : t :=
  mk (id l) (canvas l) (source l) (preview l) (position l) (scale l) (rotation l)
     (center l) (mirror l) (flipped l) (img l) (sourceImg l) (active l) (providesMask l)
     (renderedMask l) (mask l) (sourceMask l) (maskCompositeOperation l) (customMask l)
     (appliedMaskIds l) (customMaskLayers l) (alpha l) (compositeOperation l)
     (visible l) v (color l) (colorLayer l) (previousAlphaPixelColors l)
     (alphaPixelColors l) (tintLayer l) (tintColor l).
Definition set_color (l : t) (v : option string) : t :=
  mk (id l) (canvas l) (source l) (preview l) (position l) (scale l) (rotation l)
     (center l) (mirror l) (flipped l) (img l) (sourceImg l) (active l) (providesMask l)
     (renderedMask l) (mask l) (sourceMask l) (maskCompositeOperation l) (customMask l)
     (appliedMaskIds l) (customMaskLayers l) (alpha l) (compositeOperation l)
     (visible l) (previousColor l) v (colorLayer l) (previousAlphaPixelColors l)
     (alphaPixelColors l) (tintLayer l) (tintColor l).
Definition set_previousAlphaPixelColors (l : t) (v : option (list Color.t)) : t :=
  mk (id l) (canvas l) (source l) (preview l) (position l) (scale l) (rotation l)
     (center l) (mirror l) (flipped l) (img l) (sourceImg l) (active l) (providesMask l)
     (renderedMask l) (mask l) (sourceMask l) (maskCompositeOperation l) (customMask l)
     (appliedMaskIds l) (customMaskLayers l) (alpha l) (compositeOperation l)
     (visible l) (previousColor l) (color l) (colorLayer l) v (alphaPixelColors l)
     (tintLayer l) (tintColor l).
Definition set_alphaPixelColors (l : t) (v : list Color.t) : t :=
  mk (id l) (canvas l) (source l) (preview l) (position l) (scale l) (rotation l)
     (center l) (mirror l) (flipped l) (img l) (sourceImg l) (active l) (providesMask l)
     (renderedMask l) (mask l) (sourceMask l) (maskCompositeOperation l) (customMask l)
     (appliedMaskIds l) (customMaskLayers l) (alpha l) (compositeOperation l)
     (visible l) (previousColor l) (color l) (colorLayer l) (previousAlphaPixelColors l)
     v (tintLayer l) (tintColor l).

(** The properties of a layer object, to state which ones a method leaves alone. *)
Inductive Field :=
| F_id
| F_canvas
| F_source
| F_preview
| F_position
| F_scale
| F_rotation
| F_center
| F_mirror
| F_flipped
| F_img
| F_sourceImg
| F_active
| F_providesMask
| F_renderedMask
| F_mask
| F_sourceMask
| F_maskCompositeOperation
| F_customMask
| F_appliedMaskIds
| F_customMaskLayers
| F_alpha
| F_compositeOperation
| F_visible
| F_previousColor
| F_color
| F_colorLayer
| F_previousAlphaPixelColors
| F_alphaPixelColors
| F_tintLayer
| F_tintColor.

Definition agree (f : Field) (a b : t) : Prop :=
  match f with
  | F_id => id a = id b
  | F_canvas => canvas a = canvas b
  | F_source => source a = source b
  | F_preview => preview a = preview b
  | F_position => position a = position b
  | F_scale => scale a = scale b
  | F_rotation => rotation a = rotation b
  | F_center => center a = center b
  | F_mirror => mirror a = mirror b
  | F_flipped => flipped a = flipped b
  | F_img => img a = img b
  | F_sourceImg => sourceImg a = sourceImg b
  | F_active => active a = active b
  | F_providesMask => providesMask a = providesMask b
  | F_renderedMask => renderedMask a = renderedMask b
  | F_mask => mask a = mask b
  | F_sourceMask => sourceMask a = sourceMask b
  | F_maskCompositeOperation => maskCompositeOperation a = maskCompositeOperation b
  | F_customMask => customMask a = customMask b
  | F_appliedMaskIds => appliedMaskIds a = appliedMaskIds b
  | F_customMaskLayers => customMaskLayers a = customMaskLayers b
  | F_alpha => alpha a = alpha b
  | F_compositeOperation => compositeOperation a = compositeOperation b
  | F_visible => visible a = visible b
  | F_previousColor => previousColor a = previousColor b
  | F_color => color a = color b
  | F_colorLayer => colorLayer a = colorLayer b
  | F_previousAlphaPixelColors => previousAlphaPixelColors a = previousAlphaPixelColors b
  | F_alphaPixelColors => alphaPixelColors a = alphaPixelColors b
  | F_tintLayer => tintLayer a = tintLayer b
  | F_tintColor => tintColor a = tintColor b
  end.

(** [b] differs from [a] at most in the properties listed in [changed]. *)
Definition unchanged_except (changed : list Field) (a b : t) : Prop :=
  forall f, ~ In f changed -> agree f a b.

(** *** The view (View.js is not part of the sources) *)
Record View := mkView {
  layers : list t;          (* the stack, bottom layer first *)
  maskIds : list string     (* view.maskIds, in insertion order *)
}.

Fixpoint findIndex (i : string) (ls : list t) : option nat :=
  match ls with
  | [] => None
  | l :: ls' => if String.eqb (id l) i then Some 0%nat else option_map S (findIndex i ls')
  end.

(** Modelled from the spec: [view.isOriginLayerHigher] (View.js is missing):
    "exposes isOriginLayerHigher(idA, idB) (true if idA sits above idB in
    draw order)", the stack being an "ordered sequence of Layer, ordering
    defines depth", written bottom first. *)
Definition isOriginLayerHigher (v : View) (idA idB : string) : bool :=
  match findIndex idA (layers v), findIndex idB (layers v) with
  | Some a, Some b => (b <? a)%nat
  | _, _ => false
  end.

(** Modelled from the spec: [view.getMaskLayer] (View.js is missing): the
    stack's lookup of a mask provider by id, "maskProvider(id) ->
    Option<&Mask>": the mask-providing layer of the stack with that id. *)
Definition getMaskLayer (v : View) (maskId : string) : option t :=
  find (fun l => providesMask l && String.eqb (id l) maskId) (layers v).

(** [set.add(v)] on a Set of ids, kept in insertion order. *)
Definition set_add (v : string) (s : list string) : list string :=
  if existsb (String.eqb v) s then s else s ++ [v].

(** *** Pixel scans and the color key (pure loops over an image buffer) *)
Section Scans.
Context `{Host}.

(** [static isTransparent(pixels, x, y)] *)
Definition isTransparent (pixels : ImageData.t) (x y : Z) : bool :=
  lt_undef TRANSPARENCY_THRESHOLD
           (get (ImageData.data pixels) ((((y * ImageData.width pixels) + x) * 4) + 3)).

(** The loop of [isCompletelyTransparent]:
    [for (index = 0; index < pixels.length; index += 4)
       if (pixels[index + 3] > THRESHOLD) return false;] then [true].
    In a trailing group of fewer than four bytes [pixels[index + 3]] is
    [undefined] and the test is false. *)
Fixpoint scanTransparent (pixels : list Z) : bool :=
  match pixels with
  | _ :: _ :: _ :: a :: rest =>
      if a >? TRANSPARENCY_THRESHOLD then false else scanTransparent rest
  | _ => true
  end.

(** The loop of [isCompletelyOpaque]: [if (pixels[index + 3] < THRESHOLD) return false;] *)
Fixpoint scanOpaque (pixels : list Z) : bool :=
  match pixels with
  | _ :: _ :: _ :: a :: rest =>
      if a <? TRANSPARENCY_THRESHOLD then false else scanOpaque rest
  | _ => true
  end.

(** One group of the inner loop of [applyTransparentPixels]: the pixel's
    color is built from [data[i .. i+3]] (note which key takes which
    byte), and on a match every byte of the group is set to 0. *)
Definition keyGroup (c : Color.t) (group : list Z) : list Z :=
  let pixelColor :=
    {| Color.red := group !! 0%nat;
       Color.blue := group !! 1%nat;
       Color.green := group !! 2%nat;
       Color.alpha := group !! 3%nat |} in
  if isNeighborColor c pixelColor then map (fun _ => 0) group else group.

(** The inner loop for one reference color: [for (i = 0; i < n; i += 4)]. *)
Fixpoint keyPass (c : Color.t) (data : list Z) : list Z :=
  match data with
  | r :: g :: b :: a :: rest => keyGroup c [r; g; b; a] ++ keyPass c rest
  | [] => []
  | partial => keyGroup c partial
  end.

(** All reference colors applied, in order, to one group of bytes. *)
Definition keyGroups (colors : list Color.t) (group : list Z) : list Z :=
  fold_left (fun g c => keyGroup c g) colors group.

(** A group after a match. *)
Definition zeroed (group : list Z) : list Z := map (fun _ => 0) group.

(** [this.alphaPixelColors.forEach((color) => { ... })] over the buffer. *)
Definition keyOut (colors : list Color.t) (data : list Z) : list Z :=
  fold_left (fun d c => keyPass c d) colors data.

End Scans.

(** *** Methods *)
Section Methods.
Context `{Host}.
Variable view : View.

(** [get width()] and [get height()]: the size of [this.canvas]. *)
Definition width (L : t) : M Z := c <~ Dom.read (canvas L) ;; ret (Canvas.width c).
Definition height (L : t) : M Z := c <~ Dom.read (canvas L) ;; ret (Canvas.height c).

(** [context.fillStyle = v]: [null] is not a color and is ignored.  So is any
    string that is not a CSS color; the model keeps the string as it is
    given, and nothing is proved of the fill style after a string was
    assigned. *)
Definition assignFillStyle (r : Canvas.Ref) (v : option string) : M unit :=
  match v with
  | Some s => Dom.setFillStyle r s
  | None => ret tt
  end.

(** [constructor({ view, canvas, tintColor, tintLayer, img, color })];
    [uuid] is what [Utils.generateUUID()] returns. *)
Definition new (uuid : string) (canvas : Canvas.Ref) (tintColor : option string)
           (tintLayer : bool) (img : option Image) (color : option string) : M t :=
  source <~ Dom.cloneCanvas canvas ;;
  preview <~ Dom.cloneCanvas canvas ;;
  cv <~ Dom.read canvas ;;
  s <~ Dom.read source ;;
  renderedMask <~ Dom.createElement (Canvas.width s) (Canvas.height s) ;;
  ret {| id := uuid;
         canvas := canvas;
         source := source;
         preview := preview;
         position := mkPos 0 0;
         scale := 1;
         rotation := 0;
         center := mkPos (Z2f (Canvas.width cv) / 2) (Z2f (Canvas.height cv) / 2);
         mirror := 1;
         flipped := false;
         img := img;
         sourceImg := option_map src img;
         active := false;
         providesMask := false;
         renderedMask := Some renderedMask;
         mask := None;
         sourceMask := None;
         maskCompositeOperation := Canvas.source_in;
         customMask := false;
         appliedMaskIds := [];
         customMaskLayers := false;
         alpha := 1;
         compositeOperation := Canvas.source_over;
         visible := true;
         previousColor := None;
         color := color;
         colorLayer := match color with Some _ => true | None => false end;
         previousAlphaPixelColors := None;
         alphaPixelColors := [];
         tintLayer := tintLayer;
         tintColor := tintColor |}.

(** [applyCustomMask(mask, callback)] *)
Definition applyCustomMask (L : t) (mask : Canvas.Ref) (callback : bool -> M unit) : M t :=
  let L := set_customMask L true in
  let L := set_mask L (Some mask) in
  rm <~ match renderedMask L with
        | Some rm => ret rm
        | None => throw (TypeError "this.renderedMask.getContext")
        end ;;
  w <~ width L ;;
  h <~ height L ;;
  Dom.drawImage5 rm mask 0 0 (Z2f w) (Z2f h) ;;;
  callback true ;;;
  ret L.

Definition activate (L : t) : M t := ret (set_active L true).
Definition deactivate (L : t) : M t := ret (set_active L false).

(** [isCompletelyTransparent()] and [isCompletelyOpaque()] read [this.source]. *)
Definition isCompletelyTransparent (L : t) : M bool :=
  s <~ Dom.read (source L) ;;
  let pixels :=
    ImageData.data (Canvas.getImageData s 0 0 (Canvas.width s) (Canvas.height s)) in
  ret (scanTransparent pixels).

Definition isCompletelyOpaque (L : t) : M bool :=
  s <~ Dom.read (source L) ;;
  let pixels :=
    ImageData.data (Canvas.getImageData s 0 0 (Canvas.width s) (Canvas.height s)) in
  ret (scanOpaque pixels).

(** The drawing branch of [createOriginalMask], from [beginPath] to [fill]:
    [points[0]] is [undefined] on an empty list and indexing it throws. *)
Definition drawContour (temp : Canvas.Ref) (points : list (list Z)) : M unit :=
  Dom.beginPath temp ;;;
  p0 <~ match points !! 0%nat with
        | Some p => ret p
        | None => throw (TypeError "points[0] is undefined")
        end ;;
  Dom.moveTo temp (get p0 0) (get p0 4) ;;;
  forEach (drop 1 points) (fun point => Dom.lineTo temp (get point 0) (get point 1)) ;;;
  Dom.closePath temp ;;;
  Dom.fill temp.

(** [createOriginalMask()] *)
Definition createOriginalMask (L : t) : M t :=
  let D := MASK_DENSITY in
  temp <~ Dom.createElement (D + 2) (D + 2) ;;
  cv <~ Dom.read (canvas L) ;;
  Dom.drawImage9 temp (canvas L) 1 1 (Z2f (Canvas.width cv)) (Z2f (Canvas.height cv))
                 1 1 (Z2f D) (Z2f D) ;;;
  t0 <~ Dom.read temp ;;
  let pixels := Canvas.getImageData t0 0 0 (D + 2) (D + 2) in
  when (negb (String.eqb default_color "")) (Dom.setFillStyle temp default_color) ;;;
  Dom.setStrokeStyle temp "#000000AA" ;;;
  Dom.setLineWidth temp 1 ;;;
  Dom.setFillStyle temp "black" ;;;
  tw <~ (c <~ Dom.read temp ;; ret (Z2f (Canvas.width c))) ;;
  th <~ (c <~ Dom.read temp ;; ret (Z2f (Canvas.height c))) ;;
  transparent <~ isCompletelyTransparent L ;;
  (if transparent then
     Dom.clearRect temp 0 0 tw th
   else
     opaque <~ isCompletelyOpaque L ;;
     if opaque then
       Dom.clearRect temp 0 0 tw th ;;;
       Dom.fillRect temp 0 0 tw th ;;;
       Dom.fill temp
     else
       let points := geom_contour (fun x y => isTransparent pixels x y) in
       Dom.clearRect temp 0 0 tw th ;;;
       drawContour temp points) ;;;
  s <~ Dom.read (source L) ;;
  rm <~ Dom.createElement (Canvas.width s) (Canvas.height s) ;;
  Dom.drawImage9 rm temp 1 1 (Z2f D) (Z2f D)
                 0 0 (Z2f (Canvas.width s)) (Z2f (Canvas.height s)) ;;;
  ret (set_renderedMask L (Some rm)).

(** The pixel data [createOriginalMask] reads back from its intermediate
    canvas and hands to the classifier, and the points the tracer returns
    for it. *)
Definition maskGrid (L : t) (h : Canvas.Heap) : ImageData.t :=
  let D := MASK_DENSITY in
  let temp := Canvas.blank (D + 2) (D + 2) in
  let cv := Canvas.deref h (canvas L) in
  Canvas.getImageData
    (Canvas.set_pixels temp
       (render_drawImage temp cv 1 1 (Z2f (Canvas.width cv)) (Z2f (Canvas.height cv))
                         1 1 (Z2f D) (Z2f D)))
    0 0 (D + 2) (D + 2).

Definition tracedPoints (L : t) (h : Canvas.Heap) : list (list Z) :=
  geom_contour (fun x y => isTransparent (maskGrid L h) x y).

(** [applyTransparentPixels(context)] *)
Definition applyTransparentPixels (L : t) (context : Canvas.Ref) : M unit :=
  match alphaPixelColors L with
  | [] => ret tt
  | colors =>
      w <~ width L ;;
      h <~ height L ;;
      c <~ Dom.read context ;;
      let imageData := Canvas.getImageData c 0 0 w h in
      let data := keyOut colors (ImageData.data imageData) in
      Dom.modify context (fun c => Canvas.putImageData c (ImageData.mk w h data))
  end.

(** [addTransparentColour(color)]; the set is listed in insertion order.
    (Adding a [Color] object the set already holds leaves the set as it is;
    the model has no object identity, and appends.) *)
Definition addTransparentColour (L : t) (c : Color.t) : M t :=
  ret (set_alphaPixelColors L (alphaPixelColors L ++ [c])).

(** [applyTransformations(context, alpha = true)] *)
Definition applyTransformations (L : t) (context : Canvas.Ref) (alpha_arg : bool) : M unit :=
  s <~ Dom.read (source L) ;;
  Dom.resetTransform context ;;;
  Dom.clearRect context 0 0 (Z2f (Canvas.width s)) (Z2f (Canvas.height s)) ;;;
  Dom.translate context (x (center L)) (y (center L)) ;;;
  Dom.scale context (mirror L * 1) 1 ;;;
  Dom.rotate context (rotation L * TO_RADIANS) ;;;
  Dom.translate context (- x (center L)) (- y (center L)) ;;;
  when alpha_arg (Dom.setGlobalAlpha context (alpha L)).

(** [recalculateMask()] *)
Definition recalculateMask (L : t) : M t :=
  match mask L, renderedMask L, customMask L with
  | Some m, Some rm, false =>
      applyTransformations L rm false ;;;
      s <~ Dom.read (source L) ;;
      Dom.drawImage5 rm m (x (position L)) (y (position L))
                     (Z2f (Canvas.width s) * scale L) (Z2f (Canvas.height s) * scale L) ;;;
      ret L
  | _, _, _ => ret L
  end.

(** [applyTint(context)] *)
Definition applyTint (L : t) (context : Canvas.Ref) : M unit :=
  tintCanvas <~ Dom.cloneCanvas (source L) ;;
  s <~ Dom.read (source L) ;;
  Dom.setWidth tintCanvas (Canvas.width s) ;;;
  Dom.setHeight tintCanvas (Canvas.height s) ;;;
  applyTransformations L tintCanvas false ;;;
  Dom.drawImage3 tintCanvas (source L) 0 0 ;;;
  Dom.setGlobalCompositeOperation tintCanvas Canvas.source_atop ;;;
  assignFillStyle tintCanvas (tintColor L) ;;;
  Dom.fillRect tintCanvas 0 0 (Z2f (Canvas.width s)) (Z2f (Canvas.height s)) ;;;
  Dom.setGlobalCompositeOperation tintCanvas Canvas.source_over ;;;
  Dom.setGlobalCompositeOperation context Canvas.color ;;;
  Dom.drawImage3 context tintCanvas 0 0 ;;;
  Dom.setGlobalCompositeOperation context Canvas.source_over.

(** The ids [redraw] iterates over. *)
Definition redrawMaskIds (L : t) : list string :=
  if customMaskLayers L then appliedMaskIds L else maskIds view.

(** The test in the body of [redraw]'s mask loop: the layer whose rendered
    mask is drawn for [maskId], if any. *)
Definition redrawMaskLayer (L : t) (maskId : string) : option t :=
  match getMaskLayer view maskId with
  | Some maskLayer =>
      if customMaskLayers L
         || (negb (customMaskLayers L) && isOriginLayerHigher view maskId (id L))
      then Some maskLayer else None
  | None => None
  end.

(** The mask providers one [redraw] draws, in drawing order. *)
Definition redrawProviders (L : t) : list t :=
  omap (redrawMaskLayer L) (redrawMaskIds L).

(** The body of the mask loop once the test has passed. *)
Definition drawMask (L : t) (maskLayer : t) : M unit :=
  rm <~ match renderedMask maskLayer with
        | Some rm => ret rm
        | None => throw (TypeError "drawImage(null)")
        end ;;
  mw <~ width maskLayer ;;
  mh <~ height maskLayer ;;
  cv <~ Dom.read (canvas L) ;;
  Dom.drawImage9 (canvas L) rm 0 0 (Z2f mw) (Z2f mh)
                 0 0 (Z2f (Canvas.width cv)) (Z2f (Canvas.height cv)) ;;;
  Dom.setGlobalCompositeOperation (canvas L) (maskCompositeOperation L).

(** [redraw()], first part ("we take the original image and apply our
    scaling transformations"): the transformed copy of the source.  The
    call [this.applyTransformations(originalContext, this.source, false)]
    binds [alpha] to [this.source], which is truthy. *)
Definition redrawOriginal (L : t) : M Canvas.Ref :=
  original <~ Dom.cloneCanvas (source L) ;;
  applyTransformations L original true ;;;
  Dom.drawImage3 original (source L) 0 0 ;;;
  when (tintLayer L) (applyTint L original) ;;;
  Dom.resetTransform original ;;;
  ret original.

(** [redraw()], with its second part ("place the computed layer on the
    view canvas"). *)
Definition redraw (L : t) : M unit :=
  original <~ redrawOriginal L ;;
  s <~ Dom.read (source L) ;;
  forEach [canvas L; preview L] (fun cContext =>
    Dom.setGlobalCompositeOperation cContext (compositeOperation L) ;;;
    Dom.clearRect cContext 0 0 (Z2f (Canvas.width s)) (Z2f (Canvas.height s)) ;;;
    Dom.resetTransform cContext) ;;;
  forEach (redrawMaskIds L) (fun maskId =>
    match redrawMaskLayer L maskId with
    | Some maskLayer => drawMask L maskLayer
    | None => ret tt
    end) ;;;
  forEach [canvas L; preview L] (fun cContext =>
    Dom.translate cContext 0 0 ;;;
    (if colorLayer L then
       assignFillStyle cContext (color L) ;;;
       w <~ width L ;;
       h <~ height L ;;
       Dom.rect cContext 0 0 w h ;;;
       Dom.fill cContext
     else
       Dom.drawImage5 cContext original (x (position L)) (y (position L))
                      (Z2f (Canvas.width s) * scale L) (Z2f (Canvas.height s) * scale L) ;;;
       applyTransparentPixels L cContext) ;;;
    Dom.resetTransform cContext).

(** [setColor(hexColorString = null)] *)
Definition setColor (L : t) (hexColorString : option string) : M t :=
  if negb (colorLayer L) then ret L
  else
    let L := set_color L hexColorString in
    assignFillStyle (canvas L) hexColorString ;;;
    w <~ width L ;;
    h <~ height L ;;
    Dom.rect (canvas L) 0 0 w h ;;;
    Dom.fill (canvas L) ;;;
    s <~ Dom.cloneCanvas (canvas L) ;;
    ret (set_source L s).

(** [static fromColor({ view, color, width, height })]; a size that is
    [undefined] converts to 0 when assigned to [canvas.width], and one that
    is given is taken to be a canvas size (see [Dom.createElement]). *)
Definition fromColor (uuid : string) (color : option string) (w h : option Z) : M t :=
  canvas <~ Dom.createElement (default 0 w) (default 0 h) ;;
  layer <~ new uuid canvas None false None color ;;
  setColor layer color.

Definition saveColor (L : t) : M t := ret (set_previousColor L (color L)).
Definition restoreColor (L : t) : M t := setColor L (previousColor L).

Definition saveAlphas (L : t) : M t :=
  ret (set_previousAlphaPixelColors L (Some (alphaPixelColors L))).
(** [new Set(null)] is the empty set. *)
Definition restoreAlphas (L : t) : M t :=
  ret (set_alphaPixelColors L (default [] (previousAlphaPixelColors L))).

(** The membership loop shared by [resetMasks] and [reset]:
    [this.view.layers.forEach((l) => { if (l.providesMask &&
    this.view.isOriginLayerHigher(l.id, this.id)) this.appliedMaskIds.add(l.id) })]. *)
Definition defaultMaskIds (L : t) : list string :=
  fold_left (fun ids l =>
               if providesMask l && isOriginLayerHigher view (id l) (id L)
               then set_add (id l) ids else ids)
            (layers view) [].

(** [resetMasks()]; cloning reads the size of [this.sourceMask], which
    throws while it is [undefined]. *)
Definition resetMasks (L : t) : M t :=
  let L := set_customMaskLayers L false in
  let L := set_appliedMaskIds L [] in
  let L := set_appliedMaskIds L (defaultMaskIds L) in
  let L := set_compositeOperation L Canvas.source_over in
  let L := set_maskCompositeOperation L Canvas.source_in in
  let L := set_customMask L false in
  m <~ match sourceMask L with
       | Some sm => Dom.cloneCanvas sm
       | None => throw (TypeError "sourceCanvas is undefined")
       end ;;
  let L := set_mask L (Some m) in
  redraw L ;;;
  ret L.

(** [translate(dx, dy)] *)
Definition translate (L : t) (dx dy : float) : M t :=
  ret (set_position L (mkPos (x (position L) - dx) (y (position L) - dy))).

(** [setScale(factor)] *)
Definition setScale (L : t) (factor : float) : M t := ret (set_scale L factor).

(** [rotate(degree)] *)
Definition rotate (L : t) (degree : float) : M t :=
  ret (set_rotation L (rotation L + degree * 2)).

(** [flip()] *)
Definition flip (L : t) : M t :=
  let L := set_mirror L (mirror L * -1) in
  let L := set_flipped L (negb (flipped L)) in
  redraw L ;;;
  ret L.

(** The options [clone] hands to [Layer.fromImage]. *)
Record ImgOptions := mkImgOptions {
  o_img : Image;
  o_canvasHeight : Z;
  o_canvasWidth : Z;
  o_tintColor : option string;
  o_tintLayer : bool
}.

(** [Layer.fromImage] decodes through the image element and builds its
    mask through [createMask]; [clone] only needs the layer it returns. *)
Variable fromImage : ImgOptions -> M t.

(** [clone()]: returns [this] as the call leaves it, and the new layer.
    The color options carry [canvasHeight] and [canvasWidth], so the
    [width] and [height] that [fromColor] destructures are [undefined]. *)
Definition clone (uuid : string) (L : t) : M (t * t) :=
  s <~ Dom.read (source L) ;;
  newLayer <~ match img L with
              | Some i => fromImage (mkImgOptions i (Canvas.height s) (Canvas.width s)
                                                  (tintColor L) (tintLayer L))
              | None => fromColor uuid (color L) None None
              end ;;
  let newLayer := set_active newLayer false in
  let newLayer := set_scale newLayer (scale L) in
  let newLayer := set_rotation newLayer (rotation L) in
  let newLayer := set_position newLayer (position L) in
  let newLayer := set_center newLayer (center L) in
  let newLayer := set_mirror newLayer (mirror L) in
  let newLayer := set_flipped newLayer (flipped L) in
  let newLayer := set_visible newLayer (visible L) in
  let newLayer := set_alpha newLayer (alpha L) in
  newLayer <~ match mask L with
              | Some m => c <~ Dom.cloneCanvas m ;; ret (set_mask newLayer (Some c))
              | None => ret newLayer
              end ;;
  this <~ match sourceMask L with
          | Some m => c <~ Dom.cloneCanvas m ;; ret (set_sourceMask L (Some c))
          | None => ret L
          end ;;
  this <~ match renderedMask this with
          | Some m => c <~ Dom.cloneCanvas m ;; ret (set_renderedMask this (Some c))
          | None => ret this
          end ;;
  let newLayer := set_customMask newLayer (customMask this) in
  let newLayer := set_customMaskLayers newLayer (customMaskLayers this) in
  let newLayer := set_appliedMaskIds newLayer (appliedMaskIds this) in
  let newLayer := set_compositeOperation newLayer (compositeOperation this) in
  let newLayer := set_maskCompositeOperation newLayer (maskCompositeOperation this) in
  let newLayer := set_alphaPixelColors newLayer (alphaPixelColors this) in
  let newLayer := match previousAlphaPixelColors this with
                  | Some p => set_previousAlphaPixelColors newLayer (Some p)
                  | None => newLayer
                  end in
  ret (this, newLayer).

(** Public calls that do not reset the mask state, for sequences of use. *)
Inductive Call :=
| CallTranslate (dx dy : float)
| CallSetScale (factor : float)
| CallRotate (degree : float)
| CallFlip
| CallActivate
| CallDeactivate
| CallSetColor (hex : option string)
| CallSaveColor
| CallRestoreColor
| CallSaveAlphas
| CallRestoreAlphas
| CallAddTransparentColour (c : Color.t)
| CallRecalculateMask
| CallRedraw.

Definition call (c : Call) (L : t) : M t :=
  match c with
  | CallTranslate dx dy => translate L dx dy
  | CallSetScale f => setScale L f
  | CallRotate d => rotate L d
  | CallFlip => flip L
  | CallActivate => activate L
  | CallDeactivate => deactivate L
  | CallSetColor hex => setColor L hex
  | CallSaveColor => saveColor L
  | CallRestoreColor => restoreColor L
  | CallSaveAlphas => saveAlphas L
  | CallRestoreAlphas => restoreAlphas L
  | CallAddTransparentColour c => addTransparentColour L c
  | CallRecalculateMask => recalculateMask L
  | CallRedraw => redraw L ;;; ret L
  end.

Fixpoint calls (cs : list Call) (L : t) : M t :=
  match cs with
  | [] => ret L
  | c :: cs' => L' <~ call c L ;; calls cs' L'
  end.

(** [getLayerLabel(active = false)]: [ACTIVE] and [INACTIVE] stand for
    [CONSTANTS.NUMBERS.ACTIVE] and [CONSTANTS.NUMBERS.INACTIVE]; the result
    [None] is [undefined] (an index past the end of the labels). *)
Definition getLayerLabel (ACTIVE INACTIVE : list string) (L : t) (active : bool)
  : option string :=
  match findIndex (id L) (layers view) with
  | None => Some "?"%string
  | Some index => if active then ACTIVE !! index else INACTIVE !! index
  end.

End Methods.

(** *** Building the baseline mask, and [reset] *)
Section Reset.
Context `{Host}.
Variable view : View.
Variable default_algorithm : bool.                      (* game.settings "default-algorithm" *)
Variable generateRayMask : Canvas.Ref -> M Canvas.Ref.  (* libs/RayMask.js *)
Variable Math_floor : float -> float.                   (* Math.floor *)

(** [createMask()].  [createOriginalMask] assigns [this.renderedMask] only, so
    in that branch the last line clones the [mask] the layer already had;
    the clone reads the size of its argument, which throws on [null] (as in
    [resetMasks]). *)
Definition createMask (L : t) : M t :=
  L <~ match renderedMask L with
       | Some _ => ret L
       | None =>
           s <~ Dom.read (source L) ;;
           rm <~ Dom.createElement (Canvas.width s) (Canvas.height s) ;;
           ret (set_renderedMask L (Some rm))
       end ;;
  L <~ (if default_algorithm then
          m <~ generateRayMask (canvas L) ;;
          let L := set_mask L (Some m) in
          maskContext <~ match renderedMask L with
                         | Some rm => ret rm
                         | None => throw (TypeError "this.renderedMask.getContext")
                         end ;;
          Dom.resetTransform maskContext ;;;
          w <~ width L ;;
          h <~ height L ;;
          Dom.drawImage5 maskContext m 0 0 (Z2f w) (Z2f h) ;;;
          ret L
        else
          createOriginalMask L) ;;
  sm <~ match mask L with
        | Some m => Dom.cloneCanvas m
        | None => throw (TypeError "sourceCanvas is null")
        end ;;
  ret (set_sourceMask L (Some sm)).

(** [reset()] *)
Definition reset (L : t) : M t :=
  let L := set_customMaskLayers L false in
  let L := set_appliedMaskIds L [] in
  let L := set_alphaPixelColors L [] in
  let L := set_appliedMaskIds L (defaultMaskIds view L) in
  let L := set_compositeOperation L Canvas.source_over in
  let L := set_maskCompositeOperation L Canvas.source_in in
  w <~ width L ;;
  s <~ Dom.read (source L) ;;
  let L := set_scale L (Z2f w / Z2f (Z.max (Canvas.width s) (Canvas.height s))) in
  let L := set_rotation L 0 in
  let L := set_position L
             (mkPos (Math_floor (Z2f w / 2 - (Z2f (Canvas.width s) * scale L) / 2)%float)
                    (y (position L))) in
  h <~ height L ;;
  let L := set_position L
             (mkPos (x (position L))
                    (Math_floor (Z2f h / 2 - (Z2f (Canvas.height s) * scale L) / 2)%float)) in
  let L := set_mask L None in
  let L := set_customMask L false in
  redraw view L ;;;
  L <~ createMask L ;;
  recalculateMask L.

End Reset.
End Layer.

(** ** What the specification names

    Section 4.2: "reset to identity; translate to center; apply mirror as a
    horizontal scale of +-1; apply rotation (degrees -> radians ...);
    translate back by -center". *)
Module Spec.
Import Canvas Layer.

Definition compose (toRadians : float) (center : Position) (mirrorSign rotationDegrees : float)
  : list Xform :=
  [ Translate (x center) (y center);
    Scale mirrorSign 1;
    Rotate (rotationDegrees * toRadians);
    Translate (- x center) (- y center) ].

End Spec.

(** ** Laws of the 2D rendering primitives used by the mask fast paths, and
    the states of a run the properties speak about *)
Module Laws.
Import Canvas.

Definition transparentBlack : list Z := [0; 0; 0; 0].
Definition opaqueBlack : list Z := [0; 0; 0; 255].

Section Laws.
Context `{Host}.

(** [clearRect] over the whole untransformed surface erases every pixel. *)
Definition clearRect_whole : Prop :=
  forall c, transform (ctx c) = [] ->
    render_clearRect c 0 0 (Z2f (width c)) (Z2f (height c))
    = uniform transparentBlack (Z.to_nat (width c * height c)).

(** [fillRect] over the whole untransformed surface with an opaque black
    fill, full alpha and source-over leaves every pixel opaque black. *)
Definition fillRect_whole_black : Prop :=
  forall c, transform (ctx c) = [] -> globalAlpha (ctx c) = 1%float ->
    globalCompositeOperation (ctx c) = source_over -> fillStyle (ctx c) = "black"%string ->
    render_fillRect c 0 0 (Z2f (width c)) (Z2f (height c))
    = uniform opaqueBlack (Z.to_nat (width c * height c)).

(** [fill] with an empty current path paints nothing. *)
Definition fill_empty_path : Prop :=
  forall c, path (ctx c) = [] -> render_fill c = pixels c.

(** Scaling a region of an image whose pixels are all transparent, or all
    opaque black, onto the whole of a fresh canvas gives that same value
    everywhere. *)
Definition drawImage_uniform : Prop :=
  forall dest image (a b w h : Z) p,
    ctx dest = defaultContext ->
    0 <= width dest -> 0 <= height dest ->
    pixels dest = uniform transparentBlack (Z.to_nat (width dest * height dest)) ->
    0 <= a -> 0 <= b -> 0 < w -> 0 < h -> a + w <= width image -> b + h <= height image ->
    pixels image = uniform p (Z.to_nat (width image * height image)) ->
    p = transparentBlack \/ p = opaqueBlack ->
    render_drawImage dest image (Z2f a) (Z2f b) (Z2f w) (Z2f h)
                     0 0 (Z2f (width dest)) (Z2f (height dest))
    = uniform p (Z.to_nat (width dest * height dest)).

(** [createOriginalMask] completes and leaves, as the layer's rendered
    mask, a new bitmap of the size of the source whose pixels all hold the
    bytes [p]. *)
Definition maskFilledWith (p : list Z) (L : Layer.t) (h : Heap) : Prop :=
  exists L' h' rm,
    Layer.createOriginalMask L h = Ok (L', h')
    /\ Layer.renderedMask L' = Some rm
    /\ width (deref h' rm) = width (deref h (Layer.source L))
    /\ height (deref h' rm) = height (deref h (Layer.source L))
    /\ wf (deref h' rm)
    /\ allPixels p (deref h' rm)
    /\ allAlpha (fun a => p !! 3%nat = Some a) (deref h' rm).

(** The intermediate canvas when [createOriginalMask] reaches its three-way
    branch: untransformed, opaque black fill, empty path. *)
Definition readyToFill (c : Canvas.t) : Prop :=
  width c = MASK_DENSITY + 2 /\ height c = MASK_DENSITY + 2
  /\ transform (ctx c) = [] /\ globalAlpha (ctx c) = 1%float
  /\ globalCompositeOperation (ctx c) = source_over
  /\ fillStyle (ctx c) = "black"%string /\ path (ctx c) = [].

End Laws.

(** The segment the drawing branch of [createOriginalMask] adds for a point. *)
Definition lineToOf (point : list Z) : PathOp := LineTo (get point 0) (get point 1).

(** The part of a layer that holds its mask state. *)
Definition sameMaskState (a b : Layer.t) : Prop :=
  Layer.customMask a = Layer.customMask b
  /\ Layer.mask a = Layer.mask b
  /\ Layer.renderedMask a = Layer.renderedMask b.

(** The color [applyTransparentPixels] builds for a group of pixel bytes:
    byte 1 goes under the key [blue] and byte 2 under the key [green]. *)
Definition pixelColor (group : list Z) : Color.t :=
  {| Color.red := group !! 0%nat;
     Color.blue := group !! 1%nat;
     Color.green := group !! 2%nat;
     Color.alpha := group !! 3%nat |}.

(** Some reference color of the list is a neighbor of the pixel's color. *)
Definition keyed `{Host} (colors : list Color.t) (group : list Z) : bool :=
  existsb (fun c => isNeighborColor c (pixelColor group)) colors.

(** The properties of the layer object a call may assign. *)
Definition fieldsOf (c : Layer.Call) : list Layer.Field :=
  match c with
  | Layer.CallTranslate _ _ => [Layer.F_position]
  | Layer.CallSetScale _ => [Layer.F_scale]
  | Layer.CallRotate _ => [Layer.F_rotation]
  | Layer.CallFlip => [Layer.F_mirror; Layer.F_flipped]
  | Layer.CallActivate | Layer.CallDeactivate => [Layer.F_active]
  | Layer.CallSetColor _ | Layer.CallRestoreColor => [Layer.F_color; Layer.F_source]
  | Layer.CallSaveColor => [Layer.F_previousColor]
  | Layer.CallSaveAlphas => [Layer.F_previousAlphaPixelColors]
  | Layer.CallRestoreAlphas | Layer.CallAddTransparentColour _ => [Layer.F_alphaPixelColors]
  | Layer.CallRecalculateMask | Layer.CallRedraw => []
  end.

(** The canvases a layer draws on: its view canvas, its preview and its
    rendered mask.  (Its source and its masks are only ever replaced.) *)
Definition drawnOn (L : Layer.t) : list Ref :=
  Layer.canvas L :: Layer.preview L
  :: match Layer.renderedMask L with Some rm => [rm] | None => [] end.

(** The layer's canvases are live and no two of them are the same element. *)
Definition ownsCanvases (L : Layer.t) (h : Heap) : Prop :=
  (Layer.canvas L < length h)%nat /\ (Layer.source L < length h)%nat
  /\ (Layer.preview L < length h)%nat
  /\ Layer.canvas L <> Layer.source L /\ Layer.canvas L <> Layer.preview L
  /\ Layer.source L <> Layer.preview L
  /\ forall rm, Layer.renderedMask L = Some rm ->
       (rm < length h)%nat /\ rm <> Layer.canvas L /\ rm <> Layer.source L
       /\ rm <> Layer.preview L.

(** The mirror sign and the [flipped] flag agree. *)
Definition mirrorAgrees (L : Layer.t) : Prop :=
  (Layer.mirror L = 1%float /\ Layer.flipped L = false)
  \/ (Layer.mirror L = (-1)%float /\ Layer.flipped L = true).

(** Source and preview have the size of the view canvas. *)
Definition sameSizes (L : Layer.t) (h : Heap) : Prop :=
  width (deref h (Layer.source L)) = width (deref h (Layer.canvas L))
  /\ height (deref h (Layer.source L)) = height (deref h (Layer.canvas L))
  /\ width (deref h (Layer.preview L)) = width (deref h (Layer.canvas L))
  /\ height (deref h (Layer.preview L)) = height (deref h (Layer.canvas L)).

(** What every call keeps true of a layer. *)
Definition wellFormed (L : Layer.t) (h : Heap) : Prop :=
  ownsCanvases L h /\ mirrorAgrees L /\ sameSizes L h.

End Laws.

(** ** What a run may write

    A run from [h] to [h'] removes no canvas; of the canvases below [n], those
    outside [S] are exactly as they were, and every one is related to what it
    was by [R] (its size is the same, say). *)
Module Footprint.
Import Canvas.

Definition sameSize (c c' : Canvas.t) : Prop :=
  width c' = width c /\ height c' = height c.

Definition sameContext (c c' : Canvas.t) : Prop := ctx c' = ctx c.

Definition sameBlend (c c' : Canvas.t) : Prop :=
  globalCompositeOperation (ctx c') = globalCompositeOperation (ctx c).

Definition preorder (R : Canvas.t -> Canvas.t -> Prop) : Prop :=
  (forall c, R c c) /\ (forall a b c, R a b -> R b c -> R a c).

Definition step (n : nat) (S : list Ref) (R : Canvas.t -> Canvas.t -> Prop)
           (h h' : Heap) : Prop :=
  (length h <= length h')%nat
  /\ forall r, (r < n)%nat ->
       R (deref h r) (deref h' r) /\ (~ In r S -> deref h' r = deref h r).

(** The canvas [r] may be replaced by [f] of itself: it is not below [n], or
    it is in [S] and [f] respects [R]. *)
Definition mayWrite (n : nat) (S : list Ref) (R : Canvas.t -> Canvas.t -> Prop)
           (r : Ref) (f : Canvas.t -> Canvas.t) : Prop :=
  (n <= r)%nat \/ (In r S /\ forall c, R c (f c)).

(** A canvas a run may draw on: one that is not below [n], or one of [S]. *)
Definition target (n : nat) (S : list Ref) (r : Ref) : Prop := (n <= r)%nat \/ In r S.

(** Every completed run of [m] from a heap of at least [n] canvases is such
    a step, and its result satisfies [Q]. *)
Definition writes {A} (n : nat) (S : list Ref) (R : Canvas.t -> Canvas.t -> Prop)
           (Q : A -> Prop) (m : M A) : Prop :=
  forall h a h', (n <= length h)%nat -> m h = Ok (a, h') -> step n S R h h' /\ Q a.

(** [m] completes from every heap. *)
Definition total {A} (m : M A) : Prop := forall h, exists a h', m h = Ok (a, h').

End Footprint.

(** ** A small host on which the model runs

    Whole-surface clears, fills and blits on an untransformed context are
    rendered (blits by nearest-neighbour sampling); any other drawing call
    leaves the bitmap as it is. *)
Module Reference.
Import Canvas.

Definition feq : float -> float -> bool := PrimFloat.Leibniz.eqb.

Definition f2z (f : float) : Z :=
  match Prim2SF f with
  | S754_finite s m e => (if s then -1 else 1) * Z.shiftl (Z.pos m) e
  | _ => 0
  end.

Definition wholeSurface (c : Canvas.t) (x y w h : float) : bool :=
  match transform (ctx c) with
  | [] => feq x 0 && feq y 0 && feq w (Z2f (width c)) && feq h (Z2f (height c))
  | _ => false
  end.

Definition isSourceOver (m : BlendMode) : bool :=
  match m with source_over => true | _ => false end.

Definition clearRect (c : Canvas.t) (x y w h : float) : list Z :=
  if wholeSurface c x y w h
  then uniform [0; 0; 0; 0] (Z.to_nat (width c * height c))
  else pixels c.

Definition fillRect (c : Canvas.t) (x y w h : float) : list Z :=
  if wholeSurface c x y w h && feq (globalAlpha (ctx c)) 1
     && isSourceOver (globalCompositeOperation (ctx c))
     && String.eqb (fillStyle (ctx c)) "black"
  then uniform [0; 0; 0; 255] (Z.to_nat (width c * height c))
  else pixels c.

Definition fill (c : Canvas.t) : list Z := pixels c.

Definition clamp (v hi : Z) : Z := Z.max 0 (Z.min v (hi - 1)).

(** Source-over for the two kinds of pixel the examples use: a pixel with
    alpha 0 leaves the destination pixel, any other replaces it. *)
Definition over (s d : list Z) : list Z :=
  match s !! 3%nat with
  | Some 0 => d
  | _ => s
  end.

Definition drawImage (dest image : Canvas.t) (sx sy sw sh dx dy dw dh : float) : list Z :=
  if wholeSurface dest dx dy dw dh && feq (globalAlpha (ctx dest)) 1
     && isSourceOver (globalCompositeOperation (ctx dest))
  then
    flat_map (fun y => flat_map (fun x =>
        over (pixelAt image (clamp (f2z sx + (x * f2z sw) / width dest) (width image))
                            (clamp (f2z sy + (y * f2z sh) / height dest) (height image)))
             (pixelAt dest x y))
      (zrange (width dest))) (zrange (height dest))
  else pixels dest.

Definition sameColor (a b : Color.t) : bool :=
  bool_decide (Color.red a = Color.red b) && bool_decide (Color.green a = Color.green b)
  && bool_decide (Color.blue a = Color.blue b) && bool_decide (Color.alpha a = Color.alpha b).

(** The host, for a given contour tracer. *)
Definition host (contour : (Z -> Z -> bool) -> list (list Z)) : Host :=
  {| TRANSPARENCY_THRESHOLD := 254;
     MASK_DENSITY := 4;
     TO_RADIANS := 0x1.1df46a2529d39p-6%float;     (* Math.PI / 180 *)
     default_color := "";
     geom_contour := contour;
     isNeighborColor := sameColor;
     render_clearRect := clearRect;
     render_fillRect := fillRect;
     render_fill := fill;
     render_drawImage := drawImage |}.

Definition triangle : (Z -> Z -> bool) -> list (list Z) :=
  fun _ => [[1; 1]; [3; 1]; [3; 3]].

(** Example canvases. *)
Definition bitmap (w h : Z) (p : list Z) : Canvas.t := mk w h p defaultContext.

Definition halfOpaque : Canvas.t :=                     (* 2x1: transparent, opaque *)
  bitmap 2 1 [0; 0; 0; 0; 10; 20; 30; 255].
Definition atThreshold : Canvas.t :=                    (* 2x1: both alphas are 254 *)
  bitmap 2 1 [10; 20; 30; 254; 40; 50; 60; 254].
Definition faint : Canvas.t :=                          (* 2x1: both alphas below 254 *)
  bitmap 2 1 [10; 20; 30; 0; 40; 50; 60; 100].
Definition solid : Canvas.t :=                          (* 2x1: alphas 254 and 255 *)
  bitmap 2 1 [10; 20; 30; 254; 40; 50; 60; 255].
Definition opaqueMask : Canvas.t :=                     (* 1x1 opaque black *)
  bitmap 1 1 [0; 0; 0; 255].

(** A layer object as the constructor leaves it, over given canvases. *)
Definition layer (uuid : string) (canvas source preview : Ref) (renderedMask : option Ref)
           (providesMask : bool) : Layer.t :=
  {| Layer.id := uuid;
     Layer.canvas := canvas;
     Layer.source := source;
     Layer.preview := preview;
     Layer.position := Layer.mkPos 0 0;
     Layer.scale := 1;
     Layer.rotation := 0;
     Layer.center := Layer.mkPos 1 0.5;
     Layer.mirror := 1;
     Layer.flipped := false;
     Layer.img := None;
     Layer.sourceImg := None;
     Layer.active := false;
     Layer.providesMask := providesMask;
     Layer.renderedMask := renderedMask;
     Layer.mask := None;
     Layer.sourceMask := None;
     Layer.maskCompositeOperation := source_in;
     Layer.customMask := false;
     Layer.appliedMaskIds := [];
     Layer.customMaskLayers := false;
     Layer.alpha := 1;
     Layer.compositeOperation := source_over;
     Layer.visible := true;
     Layer.previousColor := None;
     Layer.color := None;
     Layer.colorLayer := false;
     Layer.previousAlphaPixelColors := None;
     Layer.alphaPixelColors := [];
     Layer.tintLayer := false;
     Layer.tintColor := None |}.

(** A layer over the heap [heapOf image]: canvas, source and preview hold
    [image], and the rendered mask is a blank canvas of the same size. *)
Definition exampleLayer : Layer.t := layer "L" 0%nat 1%nat 2%nat (Some 3%nat) false.
Definition heapOf (image : Canvas.t) : Heap :=
  [image; image; image; blank (width image) (height image)].

(** The same layer with one reference color to key out. *)
Definition keyedLayer : Layer.t :=
  Layer.set_alphaPixelColors exampleLayer
    [Color.mk (Some 10) (Some 20) (Some 30) (Some 255)].

(** The stack [A, B, C] (A at the bottom) in which A and C provide masks. *)
Definition layerA : Layer.t := layer "A" 0%nat 1%nat 2%nat (Some 3%nat) true.
Definition layerB : Layer.t := layer "B" 4%nat 5%nat 6%nat (Some 7%nat) false.
Definition layerC : Layer.t := layer "C" 8%nat 9%nat 10%nat (Some 11%nat) true.
Definition viewABC : Layer.View := Layer.mkView [layerA; layerB; layerC] ["A"; "C"]%string.

(** The canvases of the stack: every layer over [halfOpaque]. *)
Definition heapABC : Heap := heapOf halfOpaque ++ heapOf halfOpaque ++ heapOf halfOpaque.

(** Layer B with a source mask, and layer B with a membership picked by hand. *)
Definition maskedB : Layer.t := Layer.set_sourceMask layerB (Some 7%nat).
Definition pickyB : Layer.t :=
  Layer.set_customMaskLayers (Layer.set_appliedMaskIds layerB ["A"%string]) true.

(** [Math.floor] on a double. *)
Definition floor (f : float) : float :=
  match Prim2SF f with
  | S754_finite s m e =>
      let q := Z.shiftl (Z.pos m) e in
      let up := if Z.shiftl q (- e) =? Z.pos m then q else q + 1 in
      if s then PrimFloat.opp (Z2f up) else Z2f q
  | _ => f
  end.

(** A ray-mask generator that returns a copy of the canvas it is given. *)
Definition copyMask : Ref -> M Ref := Dom.cloneCanvas.

End Reference.

(** * Properties *)

(** ** Scripts *)
Lemma bind_Ok {A B} (m : M A) (k : A -> M B) h a h' :
  m h = Ok (a, h') -> bind m k h = k a h'.
Proof. intros E. unfold bind. now rewrite E. Qed.

Lemma bind_Throw {A B} (m : M A) (k : A -> M B) h e :
  m h = Throw e -> bind m k h = Throw e.
Proof. intros E. unfold bind. now rewrite E. Qed.

Lemma bind_ext_l {A B} (m m' : M A) (k : A -> M B) (h : Canvas.Heap) :
  m h = m' h -> bind m k h = bind m' k h.
Proof. intros E. unfold bind. now rewrite E. Qed.

Lemma bind_ext_r {A B} (m : M A) (k k' : A -> M B) (h : Canvas.Heap) :
  (forall a h', k a h' = k' a h') -> bind m k h = bind m k' h.
Proof. intros E. unfold bind. destruct (m h) as [[a h']|e]; [apply E | reflexivity]. Qed.

(** ** Frames: a single-property assignment leaves the other properties alone *)
Ltac frame :=
  let f := fresh "f" in
  let Hf := fresh "Hf" in
  intros f Hf; destruct f; try reflexivity; exfalso; apply Hf; simpl; tauto.

(** C6. [rotate(d)] completes, adds [d * 2] to the stored rotation, leaves
    every other property of the layer as it was, and touches no canvas. *)
Theorem rotate_adds_twice_the_degree (L : Layer.t) (d : float) (h : Canvas.Heap) :
  exists L',
    Layer.rotate L d h = Ok (L', h)
    /\ Layer.rotation L' = (Layer.rotation L + d * 2)%float
    /\ Layer.unchanged_except [Layer.F_rotation] L L'.
Proof.
  eexists. split; [reflexivity|]. split; [reflexivity|]. frame.
Qed.

(** C10. [translate(dx, dy)] completes, stores [position.x - dx] and
    [position.y - dy], leaves every other property of the layer as it was,
    and draws nothing: the heap of canvases is returned as it was given. *)
Theorem translate_subtracts_the_deltas (L : Layer.t) (dx dy : float) (h : Canvas.Heap) :
  exists L',
    Layer.translate L dx dy h = Ok (L', h)
    /\ Layer.x (Layer.position L') = (Layer.x (Layer.position L) - dx)%float
    /\ Layer.y (Layer.position L') = (Layer.y (Layer.position L) - dy)%float
    /\ Layer.unchanged_except [Layer.F_position] L L'.
Proof.
  eexists. split; [reflexivity|]. repeat split; try reflexivity. frame.
Qed.

(** ** The contour classifier *)
Section Classifier.
Context `{Host}.

(** C1 (as the code has it). For a well-formed pixel buffer and an in-range
    coordinate, the buffer holds an alpha byte for the pixel and the
    classifier handed to the contour tracer answers true exactly when that
    alpha is strictly above the threshold. *)
Theorem isTransparent_true_iff_alpha_above_threshold
    (pixels : ImageData.t) (x y : Z) :
  0 <= ImageData.width pixels ->
  length (ImageData.data pixels)
    = Z.to_nat (4 * (ImageData.width pixels * ImageData.height pixels)) ->
  0 <= x < ImageData.width pixels ->
  0 <= y < ImageData.height pixels ->
  exists a,
    get (ImageData.data pixels) (((y * ImageData.width pixels + x) * 4) + 3) = Some a
    /\ (Layer.isTransparent pixels x y = true <-> TRANSPARENCY_THRESHOLD < a).
Proof.
  intros Hw Hlen Hx Hy.
  set (i := ((y * ImageData.width pixels + x) * 4) + 3).
  assert (Hi : 0 <= i < 4 * (ImageData.width pixels * ImageData.height pixels)).
  { subst i. split; [nia|].
    assert (y * ImageData.width pixels + x < ImageData.width pixels * ImageData.height pixels)
      by nia. lia. }
  destruct (lookup_lt_is_Some_2 (ImageData.data pixels) (Z.to_nat i)) as [a Ha].
  { rewrite Hlen. lia. }
  assert (Hg : get (ImageData.data pixels) i = Some a).
  { unfold get. destruct (Z.ltb_spec i 0); [lia | exact Ha]. }
  exists a. split; [exact Hg|].
  unfold Layer.isTransparent. fold i. rewrite Hg. simpl. apply Z.ltb_lt.
Qed.

End Classifier.

Lemma isTransparent_true_iff_alpha_above_threshold_witness :
  exists a,
    get [0; 0; 0; 0; 10; 20; 30; 255] (((0 * 2 + 1) * 4) + 3) = Some a
    /\ (@Layer.isTransparent (Reference.host Reference.triangle)
          (ImageData.mk 2 1 [0; 0; 0; 0; 10; 20; 30; 255]) 1 0 = true
        <-> 254 < a).
Proof.
  apply (@isTransparent_true_iff_alpha_above_threshold (Reference.host Reference.triangle)
           (ImageData.mk 2 1 [0; 0; 0; 0; 10; 20; 30; 255]) 1 0);
    simpl; try reflexivity; lia.
Defined.

(** C1 as stated fails whatever the threshold is: in the 2x1 buffer whose
    alphas are 0 and 255, some pixel is classified true without being below
    the threshold, or false while being below it. *)
Lemma isTransparent_is_not_below_threshold :
  exists pixels : ImageData.t,
    forall H : Host, exists x y a,
      0 <= x < ImageData.width pixels /\ 0 <= y < ImageData.height pixels
      /\ get (ImageData.data pixels) (((y * ImageData.width pixels + x) * 4) + 3) = Some a
      /\ ~ (Layer.isTransparent pixels x y = true <-> a < TRANSPARENCY_THRESHOLD).
Proof.
  exists (ImageData.mk 2 1 [0; 0; 0; 0; 10; 20; 30; 255]).
  intros H. destruct (Z.ltb_spec TRANSPARENCY_THRESHOLD 255) as [Hlt | Hge].
  - exists 1, 0, 255. repeat split; try (simpl; lia).
    intros [Hc _]. unfold Layer.isTransparent in Hc. simpl in Hc.
    assert (E : (TRANSPARENCY_THRESHOLD <? 255) = true) by now apply Z.ltb_lt.
    specialize (Hc E). lia.
  - exists 0, 0, 0. repeat split; try (simpl; lia).
    intros [_ Hc]. unfold Layer.isTransparent in Hc. simpl in Hc.
    assert (E : (TRANSPARENCY_THRESHOLD <? 0) = true) by (apply Hc; lia).
    apply Z.ltb_lt in E. lia.
Qed.

(** ** The color key *)
Lemma list_ind4 {A} (P : list A -> Prop) :
  P [] -> (forall a, P [a]) -> (forall a b, P [a; b]) -> (forall a b c, P [a; b; c]) ->
  (forall a b c d rest, P rest -> P (a :: b :: c :: d :: rest)) ->
  forall l, P l.
Proof.
  intros H0 H1 H2 H3 H4.
  fix IH 1. intros [|a [|b [|c [|d rest]]]].
  - exact H0.
  - apply H1.
  - apply H2.
  - apply H3.
  - apply H4, IH.
Qed.

Section ColorKey.
Context `{Host}.

Lemma keyGroup_cases c group :
  Layer.keyGroup c group = group \/ Layer.keyGroup c group = Layer.zeroed group.
Proof. unfold Layer.keyGroup. destruct (isNeighborColor _ _); auto. Qed.

Lemma zeroed_zeroed group : Layer.zeroed (Layer.zeroed group) = Layer.zeroed group.
Proof. unfold Layer.zeroed. rewrite map_map. reflexivity. Qed.

Lemma keyGroups_zeroed colors group : Layer.keyGroups colors (Layer.zeroed group) = Layer.zeroed group.
Proof.
  induction colors as [|c cs IH]; [reflexivity|].
  simpl. destruct (keyGroup_cases c (Layer.zeroed group)) as [E | E]; rewrite E.
  - exact IH.
  - rewrite zeroed_zeroed. exact IH.
Qed.

Lemma keyGroups_cases colors group :
  Layer.keyGroups colors group = group \/ Layer.keyGroups colors group = Layer.zeroed group.
Proof.
  revert group. induction colors as [|c cs IH]; intros group; [now left|].
  simpl. destruct (keyGroup_cases c group) as [E | E]; rewrite E.
  - apply IH.
  - right. apply keyGroups_zeroed.
Qed.

Lemma keyGroups_idempotent colors group :
  Layer.keyGroups colors (Layer.keyGroups colors group) = Layer.keyGroups colors group.
Proof.
  destruct (keyGroups_cases colors group) as [E | E]; rewrite E.
  - exact E.
  - apply keyGroups_zeroed.
Qed.

Lemma keyGroup_four c r g b a :
  exists r' g' b' a', Layer.keyGroup c [r; g; b; a] = [r'; g'; b'; a'].
Proof. destruct (keyGroup_cases c [r; g; b; a]) as [E | E]; rewrite E; simpl; eauto. Qed.

(** The passes over the buffer act on each group of four bytes on its own. *)
Lemma keyOut_group colors r g b a rest :
  Layer.keyOut colors (r :: g :: b :: a :: rest)
  = Layer.keyGroups colors [r; g; b; a] ++ Layer.keyOut colors rest.
Proof.
  revert r g b a rest. induction colors as [|c cs IH]; intros; [reflexivity|].
  unfold Layer.keyOut, Layer.keyGroups in *. cbn [fold_left].
  change (Layer.keyPass c (r :: g :: b :: a :: rest))
    with (Layer.keyGroup c [r; g; b; a] ++ Layer.keyPass c rest).
  destruct (keyGroup_four c r g b a) as (r' & g' & b' & a' & E). rewrite E.
  apply IH.
Qed.

Lemma keyOut_partial colors partial :
  (0 < length partial < 4)%nat -> Layer.keyOut colors partial = Layer.keyGroups colors partial.
Proof.
  revert partial. induction colors as [|c cs IH]; intros partial Hlen; [reflexivity|].
  unfold Layer.keyOut, Layer.keyGroups in *. cbn [fold_left].
  assert (E : Layer.keyPass c partial = Layer.keyGroup c partial).
  { destruct partial as [|p1 [|p2 [|p3 [|p4 rest]]]]; simpl in Hlen; try lia; reflexivity. }
  rewrite E. apply IH.
  destruct (keyGroup_cases c partial) as [E' | E']; rewrite E'; [exact Hlen|].
  unfold Layer.zeroed. rewrite length_map. exact Hlen.
Qed.

Lemma keyOut_nil colors : Layer.keyOut colors [] = [].
Proof. induction colors as [|c cs IH]; [reflexivity | exact IH]. Qed.

Lemma keyOut_idempotent colors data :
  Layer.keyOut colors (Layer.keyOut colors data) = Layer.keyOut colors data.
Proof.
  induction data as [|p1|p1 p2|p1 p2 p3|r g b a rest IH] using list_ind4.
  - now rewrite !keyOut_nil.
  - rewrite (keyOut_partial colors [p1]) by (simpl; lia).
    destruct (keyGroups_cases colors [p1]) as [E | E]; rewrite E;
      rewrite keyOut_partial by (simpl; lia);
      [exact E | apply (keyGroups_zeroed colors [p1])].
  - rewrite (keyOut_partial colors [p1; p2]) by (simpl; lia).
    destruct (keyGroups_cases colors [p1; p2]) as [E | E]; rewrite E;
      rewrite keyOut_partial by (simpl; lia);
      [exact E | apply (keyGroups_zeroed colors [p1; p2])].
  - rewrite (keyOut_partial colors [p1; p2; p3]) by (simpl; lia).
    destruct (keyGroups_cases colors [p1; p2; p3]) as [E | E]; rewrite E;
      rewrite keyOut_partial by (simpl; lia);
      [exact E | apply (keyGroups_zeroed colors [p1; p2; p3])].
  - rewrite (keyOut_group colors r g b a rest).
    destruct (keyGroups_cases colors [r; g; b; a]) as [E | E]; rewrite E; simpl.
    + rewrite keyOut_group, E, IH. reflexivity.
    + rewrite keyOut_group. change [0; 0; 0; 0] with (Layer.zeroed [r; g; b; a]).
      rewrite keyGroups_zeroed, IH. reflexivity.
Qed.

Lemma keyOut_length colors data : length (Layer.keyOut colors data) = length data.
Proof.
  induction data as [|p1|p1 p2|p1 p2 p3|r g b a rest IH] using list_ind4.
  - now rewrite keyOut_nil.
  - rewrite keyOut_partial by (simpl; lia).
    destruct (keyGroups_cases colors [p1]) as [E | E]; now rewrite E.
  - rewrite keyOut_partial by (simpl; lia).
    destruct (keyGroups_cases colors [p1; p2]) as [E | E]; now rewrite E.
  - rewrite keyOut_partial by (simpl; lia).
    destruct (keyGroups_cases colors [p1; p2; p3]) as [E | E]; now rewrite E.
  - rewrite keyOut_group, length_app, IH.
    destruct (keyGroups_cases colors [r; g; b; a]) as [E | E]; now rewrite E.
Qed.

End ColorKey.

(** ** Bitmaps: pixels, rows and whole-surface reads *)
Section Bitmaps.
Import Canvas.

Lemma flat_map_agree {A B} (f g : A -> list B) (l : list A) :
  (forall a, In a l -> f a = g a) -> flat_map f l = flat_map g l.
Proof.
  induction l as [|a l IH]; intros E; [reflexivity|].
  simpl. rewrite (E a) by now left. rewrite IH; [reflexivity|].
  intros b Hb. apply E. now right.
Qed.

Lemma flat_map_of_map {A B C} (f : B -> list C) (g : A -> B) (l : list A) :
  flat_map f (map g l) = flat_map (fun a => f (g a)) l.
Proof. induction l as [|a l IH]; [reflexivity|]. simpl. now rewrite IH. Qed.

Lemma flat_map_seq_from {B} (f : nat -> list B) (s n : nat) :
  flat_map f (seq s n) = flat_map (fun k => f (s + k)%nat) (seq 0 n).
Proof.
  revert f s. induction n as [|n IH]; intros f s; [reflexivity|].
  simpl. rewrite Nat.add_0_r. f_equal.
  rewrite (IH f (S s)), (IH (fun k => f (s + k)%nat) 1%nat).
  apply flat_map_agree. intros k _. f_equal. lia.
Qed.

(** A double loop over rows and columns visits the cells in index order. *)
Lemma flat_map_grid {B} (f : nat -> list B) (W Hn : nat) :
  flat_map (fun y => flat_map (fun x => f (y * W + x)%nat) (seq 0 W)) (seq 0 Hn)
  = flat_map f (seq 0 (Hn * W)).
Proof.
  induction Hn as [|Hn IH]; [reflexivity|].
  rewrite seq_S, flat_map_app, IH. simpl flat_map at 2. rewrite app_nil_r.
  replace (S Hn * W)%nat with (Hn * W + W)%nat by lia.
  rewrite seq_app, flat_map_app. f_equal.
  simpl. symmetry. apply flat_map_seq_from.
Qed.

(** Cutting a buffer into its groups of four bytes and gluing them back. *)
Lemma flat_map_groups (l : list Z) (n : nat) :
  length l = (4 * n)%nat ->
  flat_map (fun k => take 4 (drop (4 * k) l)) (seq 0 n) = l.
Proof.
  revert l. induction n as [|n IH]; intros l Hlen.
  - destruct l; [reflexivity | simpl in Hlen; lia].
  - destruct l as [|a [|b [|c [|d l']]]]; simpl in Hlen; try lia.
    change (seq 0 (S n)) with (0%nat :: seq 1 n).
    cbn [flat_map].
    rewrite (flat_map_seq_from _ 1 n).
    transitivity ([a; b; c; d] ++ flat_map (fun k => take 4 (drop (4 * k) l')) (seq 0 n)).
    + change (take 4 (drop (4 * 0) (a :: b :: c :: d :: l'))) with [a; b; c; d].
      apply (f_equal (app [a; b; c; d])).
      apply flat_map_agree. intros k _.
      replace (4 * (1 + k))%nat with (S (S (S (S (4 * k))))) by lia. reflexivity.
    + rewrite IH by lia. reflexivity.
Qed.

Lemma In_zrange (n v : Z) : In v (zrange n) -> 0 <= v < n.
Proof.
  unfold zrange. rewrite in_map_iff. intros (k & <- & Hk). apply in_seq in Hk. lia.
Qed.

Lemma zrange_In (n v : Z) : 0 <= v < n -> In v (zrange n).
Proof.
  intros Hv. unfold zrange. apply in_map_iff. exists (Z.to_nat v).
  split; [lia|]. apply in_seq. lia.
Qed.

Lemma pixelAt_in_range (c : t) (x y : Z) :
  0 <= x < width c -> 0 <= y < height c ->
  pixelAt c x y = take 4 (drop (Z.to_nat (4 * (y * width c + x))) (pixels c)).
Proof.
  intros Hx Hy. unfold pixelAt.
  destruct (Z.leb_spec 0 x); [|lia]. destruct (Z.ltb_spec x (width c)); [|lia].
  destruct (Z.leb_spec 0 y); [|lia]. destruct (Z.ltb_spec y (height c)); [|lia].
  reflexivity.
Qed.

(** Reading every pixel of a well-formed bitmap, row by row, gives its buffer. *)
Lemma pixels_by_rows (c : t) :
  wf c ->
  flat_map (fun y => flat_map (fun x => pixelAt c x y) (zrange (width c))) (zrange (height c))
  = pixels c.
Proof.
  intros (Hw & Hh & Hlen). unfold zrange.
  rewrite flat_map_of_map.
  rewrite (flat_map_agree _
    (fun y => flat_map (fun x => take 4 (drop (4 * (y * Z.to_nat (width c) + x)) (pixels c)))
                       (seq 0 (Z.to_nat (width c))))).
  - rewrite (flat_map_grid (fun k => take 4 (drop (4 * k) (pixels c)))).
    apply flat_map_groups. rewrite Hlen. nia.
  - intros y Hy. apply in_seq in Hy. rewrite flat_map_of_map.
    apply flat_map_agree. intros x Hx. apply in_seq in Hx.
    rewrite pixelAt_in_range by lia. do 2 f_equal. nia.
Qed.

Lemma getImageData_whole (c : t) :
  wf c -> getImageData c 0 0 (width c) (height c)
          = ImageData.mk (width c) (height c) (pixels c).
Proof.
  intros Hwf. unfold getImageData. f_equal.
  etransitivity; [|apply (pixels_by_rows c Hwf)].
  apply flat_map_agree. intros y _. apply flat_map_agree. intros x _. reflexivity.
Qed.

Lemma putImageData_whole (c : t) (d : list Z) :
  0 <= width c -> 0 <= height c -> length d = Z.to_nat (4 * (width c * height c)) ->
  putImageData c (ImageData.mk (width c) (height c) d) = set_pixels c d.
Proof.
  intros Hw Hh Hlen. unfold putImageData. f_equal.
  cbn [ImageData.width ImageData.height ImageData.data].
  set (src := mk (width c) (height c) d defaultContext).
  etransitivity; [|apply (pixels_by_rows src); repeat split; assumption].
  apply flat_map_agree. intros y Hy. apply In_zrange in Hy.
  apply flat_map_agree. intros x Hx. apply In_zrange in Hx.
  subst src. cbn [width height] in Hx, Hy.
  destruct (Z.ltb_spec x (width c)); [|lia]. destruct (Z.ltb_spec y (height c)); [|lia].
  reflexivity.
Qed.

Lemma pixelAt_four (c : t) (x y : Z) :
  wf c -> 0 <= x < width c -> 0 <= y < height c ->
  exists r g b a, pixelAt c x y = [r; g; b; a].
Proof.
  intros (Hw & Hh & Hlen) Hx Hy. rewrite pixelAt_in_range by assumption.
  set (k := Z.to_nat (4 * (y * width c + x))).
  assert (Hk : (k + 4 <= length (pixels c))%nat) by (rewrite Hlen; subst k; nia).
  assert (Hl : length (take 4 (drop k (pixels c))) = 4%nat).
  { rewrite length_take, length_drop. lia. }
  destruct (take 4 (drop k (pixels c))) as [|r [|g [|b [|a [|e l]]]]]; simpl in Hl; try lia.
  eauto.
Qed.

Lemma uniform_length (p : list Z) (n : nat) : length (uniform p n) = (n * length p)%nat.
Proof.
  unfold uniform. induction n as [|n IH]; [reflexivity|].
  simpl. rewrite length_app, IH. lia.
Qed.

Lemma uniform_group (p : list Z) (n k : nat) :
  length p = 4%nat -> (k < n)%nat -> take 4 (drop (4 * k) (uniform p n)) = p.
Proof.
  intros Hp. revert k. unfold uniform. induction n as [|n IH]; intros k Hk; [lia|].
  cbn [repeat concat]. destruct k as [|k].
  - change (4 * 0)%nat with 0%nat. rewrite drop_0.
    apply take_app_length'. now rewrite Hp.
  - replace (4 * S k)%nat with (length p + 4 * k)%nat by lia.
    rewrite drop_app_add. apply IH. lia.
Qed.

(** Every pixel of a uniform bitmap is the repeated pixel. *)
Lemma pixelAt_uniform (c : t) (p : list Z) (x y : Z) :
  length p = 4%nat ->
  pixels c = uniform p (Z.to_nat (width c * height c)) ->
  0 <= x < width c -> 0 <= y < height c ->
  pixelAt c x y = p.
Proof.
  intros Hp Hu Hx Hy. rewrite pixelAt_in_range by assumption. rewrite Hu.
  replace (Z.to_nat (4 * (y * width c + x))) with (4 * Z.to_nat (y * width c + x))%nat by nia.
  apply uniform_group; [exact Hp | nia].
Qed.

Lemma uniform_wf (w h : Z) (p : list Z) (k : Context2D) :
  0 <= w -> 0 <= h -> length p = 4%nat -> wf (mk w h (uniform p (Z.to_nat (w * h))) k).
Proof.
  intros Hw Hh Hp. repeat split; try assumption.
  cbn [pixels width height]. rewrite uniform_length, Hp. nia.
Qed.

End Bitmaps.

(** ** The heap of canvases *)
Section HeapFacts.
Import Canvas.

Lemma deref_insert_eq (h : Heap) (r : Ref) (c : Canvas.t) :
  (r < length h)%nat -> deref (<[r := c]> h) r = c.
Proof. intros Hr. unfold deref. now rewrite list_lookup_insert_eq. Qed.

Lemma deref_insert_ne (h : Heap) (r r' : Ref) (c : Canvas.t) :
  r <> r' -> deref (<[r := c]> h) r' = deref h r'.
Proof. intros Hr. unfold deref. now rewrite list_lookup_insert_ne. Qed.

Lemma deref_alloc_new (h : Heap) (c : Canvas.t) : deref (h ++ [c]) (length h) = c.
Proof. unfold deref. now rewrite list_lookup_middle. Qed.

Lemma deref_alloc_old (h : Heap) (r : Ref) (c : Canvas.t) :
  (r < length h)%nat -> deref (h ++ [c]) r = deref h r.
Proof. intros Hr. unfold deref. now rewrite lookup_app_l. Qed.

Lemma modify_eq (r : Ref) (f : Canvas.t -> Canvas.t) (h : Heap) :
  Dom.modify r f h = Ok (tt, <[r := f (deref h r)]> h).
Proof. reflexivity. Qed.

(** Two updates of the same live canvas in a row are one update. *)
Lemma modify_then_modify {A} (r : Ref) (f g : Canvas.t -> Canvas.t) (k : M A) (h : Heap) :
  (r < length h)%nat ->
  (Dom.modify r f ;;; Dom.modify r g ;;; k) h = (Dom.modify r (fun c => g (f c)) ;;; k) h.
Proof.
  intros Hr. unfold bind. rewrite !modify_eq.
  rewrite deref_insert_eq by exact Hr. now rewrite list_insert_insert_eq.
Qed.

Lemma modify_then_modify_end (r : Ref) (f g : Canvas.t -> Canvas.t) (h : Heap) :
  (r < length h)%nat ->
  (Dom.modify r f ;;; Dom.modify r g) h = Dom.modify r (fun c => g (f c)) h.
Proof.
  intros Hr. unfold bind. rewrite !modify_eq.
  rewrite deref_insert_eq by exact Hr. now rewrite list_insert_insert_eq.
Qed.

End HeapFacts.

(** ** The transform model *)
Section Transform.
Variable view : Layer.View.
Context `{Host}.
Import Canvas.

Lemma applyTransformations_run (L : Layer.t) (context : Ref) (alpha_arg : bool) (h : Heap) :
  (context < length h)%nat ->
  exists c',
    Layer.applyTransformations L context alpha_arg h = Ok (tt, <[context := c']> h)
    /\ transform (ctx c')
       = [ Translate (Layer.x (Layer.center L)) (Layer.y (Layer.center L));
           Scale (Layer.mirror L * 1) 1;
           Rotate (Layer.rotation L * TO_RADIANS);
           Translate (- Layer.x (Layer.center L)) (- Layer.y (Layer.center L)) ].
Proof.
  intros Hr. unfold Layer.applyTransformations.
  unfold Dom.resetTransform, Dom.clearRect, Dom.translate, Dom.scale, Dom.rotate,
    Dom.setGlobalAlpha, Dom.modifyCtx, when.
  rewrite (bind_Ok _ _ h (deref h (Layer.source L)) h) by reflexivity.
  rewrite !modify_then_modify by exact Hr.
  destruct alpha_arg.
  - rewrite modify_then_modify_end by exact Hr. rewrite modify_eq.
    eexists. split; reflexivity.
  - unfold bind, ret. rewrite modify_eq.
    eexists. split; reflexivity.
Qed.

Lemma mirror_times_one (m : float) :
  m = 1%float \/ m = (-1)%float -> (m * 1)%float = m.
Proof. intros [-> | ->]; reflexivity. Qed.

Lemma applyTransformations_composed (L : Layer.t) (context : Ref) (alpha_arg : bool)
      (h : Heap) :
  Layer.mirror L = 1%float \/ Layer.mirror L = (-1)%float ->
  (context < length h)%nat ->
  exists h',
    Layer.applyTransformations L context alpha_arg h = Ok (tt, h')
    /\ length h' = length h
    /\ transform (ctx (deref h' context))
       = Spec.compose TO_RADIANS (Layer.center L) (Layer.mirror L) (Layer.rotation L).
Proof.
  intros Hm Hr.
  destruct (applyTransformations_run L context alpha_arg h Hr) as (c' & E & T).
  exists (<[context := c']> h). split; [exact E|]. split; [apply length_insert|].
  rewrite deref_insert_eq by exact Hr. rewrite T. unfold Spec.compose.
  now rewrite (mirror_times_one _ Hm).
Qed.

(** C5. With the mirror sign at +1 or -1: [applyTransformations] leaves on
    the context it is given, whatever that context held before and whether
    or not the alpha is set, the transform "translate to the center, scale
    by (mirror, 1), rotate by the rotation in radians, translate back by
    minus the center"; and [recalculateMask], [redraw] and the tint pass
    each run their [drawImage] of the mask or of the source with exactly
    that transform on the target context: [redraw()] is "copy the source,
    compose the transform on the copy, draw the source on it", followed by
    the rest of the method. *)
Theorem transform_is_composed_in_canonical_order (L : Layer.t) (h : Heap) :
  Layer.mirror L = 1%float \/ Layer.mirror L = (-1)%float ->
  (forall context alpha_arg, (context < length h)%nat ->
     exists h',
       Layer.applyTransformations L context alpha_arg h = Ok (tt, h')
       /\ transform (ctx (deref h' context))
          = Spec.compose TO_RADIANS (Layer.center L) (Layer.mirror L) (Layer.rotation L))
  /\ (forall m rm,
        Layer.mask L = Some m -> Layer.renderedMask L = Some rm ->
        Layer.customMask L = false -> (rm < length h)%nat ->
        exists h1,
          Layer.applyTransformations L rm false h = Ok (tt, h1)
          /\ transform (ctx (deref h1 rm))
             = Spec.compose TO_RADIANS (Layer.center L) (Layer.mirror L) (Layer.rotation L)
          /\ Layer.recalculateMask L h
             = (s <~ Dom.read (Layer.source L) ;;
                Dom.drawImage5 rm m (Layer.x (Layer.position L)) (Layer.y (Layer.position L))
                               (Z2f (width s) * Layer.scale L)
                               (Z2f (height s) * Layer.scale L) ;;;
                ret L) h1)
  /\ (exists original h0 h1,
        Dom.cloneCanvas (Layer.source L) h = Ok (original, h0)
        /\ Layer.applyTransformations L original true h0 = Ok (tt, h1)
        /\ transform (ctx (deref h1 original))
           = Spec.compose TO_RADIANS (Layer.center L) (Layer.mirror L) (Layer.rotation L)
        /\ Layer.redraw view L h
           = (Dom.drawImage3 original (Layer.source L) 0 0 ;;;
              when (Layer.tintLayer L) (Layer.applyTint L original) ;;;
              Dom.resetTransform original ;;;
              s <~ Dom.read (Layer.source L) ;;
              forEach [Layer.canvas L; Layer.preview L] (fun cContext =>
                Dom.setGlobalCompositeOperation cContext (Layer.compositeOperation L) ;;;
                Dom.clearRect cContext 0 0 (Z2f (width s)) (Z2f (height s)) ;;;
                Dom.resetTransform cContext) ;;;
              forEach (Layer.redrawMaskIds view L) (fun maskId =>
                match Layer.redrawMaskLayer view L maskId with
                | Some maskLayer => Layer.drawMask L maskLayer
                | None => ret tt
                end) ;;;
              forEach [Layer.canvas L; Layer.preview L] (fun cContext =>
                Dom.translate cContext 0 0 ;;;
                (if Layer.colorLayer L then
                   Layer.assignFillStyle cContext (Layer.color L) ;;;
                   w <~ Layer.width L ;;
                   h <~ Layer.height L ;;
                   Dom.rect cContext 0 0 w h ;;;
                   Dom.fill cContext
                 else
                   Dom.drawImage5 cContext original
                                  (Layer.x (Layer.position L)) (Layer.y (Layer.position L))
                                  (Z2f (width s) * Layer.scale L)
                                  (Z2f (height s) * Layer.scale L) ;;;
                   Layer.applyTransparentPixels L cContext) ;;;
                Dom.resetTransform cContext)) h1)
  /\ (forall context, (Layer.source L < length h)%nat ->
      exists tintCanvas h0 h1,
        (tintCanvas < length h0)%nat
        /\ Layer.applyTransformations L tintCanvas false h0 = Ok (tt, h1)
        /\ transform (ctx (deref h1 tintCanvas))
           = Spec.compose TO_RADIANS (Layer.center L) (Layer.mirror L) (Layer.rotation L)
        /\ Layer.applyTint L context h
           = (Dom.drawImage3 tintCanvas (Layer.source L) 0 0 ;;;
              Dom.setGlobalCompositeOperation tintCanvas source_atop ;;;
              Layer.assignFillStyle tintCanvas (Layer.tintColor L) ;;;
              Dom.fillRect tintCanvas 0 0
                           (Z2f (width (deref h (Layer.source L))))
                           (Z2f (height (deref h (Layer.source L)))) ;;;
              Dom.setGlobalCompositeOperation tintCanvas source_over ;;;
              Dom.setGlobalCompositeOperation context color ;;;
              Dom.drawImage3 context tintCanvas 0 0 ;;;
              Dom.setGlobalCompositeOperation context source_over) h1).
Proof.
  intros Hm. repeat apply conj.
  - intros context alpha_arg Hr.
    destruct (applyTransformations_composed L context alpha_arg h Hm Hr) as (h' & E & _ & T).
    eauto.
  - intros m rm Em Erm Ec Hr.
    destruct (applyTransformations_composed L rm false h Hm Hr) as (h1 & E & _ & T).
    exists h1. repeat split; [exact E | exact T |].
    unfold Layer.recalculateMask. rewrite Em, Erm, Ec.
    now rewrite (bind_Ok _ _ h tt h1 E).
  - set (c0 := mk (width (deref h (Layer.source L))) (height (deref h (Layer.source L)))
                  (pixels (deref h (Layer.source L))) defaultContext).
    assert (Hr : (length h < length (h ++ [c0]))%nat) by (rewrite length_app; simpl; lia).
    destruct (applyTransformations_composed L (length h) true (h ++ [c0]) Hm Hr)
      as (h1 & E & _ & T).
    exists (length h), (h ++ [c0]), h1. repeat split; [exact E | exact T |].
    unfold Layer.redraw, Layer.redrawOriginal.
    unfold bind at 1 2. cbn [Dom.cloneCanvas]. fold c0.
    unfold bind at 1. rewrite E.
    unfold bind.
    destruct (Dom.drawImage3 (length h) (Layer.source L) 0 0 h1) as [[[] h2]|e];
      [|reflexivity].
    destruct (when (Layer.tintLayer L) (Layer.applyTint L (length h)) h2) as [[[] h3]|e];
      [|reflexivity].
    destruct (Dom.resetTransform (length h) h3) as [[[] h4]|e]; reflexivity.
  - intros context Hsrc.
    set (s := deref h (Layer.source L)).
    set (c0 := mk (width s) (height s) (pixels s) defaultContext).
    set (h0 := <[length h := blank (width s) (height s)]> (h ++ [c0])).
    assert (Hr0 : (length h < length (h ++ [c0]))%nat) by (rewrite length_app; simpl; lia).
    assert (Hr : (length h < length h0)%nat).
    { subst h0. now rewrite length_insert. }
    destruct (applyTransformations_composed L (length h) false h0 Hm Hr) as (h1 & E & _ & T).
    exists (length h), h0, h1. repeat split; [exact Hr | exact E | exact T |].
    unfold Layer.applyTint.
    rewrite (bind_Ok _ _ h (length h) (h ++ [c0])) by reflexivity.
    rewrite (bind_Ok _ _ (h ++ [c0]) s (h ++ [c0]))
      by (unfold Dom.read; now rewrite (deref_alloc_old h _ c0 Hsrc)).
    unfold Dom.setWidth, Dom.setHeight.
    rewrite modify_then_modify by exact Hr0.
    rewrite (bind_Ok _ _ (h ++ [c0]) tt h0) by reflexivity.
    now rewrite (bind_Ok _ _ h0 tt h1 E).
Qed.

End Transform.
Lemma transform_is_composed_in_canonical_order_witness :
  exists original h0 h1 h',
    Dom.cloneCanvas (Layer.source Reference.layerB) Reference.heapABC = Ok (original, h0)
    /\ @Layer.applyTransformations (Reference.host Reference.triangle)
         (Layer.set_rotation
            (Layer.set_flipped (Layer.set_mirror Reference.layerB (-1)) true) 90)
         original true h0 = Ok (tt, h1)
    /\ Canvas.transform (Canvas.ctx (Canvas.deref h1 original))
       = [Canvas.Translate 1 0.5; Canvas.Scale (-1) 1;
          Canvas.Rotate (90 * 0x1.1df46a2529d39p-6); Canvas.Translate (-1) (-0.5)]
    /\ @Layer.redraw (Reference.host Reference.triangle) Reference.viewABC
         (Layer.set_rotation
            (Layer.set_flipped (Layer.set_mirror Reference.layerB (-1)) true) 90)
         Reference.heapABC = Ok (tt, h').
Proof.
  destruct (proj1 (proj2 (proj2
             (@transform_is_composed_in_canonical_order
                Reference.viewABC (Reference.host Reference.triangle)
                (Layer.set_rotation
                   (Layer.set_flipped (Layer.set_mirror Reference.layerB (-1)) true) 90)
                Reference.heapABC (or_intror eq_refl)))))
    as (original & h0 & h1 & Ec & Ea & T & _).
  exists original, h0, h1. eexists.
  split; [exact Ec|]. split; [exact Ea|]. split; [exact T|].
  vm_compute. reflexivity.
Defined.

(** ** Mask providers *)
Section Providers.
Variable view : Layer.View.

Lemma find_unique_id (f : Layer.t -> bool) (ls : list Layer.t) (M : Layer.t) :
  NoDup (map Layer.id ls) ->
  (forall l, f l = true -> Layer.id l = Layer.id M) ->
  In M ls -> f M = true -> find f ls = Some M.
Proof.
  intros Hnd Hid. induction ls as [|l ls IH]; intros HM HfM; [contradiction|].
  simpl. inversion Hnd as [|? ? Hnotin Hnd']; subst.
  destruct (f l) eqn:Efl.
  - destruct HM as [-> | HM]; [reflexivity|].
    exfalso. apply Hnotin. rewrite list_elem_of_In, (Hid l Efl).
    apply in_map. exact HM.
  - destruct HM as [-> | HM]; [congruence|]. now apply IH.
Qed.

Lemma getMaskLayer_Some (maskId : string) (M : Layer.t) :
  Layer.getMaskLayer view maskId = Some M ->
  In M (Layer.layers view) /\ Layer.providesMask M = true /\ Layer.id M = maskId.
Proof.
  unfold Layer.getMaskLayer. intros E. apply find_some in E as [HM Hf].
  apply andb_true_iff in Hf as [Hp Hi]. apply String.eqb_eq in Hi. auto.
Qed.

Lemma getMaskLayer_own_id (M : Layer.t) :
  NoDup (map Layer.id (Layer.layers view)) ->
  In M (Layer.layers view) -> Layer.providesMask M = true ->
  Layer.getMaskLayer view (Layer.id M) = Some M.
Proof.
  intros Hnd HM Hp. unfold Layer.getMaskLayer. apply find_unique_id; try assumption.
  - intros l Hl. apply andb_true_iff in Hl as [_ Hi]. now apply String.eqb_eq in Hi.
  - rewrite Hp. simpl. apply String.eqb_refl.
Qed.

(** The mask loop of [redraw] draws the providers, in order, and nothing else. *)
Lemma redraw_mask_loop `{Host} (L : Layer.t) (ids : list string) (h : Canvas.Heap) :
  forEach ids (fun maskId =>
    match Layer.redrawMaskLayer view L maskId with
    | Some maskLayer => Layer.drawMask L maskLayer
    | None => ret tt
    end) h
  = forEach (omap (Layer.redrawMaskLayer view L) ids) (Layer.drawMask L) h.
Proof.
  revert h. induction ids as [|i ids IH]; intros h; [reflexivity|].
  cbn [forEach omap list_omap]. destruct (Layer.redrawMaskLayer view L i) as [ml|].
  - cbn [forEach]. unfold bind. destruct (Layer.drawMask L ml h) as [[[] h']|e]; [apply IH | reflexivity].
  - unfold bind, ret. apply IH.
Qed.

(** The providers in the automatic mode. *)
Lemma higher_mask_layers (L M : Layer.t) :
  Layer.customMaskLayers L = false ->
  NoDup (map Layer.id (Layer.layers view)) ->
  (forall P, In P (Layer.layers view) -> Layer.providesMask P = true ->
             In (Layer.id P) (Layer.maskIds view)) ->
  In M (Layer.redrawProviders view L)
  <-> In M (Layer.layers view) /\ Layer.providesMask M = true
      /\ Layer.isOriginLayerHigher view (Layer.id M) (Layer.id L) = true.
Proof.
  intros Hc Hnd Hreg. unfold Layer.redrawProviders, Layer.redrawMaskIds. rewrite Hc.
  rewrite <- list_elem_of_In, list_elem_of_omap. split.
  - intros (i & _ & E). unfold Layer.redrawMaskLayer in E. rewrite Hc in E.
    destruct (Layer.getMaskLayer view i) as [ml|] eqn:Eg; [|discriminate].
    simpl in E. destruct (Layer.isOriginLayerHigher view i (Layer.id L)) eqn:Eh; [|discriminate].
    injection E as ->. apply getMaskLayer_Some in Eg as (HM & Hp & <-). auto.
  - intros (HM & Hp & Hh). exists (Layer.id M). split.
    + apply list_elem_of_In. now apply Hreg.
    + unfold Layer.redrawMaskLayer. rewrite Hc, (getMaskLayer_own_id M Hnd HM Hp).
      simpl. now rewrite Hh.
Qed.

(** [redraw], with its mask loop run over the providers. *)
Lemma redraw_over_the_providers `{Host} (L : Layer.t) (h : Canvas.Heap) :
  Layer.redraw view L h
  = (original <~ Layer.redrawOriginal L ;;
     s <~ Dom.read (Layer.source L) ;;
     forEach [Layer.canvas L; Layer.preview L] (fun cContext =>
       Dom.setGlobalCompositeOperation cContext (Layer.compositeOperation L) ;;;
       Dom.clearRect cContext 0 0 (Z2f (Canvas.width s)) (Z2f (Canvas.height s)) ;;;
       Dom.resetTransform cContext) ;;;
     forEach (Layer.redrawProviders view L) (fun M =>
       rm <~ match Layer.renderedMask M with
             | Some rm => ret rm
             | None => throw (TypeError "drawImage(null)")
             end ;;
       mw <~ Layer.width M ;;
       mh <~ Layer.height M ;;
       cv <~ Dom.read (Layer.canvas L) ;;
       Dom.drawImage9 (Layer.canvas L) rm 0 0 (Z2f mw) (Z2f mh)
                      0 0 (Z2f (Canvas.width cv)) (Z2f (Canvas.height cv)) ;;;
       Dom.setGlobalCompositeOperation (Layer.canvas L)
                                       (Layer.maskCompositeOperation L)) ;;;
     forEach [Layer.canvas L; Layer.preview L] (fun cContext =>
       Dom.translate cContext 0 0 ;;;
       (if Layer.colorLayer L then
          Layer.assignFillStyle cContext (Layer.color L) ;;;
          w <~ Layer.width L ;;
          h <~ Layer.height L ;;
          Dom.rect cContext 0 0 w h ;;;
          Dom.fill cContext
        else
          Dom.drawImage5 cContext original
                         (Layer.x (Layer.position L)) (Layer.y (Layer.position L))
                         (Z2f (Canvas.width s) * Layer.scale L)
                         (Z2f (Canvas.height s) * Layer.scale L) ;;;
          Layer.applyTransparentPixels L cContext) ;;;
       Dom.resetTransform cContext)) h.
Proof.
  unfold Layer.redraw.
  apply bind_ext_r; intros original h1. apply bind_ext_r; intros s h2.
  apply bind_ext_r; intros [] h3. apply bind_ext_l.
  apply redraw_mask_loop.
Qed.

(** C3. With [customMaskLayers] false, in a stack whose layer ids are
    distinct and whose mask providers are all registered in [view.maskIds]:
    [redraw()] is the script that transforms the source, clears the view
    canvas and the preview, draws onto the view canvas the rendered mask of
    each layer of a list of providers (setting the mask composite operation
    after each), and places the result; and the layers of that list are
    exactly the mask-providing layers [M] of the stack with
    [isOriginLayerHigher(M.id, L.id)]. *)
Theorem redraw_providers_are_the_higher_mask_layers `{Host} (L : Layer.t) :
  Layer.customMaskLayers L = false ->
  NoDup (map Layer.id (Layer.layers view)) ->
  (forall P, In P (Layer.layers view) -> Layer.providesMask P = true ->
             In (Layer.id P) (Layer.maskIds view)) ->
  exists providers : list Layer.t,
    (forall M, In M providers
               <-> In M (Layer.layers view) /\ Layer.providesMask M = true
                   /\ Layer.isOriginLayerHigher view (Layer.id M) (Layer.id L) = true)
    /\ forall h,
         Layer.redraw view L h
         = (original <~ Layer.redrawOriginal L ;;
            s <~ Dom.read (Layer.source L) ;;
            forEach [Layer.canvas L; Layer.preview L] (fun cContext =>
              Dom.setGlobalCompositeOperation cContext (Layer.compositeOperation L) ;;;
              Dom.clearRect cContext 0 0 (Z2f (Canvas.width s)) (Z2f (Canvas.height s)) ;;;
              Dom.resetTransform cContext) ;;;
            forEach providers (fun M =>
              rm <~ match Layer.renderedMask M with
                    | Some rm => ret rm
                    | None => throw (TypeError "drawImage(null)")
                    end ;;
              mw <~ Layer.width M ;;
              mh <~ Layer.height M ;;
              cv <~ Dom.read (Layer.canvas L) ;;
              Dom.drawImage9 (Layer.canvas L) rm 0 0 (Z2f mw) (Z2f mh)
                             0 0 (Z2f (Canvas.width cv)) (Z2f (Canvas.height cv)) ;;;
              Dom.setGlobalCompositeOperation (Layer.canvas L)
                                              (Layer.maskCompositeOperation L)) ;;;
            forEach [Layer.canvas L; Layer.preview L] (fun cContext =>
              Dom.translate cContext 0 0 ;;;
              (if Layer.colorLayer L then
                 Layer.assignFillStyle cContext (Layer.color L) ;;;
                 w <~ Layer.width L ;;
                 h <~ Layer.height L ;;
                 Dom.rect cContext 0 0 w h ;;;
                 Dom.fill cContext
               else
                 Dom.drawImage5 cContext original
                                (Layer.x (Layer.position L)) (Layer.y (Layer.position L))
                                (Z2f (Canvas.width s) * Layer.scale L)
                                (Z2f (Canvas.height s) * Layer.scale L) ;;;
                 Layer.applyTransparentPixels L cContext) ;;;
              Dom.resetTransform cContext)) h.
Proof.
  intros Hc Hnd Hreg. exists (Layer.redrawProviders view L). split.
  - intros M. now apply higher_mask_layers.
  - intros h. apply redraw_over_the_providers.
Qed.

End Providers.

Lemma redraw_providers_are_the_higher_mask_layers_witness :
  exists providers : list Layer.t,
    In Reference.layerC providers
    /\ ~ In Reference.layerA providers
    /\ ~ In Reference.layerB providers
    /\ forall h,
         @Layer.redraw (Reference.host Reference.triangle) Reference.viewABC
            Reference.layerB h
         = (original <~ @Layer.redrawOriginal (Reference.host Reference.triangle) Reference.layerB ;;
            s <~ Dom.read (Layer.source Reference.layerB) ;;
            forEach [Layer.canvas Reference.layerB; Layer.preview Reference.layerB] (fun cContext =>
              Dom.setGlobalCompositeOperation cContext (Layer.compositeOperation Reference.layerB) ;;;
              @Dom.clearRect (Reference.host Reference.triangle) cContext 0 0 (Z2f (Canvas.width s)) (Z2f (Canvas.height s)) ;;;
              Dom.resetTransform cContext) ;;;
            forEach providers (fun M =>
              rm <~ match Layer.renderedMask M with
                    | Some rm => ret rm
                    | None => throw (TypeError "drawImage(null)")
                    end ;;
              mw <~ Layer.width M ;;
              mh <~ Layer.height M ;;
              cv <~ Dom.read (Layer.canvas Reference.layerB) ;;
              @Dom.drawImage9 (Reference.host Reference.triangle) (Layer.canvas Reference.layerB) rm 0 0 (Z2f mw) (Z2f mh)
                             0 0 (Z2f (Canvas.width cv)) (Z2f (Canvas.height cv)) ;;;
              Dom.setGlobalCompositeOperation (Layer.canvas Reference.layerB)
                                              (Layer.maskCompositeOperation Reference.layerB)) ;;;
            forEach [Layer.canvas Reference.layerB; Layer.preview Reference.layerB] (fun cContext =>
              Dom.translate cContext 0 0 ;;;
              (if Layer.colorLayer Reference.layerB then
                 Layer.assignFillStyle cContext (Layer.color Reference.layerB) ;;;
                 w <~ Layer.width Reference.layerB ;;
                 h <~ Layer.height Reference.layerB ;;
                 Dom.rect cContext 0 0 w h ;;;
                 @Dom.fill (Reference.host Reference.triangle) cContext
               else
                 @Dom.drawImage5 (Reference.host Reference.triangle) cContext original
                                (Layer.x (Layer.position Reference.layerB)) (Layer.y (Layer.position Reference.layerB))
                                (Z2f (Canvas.width s) * Layer.scale Reference.layerB)
                                (Z2f (Canvas.height s) * Layer.scale Reference.layerB) ;;;
                 @Layer.applyTransparentPixels (Reference.host Reference.triangle) Reference.layerB cContext) ;;;
              Dom.resetTransform cContext)) h.
Proof.
  destruct (@redraw_providers_are_the_higher_mask_layers Reference.viewABC
              (Reference.host Reference.triangle) Reference.layerB) as (ps & Hin & Heq).
  - reflexivity.
  - simpl. repeat constructor; rewrite ?list_elem_of_In; simpl; intuition discriminate.
  - intros P [<- | [<- | [<- | []]]]; simpl; intros HP; try discriminate; auto.
  - exists ps. split; [|split; [|split]].
    + apply Hin. split; [right; right; left; reflexivity|]. split; reflexivity.
    + intros HA. apply Hin in HA as (_ & _ & HA). discriminate HA.
    + intros HB. apply Hin in HB as (_ & HB & _). discriminate HB.
    + exact Heq.
Defined.

(** ** Custom masks *)
(** For a goal [m h = Ok r -> P]: runs the script [m] down to its last step,
    naming the result of each intermediate step, and identifies [r]. *)
Ltac run_script :=
  unfold bind, ret, throw;
  repeat match goal with
         | |- match ?s with Ok _ => _ | Throw _ => _ end = Ok _ -> _ =>
             destruct s as [[? ?]|?]; [|discriminate]
         end;
  let E := fresh "E" in
  intros E; injection E; intros; subst.

Section CustomMask.
Context `{Host}.
Variable view : Layer.View.

Lemma call_keeps_mask_state (c : Layer.Call) (L L' : Layer.t) (h h' : Canvas.Heap) :
  Layer.call view c L h = Ok (L', h') -> Laws.sameMaskState L L'.
Proof.
  unfold Laws.sameMaskState.
  destruct c; cbn [Layer.call];
    unfold Layer.translate, Layer.setScale, Layer.rotate, Layer.flip, Layer.activate,
      Layer.deactivate, Layer.saveColor, Layer.restoreColor, Layer.saveAlphas,
      Layer.restoreAlphas, Layer.addTransparentColour, Layer.setColor;
    try (run_script; repeat split; reflexivity).
  - (* setColor *)
    destruct (negb (Layer.colorLayer L)); run_script; repeat split; reflexivity.
  - (* restoreColor *)
    destruct (negb (Layer.colorLayer L)); run_script; repeat split; reflexivity.
  - (* recalculateMask *)
    unfold Layer.recalculateMask.
    destruct (Layer.mask L) eqn:Em, (Layer.renderedMask L) eqn:Er,
      (Layer.customMask L) eqn:Ec; run_script; repeat split; congruence.
Qed.

Lemma calls_keep_mask_state (cs : list Layer.Call) (L L' : Layer.t) (h h' : Canvas.Heap) :
  Layer.calls view cs L h = Ok (L', h') -> Laws.sameMaskState L L'.
Proof.
  revert L h. induction cs as [|c cs IH]; intros L h; cbn [Layer.calls].
  - run_script. unfold Laws.sameMaskState. repeat split; reflexivity.
  - unfold bind. destruct (Layer.call view c L h) as [[L1 h1]|e] eqn:E1; [|discriminate].
    intros E. apply call_keeps_mask_state in E1 as (A1 & A2 & A3).
    apply IH in E as (B1 & B2 & B3).
    unfold Laws.sameMaskState. repeat split; congruence.
Qed.

Lemma applyCustomMask_sets_flag (L L1 : Layer.t) (mask : Canvas.Ref)
      (callback : bool -> M unit) (h h1 : Canvas.Heap) :
  Layer.applyCustomMask L mask callback h = Ok (L1, h1) ->
  Layer.customMask L1 = true /\ Layer.mask L1 = Some mask
  /\ Layer.renderedMask L1 = Layer.renderedMask L.
Proof.
  unfold Layer.applyCustomMask. run_script. repeat split; reflexivity.
Qed.

Lemma recalculateMask_custom (L : Layer.t) (h : Canvas.Heap) :
  Layer.customMask L = true -> Layer.recalculateMask L h = Ok (L, h).
Proof.
  intros Ec. unfold Layer.recalculateMask. rewrite Ec.
  destruct (Layer.mask L), (Layer.renderedMask L); reflexivity.
Qed.

Lemma resetMasks_clears_flag (L L' : Layer.t) (h h' : Canvas.Heap) :
  Layer.resetMasks view L h = Ok (L', h') -> Layer.customMask L' = false.
Proof.
  unfold Layer.resetMasks. run_script. reflexivity.
Qed.

(** C7. Once [applyCustomMask] has installed a mask, and after any further
    calls other than [reset] and [resetMasks], the layer still has
    [customMask] set and holds the same mask and rendered-mask canvases,
    and [recalculateMask()] returns with the layer and every canvas exactly
    as they were; [resetMasks()] is what clears the flag. *)
Theorem recalculateMask_keeps_a_custom_mask
    (L L1 L2 : Layer.t) (mask : Canvas.Ref) (callback : bool -> M unit)
    (cs : list Layer.Call) (h h1 h2 : Canvas.Heap) :
  Layer.applyCustomMask L mask callback h = Ok (L1, h1) ->
  Layer.calls view cs L1 h1 = Ok (L2, h2) ->
  Layer.customMask L2 = true
  /\ Layer.mask L2 = Some mask
  /\ Layer.renderedMask L2 = Layer.renderedMask L
  /\ Layer.recalculateMask L2 h2 = Ok (L2, h2)
  /\ (forall L3 h3, Layer.resetMasks view L2 h2 = Ok (L3, h3) -> Layer.customMask L3 = false).
Proof.
  intros E1 E2.
  apply applyCustomMask_sets_flag in E1 as (A1 & A2 & A3).
  apply calls_keep_mask_state in E2 as (B1 & B2 & B3).
  assert (Ec : Layer.customMask L2 = true) by congruence.
  repeat split; try congruence.
  - now apply recalculateMask_custom.
  - intros L3 h3. apply resetMasks_clears_flag.
Qed.

End CustomMask.

Lemma recalculateMask_keeps_a_custom_mask_witness :
  exists L2 h2,
    Layer.customMask L2 = true
    /\ Layer.mask L2 = Some 0%nat
    /\ Layer.renderedMask L2 = Some 4%nat
    /\ @Layer.recalculateMask (Reference.host Reference.triangle) L2 h2 = Ok (L2, h2)
    /\ (forall L3 h3,
          @Layer.resetMasks (Reference.host Reference.triangle) Reference.viewABC L2 h2
          = Ok (L3, h3) -> Layer.customMask L3 = false).
Proof.
  do 2 eexists.
  eapply (@recalculateMask_keeps_a_custom_mask (Reference.host Reference.triangle)
            Reference.viewABC (Reference.layer "L" 1 2 3 (Some 4%nat) false) _ _
            0%nat (fun _ => ret tt)
            [Layer.CallRotate 45; Layer.CallTranslate 1 2; Layer.CallRecalculateMask]
            [Reference.opaqueMask; Reference.halfOpaque; Reference.halfOpaque;
             Reference.halfOpaque; Canvas.blank 2 1]).
  - reflexivity.
  - reflexivity.
Defined.

(** ** Scanning alphas *)
Section Scans.
Context `{Host}.
Import Canvas.

Lemma lookup_group_shift (r g b a : Z) (rest : list Z) (k : nat) :
  (r :: g :: b :: a :: rest) !! (4 * S k + 3)%nat = rest !! (4 * k + 3)%nat.
Proof. replace (4 * S k + 3)%nat with (S (S (S (S (4 * k + 3))))) by lia. reflexivity. Qed.

Lemma scanTransparent_true (l : list Z) :
  Layer.scanTransparent l = true
  <-> forall k a, l !! (4 * k + 3)%nat = Some a -> a <= TRANSPARENCY_THRESHOLD.
Proof.
  induction l as [|p1|p1 p2|p1 p2 p3|r g b a rest IH] using list_ind4;
    try (split; [intros _ k a' E; rewrite lookup_ge_None_2 in E by (simpl; lia);
                 discriminate | reflexivity]).
  change (Layer.scanTransparent (r :: g :: b :: a :: rest))
    with (if a >? TRANSPARENCY_THRESHOLD then false else Layer.scanTransparent rest).
  destruct (Z.gtb_spec a TRANSPARENCY_THRESHOLD) as [Hgt | Hle]; split.
  - discriminate.
  - intros Hall. specialize (Hall 0%nat a eq_refl). lia.
  - intros Hs [|k] a' E.
    + injection E as <-. exact Hle.
    + rewrite lookup_group_shift in E. apply IH in E; assumption.
  - intros Hall. apply IH. intros k a' E. apply (Hall (S k)).
    now rewrite lookup_group_shift.
Qed.

Lemma scanOpaque_true (l : list Z) :
  Layer.scanOpaque l = true
  <-> forall k a, l !! (4 * k + 3)%nat = Some a -> TRANSPARENCY_THRESHOLD <= a.
Proof.
  induction l as [|p1|p1 p2|p1 p2 p3|r g b a rest IH] using list_ind4;
    try (split; [intros _ k a' E; rewrite lookup_ge_None_2 in E by (simpl; lia);
                 discriminate | reflexivity]).
  change (Layer.scanOpaque (r :: g :: b :: a :: rest))
    with (if a <? TRANSPARENCY_THRESHOLD then false else Layer.scanOpaque rest).
  destruct (Z.ltb_spec a TRANSPARENCY_THRESHOLD) as [Hlt | Hge]; split.
  - discriminate.
  - intros Hall. specialize (Hall 0%nat a eq_refl). lia.
  - intros Hs [|k] a' E.
    + injection E as <-. exact Hge.
    + rewrite lookup_group_shift in E. apply IH in E; assumption.
  - intros Hall. apply IH. intros k a' E. apply (Hall (S k)).
    now rewrite lookup_group_shift.
Qed.

Lemma alphaAt_lookup (c : t) (x y : Z) :
  0 <= x < width c -> 0 <= y < height c ->
  alphaAt c x y = pixels c !! (4 * Z.to_nat (y * width c + x) + 3)%nat.
Proof.
  intros Hx Hy. unfold alphaAt. rewrite pixelAt_in_range by assumption.
  rewrite lookup_take by lia. rewrite lookup_drop. f_equal. nia.
Qed.

(** A property of every pixel's alpha is a property of every fourth byte. *)
Lemma allAlpha_bytes (P : Z -> Prop) (c : t) :
  wf c -> allAlpha P c ->
  forall k a, pixels c !! (4 * k + 3)%nat = Some a -> P a.
Proof.
  intros (Hw & Hh & Hlen) Hall k a E.
  assert (Hk : (4 * k + 3 < length (pixels c))%nat) by (apply lookup_lt_is_Some; eauto).
  rewrite Hlen in Hk.
  assert (Hpos : 0 < width c) by nia.
  assert (HkZ : Z.of_nat k < width c * height c) by nia.
  apply (Hall (Z.of_nat k mod width c) (Z.of_nat k / width c) a).
  - apply Z.mod_pos_bound. exact Hpos.
  - split; [apply Z.div_pos; lia|]. apply Z.div_lt_upper_bound; [exact Hpos | nia].
  - rewrite alphaAt_lookup.
    + rewrite <- E. f_equal.
      rewrite (Z.mul_comm (Z.of_nat k / width c)), <- Z.div_mod by lia. lia.
    + apply Z.mod_pos_bound. exact Hpos.
    + split; [apply Z.div_pos; lia|]. apply Z.div_lt_upper_bound; [exact Hpos | nia].
Qed.

Lemma someAlpha_bytes (P : Z -> Prop) (c : t) :
  someAlpha P c -> exists k a, pixels c !! (4 * k + 3)%nat = Some a /\ P a.
Proof.
  intros (x & y & a & Hx & Hy & E & HP).
  exists (Z.to_nat (y * width c + x)), a. split; [|exact HP].
  now rewrite <- alphaAt_lookup.
Qed.

Lemma scanTransparent_all_low (c : t) :
  wf c -> allAlpha (fun a => a <= TRANSPARENCY_THRESHOLD) c ->
  Layer.scanTransparent (pixels c) = true.
Proof.
  intros Hwf Hall. apply scanTransparent_true. now apply allAlpha_bytes.
Qed.

Lemma scanTransparent_some_high (c : t) :
  someAlpha (fun a => TRANSPARENCY_THRESHOLD < a) c ->
  Layer.scanTransparent (pixels c) = false.
Proof.
  intros Hsome. destruct (someAlpha_bytes _ c Hsome) as (k & a & E & Ha).
  destruct (Layer.scanTransparent (pixels c)) eqn:Es; [|reflexivity].
  rewrite scanTransparent_true in Es. specialize (Es k a E). lia.
Qed.

Lemma scanOpaque_all_high (c : t) :
  wf c -> allAlpha (fun a => TRANSPARENCY_THRESHOLD <= a) c ->
  Layer.scanOpaque (pixels c) = true.
Proof.
  intros Hwf Hall. apply scanOpaque_true. now apply allAlpha_bytes.
Qed.


End Scans.

(** ** Mask creation *)
Section MaskCreation.
Context `{Host}.
Import Canvas.

Lemma deref_source_after_temp (L : Layer.t) (h : Heap) (c0 c1 : Canvas.t) :
  (Layer.source L < length h)%nat ->
  deref (<[length h := c1]> (h ++ [c0])) (Layer.source L) = deref h (Layer.source L).
Proof.
  intros Hsrc. rewrite deref_insert_ne by lia. now apply deref_alloc_old.
Qed.

Lemma createOriginalMask_prefix (L : Layer.t) (h : Heap) :
  (Layer.canvas L < length h)%nat ->
  exists T,
    Laws.readyToFill T
    /\ Layer.createOriginalMask L h
       = ((transparent <~ Layer.isCompletelyTransparent L ;;
           (if transparent then
              Dom.clearRect (length h) 0 0 (Z2f (MASK_DENSITY + 2)) (Z2f (MASK_DENSITY + 2))
            else
              opaque <~ Layer.isCompletelyOpaque L ;;
              if opaque then
                Dom.clearRect (length h) 0 0 (Z2f (MASK_DENSITY + 2)) (Z2f (MASK_DENSITY + 2)) ;;;
                Dom.fillRect (length h) 0 0 (Z2f (MASK_DENSITY + 2)) (Z2f (MASK_DENSITY + 2)) ;;;
                Dom.fill (length h)
              else
                Dom.clearRect (length h) 0 0 (Z2f (MASK_DENSITY + 2)) (Z2f (MASK_DENSITY + 2)) ;;;
                Layer.drawContour (length h) (Layer.tracedPoints L h)) ;;;
           s <~ Dom.read (Layer.source L) ;;
           rm <~ Dom.createElement (width s) (height s) ;;
           Dom.drawImage9 rm (length h) 1 1 (Z2f MASK_DENSITY) (Z2f MASK_DENSITY)
                          0 0 (Z2f (width s)) (Z2f (height s)) ;;;
           ret (Layer.set_renderedMask L (Some rm)))
          (<[length h := T]> (h ++ [blank (MASK_DENSITY + 2) (MASK_DENSITY + 2)]))).
Proof.
  intros Hcv.
  set (T0 := blank (MASK_DENSITY + 2) (MASK_DENSITY + 2)).
  assert (Hlive : (length h < length (h ++ [T0]))%nat) by (rewrite length_app; simpl; lia).
  unfold Layer.createOriginalMask.
  cbn [bind Dom.createElement Dom.read Dom.modify Dom.drawImage9 ret]. fold T0.
  rewrite (deref_alloc_new h T0), (deref_alloc_old h _ T0 Hcv).
  rewrite deref_insert_eq by exact Hlive.
  unfold Layer.tracedPoints, Layer.maskGrid. fold T0.
  set (T1 := set_pixels T0 _).
  set (grid := getImageData T1 0 0 _ _).
  assert (Hready : forall c : Canvas.t,
    width c = MASK_DENSITY + 2 -> height c = MASK_DENSITY + 2 ->
    transform (ctx c) = [] -> globalAlpha (ctx c) = 1%float ->
    globalCompositeOperation (ctx c) = source_over -> path (ctx c) = [] ->
    forall k : float -> float -> M Layer.t,
    exists T, Laws.readyToFill T /\
      (Dom.setStrokeStyle (length h) "#000000AA" ;;;
       Dom.setLineWidth (length h) 1 ;;;
       Dom.setFillStyle (length h) "black" ;;;
       tw <~ (c <~ Dom.read (length h) ;; ret (Z2f (width c))) ;;
       th <~ (c <~ Dom.read (length h) ;; ret (Z2f (height c))) ;;
       k tw th) (<[length h := c]> (h ++ [T0]))
      = k (Z2f (MASK_DENSITY + 2)) (Z2f (MASK_DENSITY + 2))
          (<[length h := T]> (h ++ [T0]))).
  { intros c Hw Hh Ht Ha Hg Hp k.
    unfold Dom.setFillStyle, Dom.setStrokeStyle, Dom.setLineWidth, Dom.modifyCtx.
    rewrite !modify_then_modify by (rewrite length_insert; exact Hlive).
    rewrite (bind_Ok _ _ _ tt _ (modify_eq _ _ _)).
    rewrite deref_insert_eq by exact Hlive. rewrite list_insert_insert_eq.
    cbn [bind Dom.read ret]. rewrite deref_insert_eq by exact Hlive.
    cbn [width height set_ctx]. rewrite Hw, Hh.
    eexists. split; [|reflexivity].
    repeat split; cbn; assumption || reflexivity. }
  unfold when, Dom.setFillStyle at 1, Dom.modifyCtx at 1.
  destruct (negb (default_color =? "")%string).
  - rewrite (bind_Ok _ _ _ tt _ (modify_eq _ _ _)).
    rewrite deref_insert_eq by exact Hlive. rewrite list_insert_insert_eq.
    apply Hready; reflexivity.
  - rewrite (bind_Ok _ _ _ tt _ eq_refl).
    apply Hready; reflexivity.
Qed.

Lemma bind_bind {A B C} (m : M A) (f : A -> M B) (g : B -> M C) (h : Heap) :
  bind (bind m f) g h = bind m (fun a => bind (f a) g) h.
Proof. unfold bind. destruct (m h) as [[a h']|e]; reflexivity. Qed.

Lemma temp_live (h : Heap) (c : Canvas.t) : (length h < length (h ++ [c]))%nat.
Proof. rewrite length_app. simpl. lia. Qed.

Section Run.
Variables (L : Layer.t) (h : Heap) (T : Canvas.t).
Hypothesis source_live : (Layer.source L < length h)%nat.
Hypothesis source_wf : wf (deref h (Layer.source L)).

Let T0 := blank (MASK_DENSITY + 2) (MASK_DENSITY + 2).


Lemma isCompletelyTransparent_run :
  Layer.isCompletelyTransparent L (<[length h := T]> (h ++ [T0]))
  = Ok (Layer.scanTransparent (pixels (deref h (Layer.source L))),
        <[length h := T]> (h ++ [T0])).
Proof.
  unfold Layer.isCompletelyTransparent. cbn [bind Dom.read ret].
  rewrite (deref_source_after_temp L h T0 T source_live).
  now rewrite (getImageData_whole _ source_wf).
Qed.

Lemma isCompletelyOpaque_run :
  Layer.isCompletelyOpaque L (<[length h := T]> (h ++ [T0]))
  = Ok (Layer.scanOpaque (pixels (deref h (Layer.source L))),
        <[length h := T]> (h ++ [T0])).
Proof.
  unfold Layer.isCompletelyOpaque. cbn [bind Dom.read ret].
  rewrite (deref_source_after_temp L h T0 T source_live).
  now rewrite (getImageData_whole _ source_wf).
Qed.

(** The last steps of [createOriginalMask]: the intermediate canvas is
    scaled onto a new canvas of the size of the source, which becomes the
    rendered mask. *)
Lemma createOriginalMask_tail :
  (s <~ Dom.read (Layer.source L) ;;
   rm <~ Dom.createElement (width s) (height s) ;;
   Dom.drawImage9 rm (length h) 1 1 (Z2f MASK_DENSITY) (Z2f MASK_DENSITY)
                  0 0 (Z2f (width s)) (Z2f (height s)) ;;;
   ret (Layer.set_renderedMask L (Some rm))) (<[length h := T]> (h ++ [T0]))
  = let s := deref h (Layer.source L) in
    let B := blank (width s) (height s) in
    Ok (Layer.set_renderedMask L (Some (S (length h))),
        <[S (length h) := set_pixels B
                      (render_drawImage B T 1 1 (Z2f MASK_DENSITY) (Z2f MASK_DENSITY)
                                        0 0 (Z2f (width s)) (Z2f (height s)))]>
          (<[length h := T]> (h ++ [T0]) ++ [B])).
Proof.
  assert (Hlen : length (<[length h := T]> (h ++ [T0])) = S (length h)).
  { rewrite length_insert, length_app. simpl. lia. }
  assert (Htemp : deref (<[length h := T]> (h ++ [T0])) (length h) = T).
  { apply deref_insert_eq, temp_live. }
  pose proof (deref_source_after_temp L h T0 T source_live) as Hsrc.
  set (hh := <[length h := T]> (h ++ [T0])) in *.
  cbn [bind Dom.read Dom.createElement Dom.drawImage9 Dom.modify ret].
  rewrite Hsrc, deref_alloc_new.
  rewrite deref_alloc_old by (rewrite Hlen; lia).
  rewrite Htemp, Hlen. reflexivity.
Qed.

End Run.

(** *** The fast paths *)
Section FastPaths.
Hypothesis density_positive : 0 < MASK_DENSITY.
Hypothesis clearRect_law : Laws.clearRect_whole.
Hypothesis fillRect_law : Laws.fillRect_whole_black.
Hypothesis fill_law : Laws.fill_empty_path.
Hypothesis drawImage_law : Laws.drawImage_uniform.

Variables (L : Layer.t) (h : Heap).
Hypothesis canvas_live : (Layer.canvas L < length h)%nat.
Hypothesis source_live : (Layer.source L < length h)%nat.
Hypothesis source_wf : wf (deref h (Layer.source L)).

Let T0 := blank (MASK_DENSITY + 2) (MASK_DENSITY + 2).
Let side := Z.to_nat ((MASK_DENSITY + 2) * (MASK_DENSITY + 2)).

Lemma clearRect_run (T : Canvas.t) :
  Laws.readyToFill T ->
  Dom.clearRect (length h) 0 0 (Z2f (MASK_DENSITY + 2)) (Z2f (MASK_DENSITY + 2))
                (<[length h := T]> (h ++ [T0]))
  = Ok (tt, <[length h := set_pixels T (uniform Laws.transparentBlack side)]> (h ++ [T0])).
Proof.
  intros (Hw & Hh & Ht & _). unfold Dom.clearRect. rewrite modify_eq.
  rewrite deref_insert_eq by apply temp_live. rewrite list_insert_insert_eq.
  pose proof (clearRect_law T Ht) as E. rewrite Hw, Hh in E. now rewrite E.
Qed.

Lemma fillRect_run (T : Canvas.t) :
  Laws.readyToFill T ->
  Dom.fillRect (length h) 0 0 (Z2f (MASK_DENSITY + 2)) (Z2f (MASK_DENSITY + 2))
               (<[length h := T]> (h ++ [T0]))
  = Ok (tt, <[length h := set_pixels T (uniform Laws.opaqueBlack side)]> (h ++ [T0])).
Proof.
  intros (Hw & Hh & Ht & Ha & Hg & Hf & _). unfold Dom.fillRect. rewrite modify_eq.
  rewrite deref_insert_eq by apply temp_live. rewrite list_insert_insert_eq.
  pose proof (fillRect_law T Ht Ha Hg Hf) as E. rewrite Hw, Hh in E. now rewrite E.
Qed.

Lemma fill_run (T : Canvas.t) :
  Laws.readyToFill T ->
  Dom.fill (length h) (<[length h := T]> (h ++ [T0]))
  = Ok (tt, <[length h := T]> (h ++ [T0])).
Proof.
  intros (_ & _ & _ & _ & _ & _ & Hp). unfold Dom.fill. rewrite modify_eq.
  rewrite deref_insert_eq by apply temp_live. rewrite list_insert_insert_eq.
  rewrite (fill_law T Hp). now destruct T.
Qed.

Lemma readyToFill_set_pixels (T : Canvas.t) (p : list Z) :
  Laws.readyToFill T -> Laws.readyToFill (set_pixels T p).
Proof. intros R. exact R. Qed.

(** Scaling the uniformly filled intermediate canvas gives a uniform mask
    of the size of the source. *)
Lemma uniform_mask (T : Canvas.t) (p : list Z) :
  Laws.readyToFill T -> p = Laws.transparentBlack \/ p = Laws.opaqueBlack ->
  (s <~ Dom.read (Layer.source L) ;;
   rm <~ Dom.createElement (width s) (height s) ;;
   Dom.drawImage9 rm (length h) 1 1 (Z2f MASK_DENSITY) (Z2f MASK_DENSITY)
                  0 0 (Z2f (width s)) (Z2f (height s)) ;;;
   ret (Layer.set_renderedMask L (Some rm)))
    (<[length h := set_pixels T (uniform p side)]> (h ++ [T0]))
  = let s := deref h (Layer.source L) in
    Ok (Layer.set_renderedMask L (Some (S (length h))),
        <[S (length h) := set_pixels (blank (width s) (height s))
                            (uniform p (Z.to_nat (width s * height s)))]>
          (<[length h := set_pixels T (uniform p side)]> (h ++ [T0])
           ++ [blank (width s) (height s)])).
Proof.
  intros (Hw & Hh & _) Hp.
  rewrite (createOriginalMask_tail L h _ source_live). cbv zeta.
  destruct source_wf as (Hsw & Hsh & _).
  pose proof (drawImage_law
                (blank (width (deref h (Layer.source L))) (height (deref h (Layer.source L))))
                (set_pixels T (uniform p side)) 1 1 MASK_DENSITY MASK_DENSITY p) as E.
  cbn [width height pixels ctx blank set_pixels] in E.
  rewrite Hw, Hh in E. change (Z2f 1) with 1%float in E.
  rewrite E; try reflexivity; try assumption; try lia.
Qed.

(** Where the run ends when the intermediate canvas is uniformly [p]. *)
Lemma maskFilledWith_uniform (T : Canvas.t) (p : list Z) :
  p = Laws.transparentBlack \/ p = Laws.opaqueBlack ->
  Layer.createOriginalMask L h
  = Ok (Layer.set_renderedMask L (Some (S (length h))),
        <[S (length h) := set_pixels (blank (width (deref h (Layer.source L)))
                                            (height (deref h (Layer.source L))))
                            (uniform p (Z.to_nat (width (deref h (Layer.source L))
                                                  * height (deref h (Layer.source L)))))]>
          (<[length h := set_pixels T (uniform p side)]> (h ++ [T0])
           ++ [blank (width (deref h (Layer.source L)))
                     (height (deref h (Layer.source L)))])) ->
  Laws.maskFilledWith p L h.
Proof.
  intros Hp E. destruct source_wf as (Hsw & Hsh & _).
  assert (Hlen4 : length p = 4%nat) by (destruct Hp as [-> | ->]; reflexivity).
  eexists _, _, (S (length h)). split; [exact E|]. split; [reflexivity|].
  rewrite deref_insert_eq
    by (rewrite length_app, length_insert, length_app; simpl; lia).
  set (m := set_pixels _ _).
  assert (Hall : allPixels p m).
  { intros x y Hx Hy. apply pixelAt_uniform; try assumption. reflexivity. }
  split; [reflexivity|]. split; [reflexivity|].
  split; [apply uniform_wf; assumption|].
  split; [exact Hall|].
  intros x y a Hx Hy Ea. unfold alphaAt in Ea. rewrite (Hall x y Hx Hy) in Ea.
  exact Ea.
Qed.

Lemma createOriginalMask_transparent_path :
  allAlpha (fun a => a <= TRANSPARENCY_THRESHOLD) (deref h (Layer.source L)) ->
  Laws.maskFilledWith Laws.transparentBlack L h.
Proof.
  destruct (createOriginalMask_prefix L h canvas_live) as (T & R & E).
  fold T0 in E. intros Hlow.
  apply (maskFilledWith_uniform T Laws.transparentBlack); [now left|].
  rewrite E.
  rewrite (bind_Ok _ _ _ _ _ (isCompletelyTransparent_run L h T source_live source_wf)).
  rewrite (scanTransparent_all_low _ source_wf Hlow).
  rewrite (bind_Ok _ _ _ _ _ (clearRect_run T R)).
  apply (uniform_mask T Laws.transparentBlack R). now left.
Qed.

Lemma createOriginalMask_opaque_path :
  allAlpha (fun a => TRANSPARENCY_THRESHOLD <= a) (deref h (Layer.source L)) ->
  someAlpha (fun a => TRANSPARENCY_THRESHOLD < a) (deref h (Layer.source L)) ->
  Laws.maskFilledWith Laws.opaqueBlack L h.
Proof.
  destruct (createOriginalMask_prefix L h canvas_live) as (T & R & E).
  fold T0 in E. intros Hhigh Hsome.
  apply (maskFilledWith_uniform
           (set_pixels T (uniform Laws.transparentBlack side)) Laws.opaqueBlack);
    [now right|].
  rewrite E.
  rewrite (bind_Ok _ _ _ _ _ (isCompletelyTransparent_run L h T source_live source_wf)).
  rewrite (scanTransparent_some_high _ Hsome). cbv iota.
  rewrite bind_bind.
  rewrite (bind_Ok _ _ _ _ _ (isCompletelyOpaque_run L h T source_live source_wf)).
  rewrite (scanOpaque_all_high _ source_wf Hhigh). cbv iota.
  rewrite bind_bind.
  rewrite (bind_Ok _ _ _ _ _ (clearRect_run T R)). rewrite bind_bind.
  rewrite (bind_Ok _ _ _ _ _
             (fillRect_run _ (readyToFill_set_pixels T _ R))).
  rewrite (bind_Ok _ _ _ _ _
             (fill_run _ (readyToFill_set_pixels _ _ (readyToFill_set_pixels T _ R)))).
  apply (uniform_mask _ Laws.opaqueBlack (readyToFill_set_pixels T _ R)). now right.
Qed.

(** C8 (as the code has it). On a host whose whole-surface clear, fill and
    scaling behave as a canvas does, and for a live, well-formed source,
    the source and the view canvas having pixels (a positive width and
    height): if every alpha of the source is at or below the threshold, mask
    creation completes with a rendered mask of the size of the source
    whose every pixel is transparent (alpha 0); if every alpha is at or
    above the threshold and some alpha is strictly above it, the rendered
    mask has the size of the source and every pixel is opaque black
    (alpha 255). *)
Theorem createOriginalMask_fast_paths :
  positiveSize (deref h (Layer.canvas L)) ->
  positiveSize (deref h (Layer.source L)) ->
  (allAlpha (fun a => a <= TRANSPARENCY_THRESHOLD) (deref h (Layer.source L)) ->
   Laws.maskFilledWith Laws.transparentBlack L h)
  /\ (allAlpha (fun a => TRANSPARENCY_THRESHOLD <= a) (deref h (Layer.source L)) ->
      someAlpha (fun a => TRANSPARENCY_THRESHOLD < a) (deref h (Layer.source L)) ->
      Laws.maskFilledWith Laws.opaqueBlack L h).
Proof.
  intros _ _.
  split; [exact createOriginalMask_transparent_path | exact createOriginalMask_opaque_path].
Qed.

End FastPaths.
End MaskCreation.

(** ** The contour branch of mask creation *)
Section ContourBranch.
Context `{Host}.
Import Canvas.

Lemma lineTo_loop (temp : Ref) (rest : list (list Z)) (hh : Heap) (c : Canvas.t) :
  (temp < length hh)%nat ->
  forEach rest (fun point => Dom.lineTo temp (get point 0) (get point 1)) (<[temp := c]> hh)
  = Ok (tt, <[temp := set_ctx c (set_path (ctx c) (path (ctx c) ++ map Laws.lineToOf rest))]> hh).
Proof.
  intros Hlive. revert c. induction rest as [|p rest IH]; intros c.
  - cbn [forEach map ret]. rewrite app_nil_r. now destruct c as [w h' px []].
  - cbn [forEach map]. unfold Dom.lineTo at 1, Dom.modifyCtx.
    rewrite (bind_Ok _ _ _ tt _ (modify_eq _ _ _)).
    rewrite deref_insert_eq by exact Hlive. rewrite list_insert_insert_eq.
    rewrite IH. cbn [ctx path set_ctx set_path width height pixels transform globalAlpha
                     globalCompositeOperation fillStyle strokeStyle lineWidth].
    now rewrite <- app_assoc.
Qed.


(** On a non-empty list it completes; the path it fills starts at the first
    point's x and has one segment per further point of the list. *)
Lemma drawContour_nonempty (temp : Ref) (p0 : list Z) (rest : list (list Z))
      (hh : Heap) (c : Canvas.t) :
  (temp < length hh)%nat ->
  exists c',
    Layer.drawContour temp (p0 :: rest) (<[temp := c]> hh) = Ok (tt, <[temp := c']> hh)
    /\ path (ctx c') = MoveTo (get p0 0) (get p0 4) :: map Laws.lineToOf rest ++ [ClosePath].
Proof.
  intros Hlive. unfold Layer.drawContour.
  unfold Dom.beginPath, Dom.moveTo, Dom.closePath, Dom.fill, Dom.modifyCtx.
  cbn [lookup list_lookup drop].
  rewrite (bind_Ok _ _ _ tt _ (modify_eq _ _ _)).
  rewrite deref_insert_eq by exact Hlive. rewrite list_insert_insert_eq.
  rewrite (bind_Ok _ _ _ p0 _ eq_refl).
  rewrite (bind_Ok _ _ _ tt _ (modify_eq _ _ _)).
  rewrite deref_insert_eq by exact Hlive. rewrite list_insert_insert_eq.
  rewrite (bind_Ok _ _ _ tt _ (lineTo_loop temp rest hh _ Hlive)).
  rewrite (bind_Ok _ _ _ tt _ (modify_eq _ _ _)).
  rewrite deref_insert_eq by exact Hlive. rewrite list_insert_insert_eq.
  rewrite modify_eq.
  rewrite deref_insert_eq by exact Hlive. rewrite list_insert_insert_eq.
  eexists. split; [reflexivity|]. cbn. rewrite <- ?app_assoc. reflexivity.
Qed.

Variables (L : Layer.t) (h : Heap).
Hypothesis canvas_live : (Layer.canvas L < length h)%nat.
Hypothesis source_live : (Layer.source L < length h)%nat.
Hypothesis source_wf : wf (deref h (Layer.source L)).
Hypothesis some_opaque :
  someAlpha (fun a => TRANSPARENCY_THRESHOLD < a) (deref h (Layer.source L)).
Hypothesis some_transparent :
  someAlpha (fun a => a < TRANSPARENCY_THRESHOLD) (deref h (Layer.source L)).


End ContourBranch.

(** ** The small host satisfies the rendering laws *)
Section ReferenceHost.
Import Canvas.
Variable contour : (Z -> Z -> bool) -> list (list Z).

Lemma feq_refl (x : float) : Reference.feq x x = true.
Proof. apply FloatAxioms.Leibniz.eqb_spec. reflexivity. Qed.

Lemma wholeSurface_whole (c : Canvas.t) :
  transform (ctx c) = [] ->
  Reference.wholeSurface c 0 0 (Z2f (width c)) (Z2f (height c)) = true.
Proof.
  intros Ht. unfold Reference.wholeSurface. rewrite Ht, !feq_refl. reflexivity.
Qed.

Lemma reference_clearRect : @Laws.clearRect_whole (Reference.host contour).
Proof.
  intros c Ht. cbn [render_clearRect Reference.host]. unfold Reference.clearRect.
  now rewrite (wholeSurface_whole c Ht).
Qed.

Lemma reference_fillRect : @Laws.fillRect_whole_black (Reference.host contour).
Proof.
  intros c Ht Ha Hg Hf. cbn [render_fillRect Reference.host]. unfold Reference.fillRect.
  now rewrite (wholeSurface_whole c Ht), Ha, Hg, Hf.
Qed.

Lemma reference_fill : @Laws.fill_empty_path (Reference.host contour).
Proof. intros c _. reflexivity. Qed.

Lemma uniform_app (p : list Z) (n m : nat) :
  uniform p (n + m) = uniform p n ++ uniform p m.
Proof. unfold uniform. now rewrite repeat_app, concat_app. Qed.

Lemma flat_map_uniform {A} (l : list A) (p : list Z) (n : nat) :
  flat_map (fun _ => uniform p n) l = uniform p (length l * n).
Proof.
  induction l as [|a l IH]; [reflexivity|].
  cbn [flat_map length]. rewrite IH. simpl. now rewrite uniform_app.
Qed.

Lemma uniform_one (p : list Z) : uniform p 1 = p.
Proof. unfold uniform. simpl. apply app_nil_r. Qed.

Lemma length_zrange (n : Z) : length (zrange n) = Z.to_nat n.
Proof. unfold zrange. now rewrite length_map, length_seq. Qed.

Lemma clamp_in_range (v hi : Z) : 0 < hi -> 0 <= Reference.clamp v hi < hi.
Proof. unfold Reference.clamp. lia. Qed.

Lemma reference_drawImage : @Laws.drawImage_uniform (Reference.host contour).
Proof.
  intros dest image a b w h p Hctx Hdw Hdh Hdest Ha Hb Hw Hh Hfw Hfh Himg Hp.
  cbn [render_drawImage Reference.host]. unfold Reference.drawImage.
  rewrite wholeSurface_whole by now rewrite Hctx.
  rewrite Hctx. cbn [globalAlpha globalCompositeOperation defaultContext
                     Reference.isSourceOver andb].
  rewrite feq_refl.
  assert (Hlen : length p = 4%nat) by (destruct Hp as [-> | ->]; reflexivity).
  rewrite (flat_map_agree _ (fun _ => uniform p (Z.to_nat (width dest)))).
  - rewrite flat_map_uniform, length_zrange. f_equal. nia.
  - intros y Hy. apply In_zrange in Hy.
    rewrite (flat_map_agree _ (fun _ => uniform p 1)).
    + rewrite flat_map_uniform, length_zrange. f_equal. lia.
    + intros x Hx. apply In_zrange in Hx. rewrite uniform_one.
      rewrite (pixelAt_uniform image p) by
        (try assumption; apply clamp_in_range; lia).
      rewrite (pixelAt_uniform dest Laws.transparentBlack) by (assumption || reflexivity).
      destruct Hp as [-> | ->]; reflexivity.
Qed.

End ReferenceHost.

(** ** Runs on the small host *)
Section Examples.
Import Canvas.

Lemma bitmap_2x1_wf (p : list Z) :
  length p = 8%nat -> wf (Reference.bitmap 2 1 p).
Proof. intros Hp. repeat split; simpl; try lia. Qed.

Lemma allAlpha_2x1 (P : Z -> Prop) (r0 g0 b0 a0 r1 g1 b1 a1 : Z) :
  P a0 -> P a1 -> allAlpha P (Reference.bitmap 2 1 [r0; g0; b0; a0; r1; g1; b1; a1]).
Proof.
  intros H0 H1 x y a Hx Hy. simpl in Hx, Hy.
  assert (y = 0) by lia. assert (x = 0 \/ x = 1) as [-> | ->] by lia; subst y;
    cbn; intros [= <-]; assumption.
Qed.


Lemma someAlpha_2x1_right (P : Z -> Prop) (r0 g0 b0 a0 r1 g1 b1 a1 : Z) :
  P a1 -> someAlpha P (Reference.bitmap 2 1 [r0; g0; b0; a0; r1; g1; b1; a1]).
Proof. intros H1. exists 1, 0, a1. repeat split; simpl; try lia. exact H1. Qed.

Lemma four_refs_live (c : Canvas.t) (r : nat) :
  (r < 4)%nat -> (r < length (Reference.heapOf c))%nat.
Proof. intros Hr. exact Hr. Qed.



End Examples.

Lemma createOriginalMask_fast_paths_witness :
  @Laws.maskFilledWith (Reference.host Reference.triangle) Laws.transparentBlack
     Reference.exampleLayer (Reference.heapOf Reference.faint)
  /\ @Laws.maskFilledWith (Reference.host Reference.triangle) Laws.opaqueBlack
       Reference.exampleLayer (Reference.heapOf Reference.solid).
Proof.
  split.
  - apply (proj1 (@createOriginalMask_fast_paths (Reference.host Reference.triangle)
                    eq_refl (reference_clearRect _) (reference_fillRect _)
                    (reference_fill _) (reference_drawImage _)
                    Reference.exampleLayer (Reference.heapOf Reference.faint)
                    (four_refs_live _ 0 ltac:(lia)) (four_refs_live _ 1 ltac:(lia))
                    (bitmap_2x1_wf (Canvas.pixels Reference.faint) eq_refl)
                    (conj eq_refl eq_refl) (conj eq_refl eq_refl))).
    apply allAlpha_2x1; simpl; lia.
  - apply (proj2 (@createOriginalMask_fast_paths (Reference.host Reference.triangle)
                    eq_refl (reference_clearRect _) (reference_fillRect _)
                    (reference_fill _) (reference_drawImage _)
                    Reference.exampleLayer (Reference.heapOf Reference.solid)
                    (four_refs_live _ 0 ltac:(lia)) (four_refs_live _ 1 ltac:(lia))
                    (bitmap_2x1_wf (Canvas.pixels Reference.solid) eq_refl)
                    (conj eq_refl eq_refl) (conj eq_refl eq_refl))).
    + apply allAlpha_2x1; simpl; lia.
    + apply someAlpha_2x1_right. simpl. lia.
Defined.

(** C8 as stated fails where every alpha equals the threshold: all alphas are
    at or above it, yet the mask comes out transparent, not opaque. *)
Lemma createOriginalMask_at_threshold_is_transparent :
  Canvas.allAlpha (fun a => @TRANSPARENCY_THRESHOLD (Reference.host Reference.triangle) <= a)
           Reference.atThreshold
  /\ @Laws.maskFilledWith (Reference.host Reference.triangle) Laws.transparentBlack
       Reference.exampleLayer (Reference.heapOf Reference.atThreshold)
  /\ ~ @Laws.maskFilledWith (Reference.host Reference.triangle) Laws.opaqueBlack
         Reference.exampleLayer (Reference.heapOf Reference.atThreshold).
Proof.
  assert (Ht : @Laws.maskFilledWith (Reference.host Reference.triangle) Laws.transparentBlack
                 Reference.exampleLayer (Reference.heapOf Reference.atThreshold)).
  { apply (@createOriginalMask_transparent_path (Reference.host Reference.triangle)
             eq_refl (reference_clearRect _) (reference_drawImage _)
             Reference.exampleLayer (Reference.heapOf Reference.atThreshold)
             (four_refs_live _ 0 ltac:(lia)) (four_refs_live _ 1 ltac:(lia))
             (bitmap_2x1_wf (Canvas.pixels Reference.atThreshold) eq_refl)).
    apply allAlpha_2x1; simpl; lia. }
  split; [apply allAlpha_2x1; simpl; lia|]. split; [exact Ht|].
  destruct Ht as (L1 & h1 & rm1 & E1 & R1 & W1 & H1 & _ & P1 & _).
  intros (L2 & h2 & rm2 & E2 & R2 & _ & _ & _ & P2 & _).
  rewrite E1 in E2. injection E2 as <- <-. rewrite R1 in R2. injection R2 as <-.
  assert (Hx : 0 <= 0 < Canvas.width (Canvas.deref h1 rm1)) by (rewrite W1; simpl; lia).
  assert (Hy : 0 <= 0 < Canvas.height (Canvas.deref h1 rm1)) by (rewrite H1; simpl; lia).
  specialize (P1 0 0 Hx Hy). specialize (P2 0 0 Hx Hy).
  rewrite P1 in P2. discriminate.
Qed.



(** ** The color-key pass on a canvas *)
Section ColorKeyPass.
Context `{Host}.
Import Canvas.

Lemma set_pixels_same (c : Canvas.t) : set_pixels c (pixels c) = c.
Proof. now destruct c. Qed.

Lemma insert_deref (h : Heap) (r : Ref) : (r < length h)%nat -> <[r := deref h r]> h = h.
Proof.
  intros Hr. apply list_insert_id. unfold deref.
  destruct (lookup_lt_is_Some_2 h r Hr) as [c E]. now rewrite E.
Qed.

(** One pass replaces the context's pixels by the keyed-out buffer. *)
Lemma applyTransparentPixels_run (L : Layer.t) (context : Ref) (h : Heap) :
  (context < length h)%nat ->
  wf (deref h context) ->
  width (deref h (Layer.canvas L)) = width (deref h context) ->
  height (deref h (Layer.canvas L)) = height (deref h context) ->
  Layer.applyTransparentPixels L context h
  = Ok (tt, <[context := set_pixels (deref h context)
                           (Layer.keyOut (Layer.alphaPixelColors L)
                                         (pixels (deref h context)))]> h).
Proof.
  intros Hlive Hwf Hw Hh. unfold Layer.applyTransparentPixels.
  destruct (Layer.alphaPixelColors L) as [|c cs] eqn:Ec.
  - cbn [Layer.keyOut fold_left]. rewrite set_pixels_same, insert_deref by exact Hlive.
    reflexivity.
  - unfold Layer.width, Layer.height.
    cbn [bind Dom.read Dom.modify ret]. rewrite Hw, Hh.
    rewrite (getImageData_whole _ Hwf). cbn [ImageData.data].
    destruct Hwf as (H0w & H0h & Hlen).
    rewrite modify_eq.
    rewrite putImageData_whole; [reflexivity | assumption | assumption |].
    now rewrite keyOut_length.
Qed.

(** C9. On a live, well-formed context of the size of the layer's canvas
    and with pixels (a positive width and height), the color-key pass
    completes, and run again immediately with the same
    reference colors it completes and leaves every canvas, so every pixel,
    as the first run left it; on the pixel buffer itself, keying out twice
    gives what keying out once gives. *)
Theorem applyTransparentPixels_twice_is_once (L : Layer.t) (context : Ref) (h : Heap) :
  (context < length h)%nat ->
  wf (deref h context) ->
  positiveSize (deref h context) ->
  width (deref h (Layer.canvas L)) = width (deref h context) ->
  height (deref h (Layer.canvas L)) = height (deref h context) ->
  (forall data, Layer.keyOut (Layer.alphaPixelColors L)
                             (Layer.keyOut (Layer.alphaPixelColors L) data)
                = Layer.keyOut (Layer.alphaPixelColors L) data)
  /\ exists h1,
       Layer.applyTransparentPixels L context h = Ok (tt, h1)
       /\ Layer.applyTransparentPixels L context h1 = Ok (tt, h1).
Proof.
  intros Hlive Hwf _ Hw Hh. split; [intros data; apply keyOut_idempotent|].
  set (c := deref h context) in *.
  set (data := Layer.keyOut (Layer.alphaPixelColors L) (pixels c)).
  exists (<[context := set_pixels c data]> h).
  split; [now apply applyTransparentPixels_run|].
  assert (Hc1 : deref (<[context := set_pixels c data]> h) context = set_pixels c data)
    by now apply deref_insert_eq.
  assert (Hcv : width (deref (<[context := set_pixels c data]> h) (Layer.canvas L)) = width c
                /\ height (deref (<[context := set_pixels c data]> h) (Layer.canvas L))
                   = height c).
  { destruct (Nat.eq_dec context (Layer.canvas L)) as [<- | Hne].
    - rewrite Hc1. split; reflexivity.
    - rewrite deref_insert_ne by exact Hne. split; assumption. }
  destruct Hcv as (Hw1 & Hh1).
  rewrite applyTransparentPixels_run.
  - rewrite Hc1. cbn [pixels set_pixels width height ctx]. subst data.
    rewrite keyOut_idempotent. now rewrite list_insert_insert_eq.
  - now rewrite length_insert.
  - rewrite Hc1. destruct Hwf as (H0w & H0h & Hlen). repeat split; try assumption.
    cbn [pixels set_pixels width height]. subst data. now rewrite keyOut_length.
  - rewrite Hc1. exact Hw1.
  - rewrite Hc1. exact Hh1.
Qed.

End ColorKeyPass.

Lemma applyTransparentPixels_twice_is_once_witness :
  (forall data,
     @Layer.keyOut (Reference.host Reference.triangle)
        (Layer.alphaPixelColors Reference.keyedLayer)
        (@Layer.keyOut (Reference.host Reference.triangle)
           (Layer.alphaPixelColors Reference.keyedLayer) data)
     = @Layer.keyOut (Reference.host Reference.triangle)
         (Layer.alphaPixelColors Reference.keyedLayer) data)
  /\ exists h1,
       @Layer.applyTransparentPixels (Reference.host Reference.triangle)
          Reference.keyedLayer 0%nat (Reference.heapOf Reference.halfOpaque) = Ok (tt, h1)
       /\ @Layer.applyTransparentPixels (Reference.host Reference.triangle)
            Reference.keyedLayer 0%nat h1 = Ok (tt, h1).
Proof.
  apply (@applyTransparentPixels_twice_is_once (Reference.host Reference.triangle)
           Reference.keyedLayer 0%nat (Reference.heapOf Reference.halfOpaque)
           (four_refs_live _ 0 ltac:(lia))
           (bitmap_2x1_wf (Canvas.pixels Reference.halfOpaque) eq_refl)
           (conj eq_refl eq_refl) eq_refl eq_refl).
Defined.

(** ** Cloning *)
Section Clone.
Context `{Host}.
Variable view : Layer.View.
Variable fromImage : Layer.ImgOptions -> M Layer.t.

(** Whatever the layer, [clone] never assigns the new layer's [sourceMask]
    or [renderedMask]: they stay as the factory made them. *)
Lemma clone_leaves_factory_masks (uuid : string) (L this' newLayer : Layer.t)
      (h h' : Canvas.Heap) :
  Layer.clone fromImage uuid L h = Ok ((this', newLayer), h') ->
  exists made hm,
    match Layer.img L with
    | Some i =>
        fromImage (Layer.mkImgOptions i (Canvas.height (Canvas.deref h (Layer.source L)))
                                      (Canvas.width (Canvas.deref h (Layer.source L)))
                                      (Layer.tintColor L) (Layer.tintLayer L))
    | None => Layer.fromColor uuid (Layer.color L) None None
    end h = Ok (made, hm)
    /\ Layer.sourceMask newLayer = Layer.sourceMask made
    /\ Layer.renderedMask newLayer = Layer.renderedMask made.
Proof.
  unfold Layer.clone. cbn [bind Dom.read].
  match goal with
  | |- context [bind ?m _ h] => destruct (m h) as [[made hm]|e] eqn:Em
  end.
  - rewrite (bind_Ok _ _ _ _ _ Em). intros E. exists made, hm. split; [reflexivity|].
    revert E. cbv zeta.
    unfold bind, ret, Dom.cloneCanvas.
    destruct (Layer.mask L), (Layer.sourceMask L);
      cbn [Layer.renderedMask Layer.set_sourceMask];
      destruct (Layer.renderedMask L);
      cbn [Layer.previousAlphaPixelColors Layer.set_sourceMask Layer.set_renderedMask];
      destruct (Layer.previousAlphaPixelColors L);
      intros E; injection E; intros; subst; split; reflexivity.
  - rewrite (bind_Throw _ _ _ _ Em). discriminate.
Qed.

End Clone.

(** C4 (what the code does). A color layer is made by [fromColor], a
    hand-painted opaque mask is installed by [applyCustomMask], and the layer
    is cloned.  The clone's [mask] is a copy, pixel for pixel, on a canvas of
    its own; but the clone's [renderedMask] is the empty canvas its factory
    made, not a copy of the original's, and the original's own
    [renderedMask] reference has been replaced by a new canvas. *)
Theorem clone_copies_onto_the_wrong_layer :
  exists (L this' newLayer : Layer.t) (h h' : Canvas.Heap),
    (L1 <~ @Layer.fromColor (Reference.host Reference.triangle) "layer-1"
             (Some "#336699"%string) (Some 1) (Some 1) ;;
     @Layer.applyCustomMask (Reference.host Reference.triangle) L1 0%nat (fun _ => ret tt))
      [Reference.opaqueMask] = Ok (L, h)
    /\ @Layer.clone (Reference.host Reference.triangle)
         (fun _ => throw (TypeError "no image")) "layer-2" L h
       = Ok ((this', newLayer), h')
    /\ Layer.mask L = Some 0%nat /\ Layer.mask newLayer = Some 11%nat
    /\ Canvas.pixels (Canvas.deref h' 11%nat) = Canvas.pixels (Canvas.deref h 0%nat)
    /\ Layer.renderedMask L = Some 4%nat
    /\ Canvas.pixels (Canvas.deref h 4%nat) = [0; 0; 0; 255]
    /\ Layer.renderedMask newLayer = Some 9%nat
    /\ Canvas.pixels (Canvas.deref h' 9%nat) = []
    /\ Layer.renderedMask this' = Some 12%nat
    /\ Layer.sourceMask newLayer = None.
Proof.
  do 5 eexists. split; [vm_compute; reflexivity|].
  split; [vm_compute; reflexivity|].
  repeat split.
Qed.

(** ** The two alpha tests *)
Section AlphaTests.
Context `{Host}.
Import Canvas.

Lemma bytes_allAlpha (P : Z -> Prop) (c : t) :
  (forall k a, pixels c !! (4 * k + 3)%nat = Some a -> P a) -> allAlpha P c.
Proof. intros Hb x y a Hx Hy E. rewrite alphaAt_lookup in E by assumption. eauto. Qed.

Lemma bytes_someAlpha (P : Z -> Prop) (c : t) :
  wf c -> (exists k a, pixels c !! (4 * k + 3)%nat = Some a /\ P a) -> someAlpha P c.
Proof.
  intros (Hw & Hh & Hlen) (k & a & E & HP).
  assert (Hk : (4 * k + 3 < length (pixels c))%nat) by (apply lookup_lt_is_Some; eauto).
  rewrite Hlen in Hk.
  assert (Hpos : 0 < width c) by nia.
  assert (HkZ : Z.of_nat k < width c * height c) by nia.
  assert (Hx : 0 <= Z.of_nat k mod width c < width c) by (apply Z.mod_pos_bound; exact Hpos).
  assert (Hy : 0 <= Z.of_nat k / width c < height c).
  { split; [apply Z.div_pos; lia|]. apply Z.div_lt_upper_bound; [exact Hpos | nia]. }
  exists (Z.of_nat k mod width c), (Z.of_nat k / width c), a.
  repeat split; try lia; [|exact HP].
  rewrite alphaAt_lookup by assumption. rewrite <- E. f_equal.
  rewrite (Z.mul_comm (Z.of_nat k / width c)), <- Z.div_mod by lia. lia.
Qed.

Lemma scanTransparent_false (l : list Z) :
  Layer.scanTransparent l = false
  <-> exists k a, l !! (4 * k + 3)%nat = Some a /\ TRANSPARENCY_THRESHOLD < a.
Proof.
  split.
  - induction l as [|p1|p1 p2|p1 p2 p3|r g b a rest IH] using list_ind4; try discriminate.
    change (Layer.scanTransparent (r :: g :: b :: a :: rest))
      with (if a >? TRANSPARENCY_THRESHOLD then false else Layer.scanTransparent rest).
    destruct (Z.gtb_spec a TRANSPARENCY_THRESHOLD) as [Hgt | Hle].
    + intros _. exists 0%nat, a. split; [reflexivity | lia].
    + intros E. destruct (IH E) as (k & a' & Ek & Ha). exists (S k), a'.
      split; [now rewrite lookup_group_shift | exact Ha].
  - intros (k & a & E & Ha).
    destruct (Layer.scanTransparent l) eqn:Es; [|reflexivity].
    rewrite scanTransparent_true in Es. specialize (Es k a E). lia.
Qed.

Lemma scanOpaque_false (l : list Z) :
  Layer.scanOpaque l = false
  <-> exists k a, l !! (4 * k + 3)%nat = Some a /\ a < TRANSPARENCY_THRESHOLD.
Proof.
  split.
  - induction l as [|p1|p1 p2|p1 p2 p3|r g b a rest IH] using list_ind4; try discriminate.
    change (Layer.scanOpaque (r :: g :: b :: a :: rest))
      with (if a <? TRANSPARENCY_THRESHOLD then false else Layer.scanOpaque rest).
    destruct (Z.ltb_spec a TRANSPARENCY_THRESHOLD) as [Hlt | Hge].
    + intros _. exists 0%nat, a. split; [reflexivity | lia].
    + intros E. destruct (IH E) as (k & a' & Ek & Ha). exists (S k), a'.
      split; [now rewrite lookup_group_shift | exact Ha].
  - intros (k & a & E & Ha).
    destruct (Layer.scanOpaque l) eqn:Es; [|reflexivity].
    rewrite scanOpaque_true in Es. specialize (Es k a E). lia.
Qed.

Variables (L : Layer.t) (h : Heap).
Hypothesis source_wf : wf (deref h (Layer.source L)).

Lemma isCompletelyTransparent_scan :
  Layer.isCompletelyTransparent L h
  = Ok (Layer.scanTransparent (pixels (deref h (Layer.source L))), h).
Proof.
  unfold Layer.isCompletelyTransparent. cbn [bind Dom.read ret].
  now rewrite (getImageData_whole _ source_wf).
Qed.

Lemma isCompletelyOpaque_scan :
  Layer.isCompletelyOpaque L h
  = Ok (Layer.scanOpaque (pixels (deref h (Layer.source L))), h).
Proof.
  unfold Layer.isCompletelyOpaque. cbn [bind Dom.read ret].
  now rewrite (getImageData_whole _ source_wf).
Qed.

Lemma scanTransparent_allAlpha :
  Layer.scanTransparent (pixels (deref h (Layer.source L))) = true
  <-> allAlpha (fun a => a <= TRANSPARENCY_THRESHOLD) (deref h (Layer.source L)).
Proof.
  rewrite scanTransparent_true. split.
  - apply bytes_allAlpha.
  - intros Hall. now apply allAlpha_bytes.
Qed.

Lemma scanTransparent_someAlpha :
  Layer.scanTransparent (pixels (deref h (Layer.source L))) = false
  <-> someAlpha (fun a => TRANSPARENCY_THRESHOLD < a) (deref h (Layer.source L)).
Proof.
  rewrite scanTransparent_false. split.
  - now apply bytes_someAlpha.
  - apply someAlpha_bytes.
Qed.

Lemma scanOpaque_allAlpha :
  Layer.scanOpaque (pixels (deref h (Layer.source L))) = true
  <-> allAlpha (fun a => TRANSPARENCY_THRESHOLD <= a) (deref h (Layer.source L)).
Proof.
  rewrite scanOpaque_true. split.
  - apply bytes_allAlpha.
  - intros Hall. now apply allAlpha_bytes.
Qed.

Lemma scanOpaque_someAlpha :
  Layer.scanOpaque (pixels (deref h (Layer.source L))) = false
  <-> someAlpha (fun a => a < TRANSPARENCY_THRESHOLD) (deref h (Layer.source L)).
Proof.
  rewrite scanOpaque_false. split.
  - now apply bytes_someAlpha.
  - apply someAlpha_bytes.
Qed.

(** X1. On a source with pixels (a positive width and height),
    [isCompletelyTransparent()] reads the source, changes no canvas, and
    answers true exactly when no pixel of the source has an alpha above the
    threshold; it answers false exactly when some pixel has one. *)
Theorem isCompletelyTransparent_iff_no_alpha_above_threshold :
  positiveSize (deref h (Layer.source L)) ->
  exists b,
    Layer.isCompletelyTransparent L h = Ok (b, h)
    /\ (b = true
        <-> allAlpha (fun a => a <= TRANSPARENCY_THRESHOLD) (deref h (Layer.source L)))
    /\ (b = false
        <-> someAlpha (fun a => TRANSPARENCY_THRESHOLD < a) (deref h (Layer.source L))).
Proof.
  intros _. eexists. split; [apply isCompletelyTransparent_scan|].
  split; [apply scanTransparent_allAlpha | apply scanTransparent_someAlpha].
Qed.

(** X2. On a source with pixels (a positive width and height),
    [isCompletelyOpaque()] reads the source, changes no canvas, and
    answers true exactly when no pixel of the source has an alpha below the
    threshold; it answers false exactly when some pixel has one. *)
Theorem isCompletelyOpaque_iff_no_alpha_below_threshold :
  positiveSize (deref h (Layer.source L)) ->
  exists b,
    Layer.isCompletelyOpaque L h = Ok (b, h)
    /\ (b = true
        <-> allAlpha (fun a => TRANSPARENCY_THRESHOLD <= a) (deref h (Layer.source L)))
    /\ (b = false
        <-> someAlpha (fun a => a < TRANSPARENCY_THRESHOLD) (deref h (Layer.source L))).
Proof.
  intros _. eexists. split; [apply isCompletelyOpaque_scan|].
  split; [apply scanOpaque_allAlpha | apply scanOpaque_someAlpha].
Qed.

(** X3. On a source with pixels (a positive width and height), the two
    tests are not complementary: both answer true exactly when every alpha
    of the source equals the threshold; both answer false exactly when the
    source has an alpha above the threshold and an alpha below it. *)
Theorem alpha_tests_both_pass_only_at_the_threshold :
  positiveSize (deref h (Layer.source L)) ->
  exists bt bo,
    Layer.isCompletelyTransparent L h = Ok (bt, h)
    /\ Layer.isCompletelyOpaque L h = Ok (bo, h)
    /\ (bt = true /\ bo = true
        <-> allAlpha (fun a => a = TRANSPARENCY_THRESHOLD) (deref h (Layer.source L)))
    /\ (bt = false /\ bo = false
        <-> someAlpha (fun a => TRANSPARENCY_THRESHOLD < a) (deref h (Layer.source L))
            /\ someAlpha (fun a => a < TRANSPARENCY_THRESHOLD) (deref h (Layer.source L))).
Proof.
  intros _. eexists _, _. split; [apply isCompletelyTransparent_scan|].
  split; [apply isCompletelyOpaque_scan|].
  assert (Hboth :
    Layer.scanTransparent (pixels (deref h (Layer.source L))) = true
    /\ Layer.scanOpaque (pixels (deref h (Layer.source L))) = true
    <-> allAlpha (fun a => a = TRANSPARENCY_THRESHOLD) (deref h (Layer.source L))).
  { rewrite scanTransparent_allAlpha, scanOpaque_allAlpha. split.
    - intros [Hle Hge] x y a Hx Hy E.
      specialize (Hle x y a Hx Hy E). specialize (Hge x y a Hx Hy E).
      cbv beta in *. lia.
    - intros Heq. split; intros x y a Hx Hy E; specialize (Heq x y a Hx Hy E);
        cbv beta in *; lia. }
  split; [exact Hboth|].
  now rewrite scanTransparent_someAlpha, scanOpaque_someAlpha.
Qed.

End AlphaTests.

(** ** Which pixels the color key clears *)
Section KeyedPixels.
Context `{Host}.
Import Canvas.

Lemma keyGroup_keyed (c : Color.t) (group : list Z) :
  Layer.keyGroup c group
  = if isNeighborColor c (Laws.pixelColor group) then Layer.zeroed group else group.
Proof. reflexivity. Qed.

Lemma keyed_zeroed_or_same (colors : list Color.t) (group : list Z) :
  Layer.keyGroups colors group
  = if Laws.keyed colors group then Layer.zeroed group else group.
Proof.
  revert group. induction colors as [|c cs IH]; intros group; [reflexivity|].
  unfold Layer.keyGroups in *. cbn [fold_left]. rewrite keyGroup_keyed.
  unfold Laws.keyed. cbn [existsb].
  destruct (isNeighborColor c (Laws.pixelColor group)).
  - apply (keyGroups_zeroed cs group).
  - apply IH.
Qed.

Lemma keyGroups_length (colors : list Color.t) (group : list Z) :
  length (Layer.keyGroups colors group) = length group.
Proof.
  destruct (keyGroups_cases colors group) as [E | E]; rewrite E; [reflexivity|].
  unfold Layer.zeroed. apply length_map.
Qed.

(** The [k]-th pixel of the keyed-out buffer is the keyed-out [k]-th pixel. *)
Lemma keyOut_pixel (colors : list Color.t) (data : list Z) (k : nat) :
  (4 * k + 4 <= length data)%nat ->
  take 4 (drop (4 * k) (Layer.keyOut colors data))
  = Layer.keyGroups colors (take 4 (drop (4 * k) data)).
Proof.
  revert data. induction k as [|k IH]; intros data Hlen.
  - destruct data as [|r [|g [|b [|a rest]]]]; simpl in Hlen; try lia.
    rewrite keyOut_group. change (4 * 0)%nat with 0%nat. rewrite !drop_0.
    change (take 4 (r :: g :: b :: a :: rest)) with [r; g; b; a].
    apply take_app_length'. now rewrite keyGroups_length.
  - destruct data as [|r [|g [|b [|a rest]]]]; simpl in Hlen; try lia.
    rewrite keyOut_group.
    replace (4 * S k)%nat
      with (length (Layer.keyGroups colors [r; g; b; a]) + 4 * k)%nat
      by (rewrite keyGroups_length; simpl; lia).
    rewrite drop_app_add. rewrite keyGroups_length.
    change (drop (length [r; g; b; a] + 4 * k) (r :: g :: b :: a :: rest))
      with (drop (4 * k) rest).
    apply IH. lia.
Qed.

(** X4. On a live, well-formed context of the size of the layer's canvas
    and with pixels (a positive width and height), the color-key pass
    completes; it writes the bitmap of that context and
    nothing else (no other canvas, not the context's size or state); and a
    pixel comes out as transparent black when some reference color is a
    neighbor of its color, and exactly as it was otherwise. *)
Theorem applyTransparentPixels_clears_the_keyed_pixels
    (L : Layer.t) (context : Ref) (h : Heap) :
  (context < length h)%nat ->
  wf (deref h context) ->
  positiveSize (deref h context) ->
  width (deref h (Layer.canvas L)) = width (deref h context) ->
  height (deref h (Layer.canvas L)) = height (deref h context) ->
  exists h',
    Layer.applyTransparentPixels L context h = Ok (tt, h')
    /\ length h' = length h
    /\ (forall r, r <> context -> deref h' r = deref h r)
    /\ width (deref h' context) = width (deref h context)
    /\ height (deref h' context) = height (deref h context)
    /\ ctx (deref h' context) = ctx (deref h context)
    /\ forall x y,
         0 <= x < width (deref h context) -> 0 <= y < height (deref h context) ->
         pixelAt (deref h' context) x y
         = if Laws.keyed (Layer.alphaPixelColors L) (pixelAt (deref h context) x y)
           then [0; 0; 0; 0]
           else pixelAt (deref h context) x y.
Proof.
  intros Hlive Hwf _ Hw Hh.
  eexists. split; [now apply applyTransparentPixels_run|].
  split; [apply length_insert|].
  split; [intros r Hr; apply deref_insert_ne; congruence|].
  rewrite deref_insert_eq by exact Hlive.
  repeat split.
  intros x y Hx Hy.
  destruct (pixelAt_four _ x y Hwf Hx Hy) as (r & g & b & a & Ep).
  rewrite pixelAt_in_range by (cbn [width height set_pixels]; assumption).
  cbn [width height pixels set_pixels].
  replace (Z.to_nat (4 * (y * width (deref h context) + x)))
    with (4 * Z.to_nat (y * width (deref h context) + x))%nat by nia.
  rewrite keyOut_pixel.
  - replace (4 * Z.to_nat (y * width (deref h context) + x))%nat
      with (Z.to_nat (4 * (y * width (deref h context) + x))) by nia.
    rewrite <- pixelAt_in_range by assumption.
    rewrite keyed_zeroed_or_same, Ep. reflexivity.
  - destruct Hwf as (_ & _ & Hlen). rewrite Hlen. nia.
Qed.

End KeyedPixels.

(** ** Footprints of scripts *)
Section FootprintRules.
Import Canvas Footprint.
Variable n : nat.
Variable S : list Ref.
Variable R : Canvas.t -> Canvas.t -> Prop.
Hypothesis R_pre : preorder R.

Lemma step_refl (h : Heap) : step n S R h h.
Proof. split; [lia|]. intros r _. split; [apply R_pre | reflexivity]. Qed.

Lemma step_trans (h1 h2 h3 : Heap) :
  step n S R h1 h2 -> step n S R h2 h3 -> step n S R h1 h3.
Proof.
  intros [L1 F1] [L2 F2]. split; [lia|].
  intros r Hr. destruct (F1 r Hr) as [R1 E1], (F2 r Hr) as [R2 E2]. split.
  - eapply (proj2 R_pre); eassumption.
  - intros Hn. rewrite (E2 Hn). apply (E1 Hn).
Qed.

Lemma writes_ret {A} (Q : A -> Prop) (a : A) : Q a -> writes n S R Q (ret a).
Proof. intros HQ h a' h' _ [= <- <-]. split; [apply step_refl | exact HQ]. Qed.

Lemma writes_throw {A} (Q : A -> Prop) (e : Error) : writes n S R Q (throw e).
Proof. pose proof R_pre. intros h a h' _ E. discriminate. Qed.

Lemma writes_bind {A B} (Q : A -> Prop) (Q' : B -> Prop) (m : M A) (k : A -> M B) :
  writes n S R Q m -> (forall a, Q a -> writes n S R Q' (k a)) ->
  writes n S R Q' (bind m k).
Proof.
  intros Hm Hk h b h' Hn. unfold bind.
  destruct (m h) as [[a h1]|e] eqn:Em; [|discriminate].
  intros Ek. destruct (Hm h a h1 Hn Em) as [S1 Qa].
  assert (Hn1 : (n <= length h1)%nat) by (destruct S1; lia).
  destruct (Hk a Qa h1 b h' Hn1 Ek) as [S2 Qb].
  split; [eapply step_trans; eassumption | exact Qb].
Qed.

Lemma writes_weaken {A} (Q Q' : A -> Prop) (m : M A) :
  (forall a, Q a -> Q' a) -> writes n S R Q m -> writes n S R Q' m.
Proof. pose proof R_pre. intros HQ Hm h a h' Hn E. destruct (Hm h a h' Hn E). auto. Qed.

Lemma writes_read (r : Ref) : writes n S R (fun _ => True) (Dom.read r).
Proof. intros h a h' _ [= <- <-]. split; [apply step_refl | exact I]. Qed.

(** A write whose new value may depend on the rest of the heap. *)
Lemma writes_update (r : Ref) (F : Heap -> Canvas.t -> Canvas.t) :
  (forall hp, mayWrite n S R r (F hp)) ->
  writes n S R (fun _ => True) (fun hp => Dom.modify r (F hp) hp).
Proof.
  intros Hw h a h' Hn [= <- <-]. split; [|exact I].
  split; [now rewrite length_insert|].
  intros r' Hr'. destruct (Nat.eq_dec r r') as [<- | Hne].
  - destruct (Hw h) as [Hfresh | [Hin HR]]; [lia|].
    rewrite deref_insert_eq by lia. split; [apply HR | contradiction].
  - rewrite deref_insert_ne by exact Hne. split; [apply R_pre | reflexivity].
Qed.

Lemma writes_modify (r : Ref) (f : Canvas.t -> Canvas.t) :
  mayWrite n S R r f -> writes n S R (fun _ => True) (Dom.modify r f).
Proof. intros Hw. apply (writes_update r (fun _ => f)). intros _. exact Hw. Qed.

Lemma writes_createElement (w h : Z) :
  writes n S R (fun a => (n <= a)%nat) (Dom.createElement w h).
Proof.
  intros hp a hp' Hn [= <- <-]. split; [|exact Hn].
  split; [rewrite length_app; lia|].
  intros r Hr. rewrite deref_alloc_old by lia. split; [apply R_pre | reflexivity].
Qed.

Lemma writes_cloneCanvas (r0 : Ref) :
  writes n S R (fun a => (n <= a)%nat) (Dom.cloneCanvas r0).
Proof.
  intros hp a hp' Hn [= <- <-]. split; [|exact Hn].
  split; [rewrite length_app; lia|].
  intros r Hr. rewrite deref_alloc_old by lia. split; [apply R_pre | reflexivity].
Qed.

Lemma writes_forEach {A} (xs : list A) (body : A -> M unit) :
  (forall x, In x xs -> writes n S R (fun _ => True) (body x)) ->
  writes n S R (fun _ => True) (forEach xs body).
Proof.
  induction xs as [|x xs IH]; intros Hb; cbn [forEach].
  - now apply writes_ret.
  - apply (writes_bind (fun _ => True)); [apply Hb; now left|].
    intros _ _. apply IH. intros y Hy. apply Hb. now right.
Qed.

Lemma writes_when (b : bool) (m : M unit) :
  writes n S R (fun _ => True) m -> writes n S R (fun _ => True) (when b m).
Proof. intros Hm. destruct b; [exact Hm | now apply writes_ret]. Qed.

End FootprintRules.

(** ** Footprints of the layer's methods *)
Ltac fp_unfold :=
  unfold Dom.resetTransform, Dom.translate, Dom.scale, Dom.rotate, Dom.setGlobalAlpha,
    Dom.setGlobalCompositeOperation, Dom.setFillStyle, Dom.setStrokeStyle, Dom.setLineWidth,
    Dom.beginPath, Dom.moveTo, Dom.lineTo, Dom.rect, Dom.closePath, Dom.clearRect,
    Dom.fillRect, Dom.fill, Dom.setWidth, Dom.setHeight, Dom.modifyCtx.

Section MethodFootprints.
Context `{Host}.
Import Canvas Footprint.
Variable view : Layer.View.
Variable n : nat.
Variable S : list Ref.
Variable R : Canvas.t -> Canvas.t -> Prop.
Hypothesis R_pre : preorder R.
Hypothesis R_keeps : forall c c',
  width c' = width c -> height c' = height c ->
  globalCompositeOperation (ctx c') = globalCompositeOperation (ctx c) -> R c c'.

Lemma may_keep (r : Ref) (f : Canvas.t -> Canvas.t) :
  target n S r ->
  (forall c, width (f c) = width c /\ height (f c) = height c
             /\ globalCompositeOperation (ctx (f c)) = globalCompositeOperation (ctx c)) ->
  mayWrite n S R r f.
Proof.
  intros [Hf | Hin] Hk; [now left|]. right. split; [exact Hin|].
  intros c. destruct (Hk c) as (A & B & C). now apply R_keeps.
Qed.

Lemma writes_drawImage9 (r image : Ref) (sx sy sw sh dx dy dw dh : float) :
  target n S r -> writes n S R (fun _ => True) (Dom.drawImage9 r image sx sy sw sh dx dy dw dh).
Proof.
  intros Hr.
  apply (writes_update n S R R_pre r
           (fun hp c => set_pixels c (render_drawImage c (deref hp image)
                                        sx sy sw sh dx dy dw dh))).
  intros hp. apply may_keep; [exact Hr|]. intros c. repeat split.
Qed.

Lemma writes_drawImage5 (r image : Ref) (dx dy dw dh : float) :
  target n S r -> writes n S R (fun _ => True) (Dom.drawImage5 r image dx dy dw dh).
Proof.
  intros Hr.
  apply (writes_update n S R R_pre r
           (fun hp c => set_pixels c (render_drawImage c (deref hp image)
                                        0 0 (Z2f (width (deref hp image)))
                                        (Z2f (height (deref hp image))) dx dy dw dh))).
  intros hp. apply may_keep; [exact Hr|]. intros c. repeat split.
Qed.

Lemma writes_drawImage3 (r image : Ref) (dx dy : float) :
  target n S r -> writes n S R (fun _ => True) (Dom.drawImage3 r image dx dy).
Proof.
  intros Hr.
  apply (writes_update n S R R_pre r
           (fun hp c => set_pixels c (render_drawImage c (deref hp image)
                                        0 0 (Z2f (width (deref hp image)))
                                        (Z2f (height (deref hp image))) dx dy
                                        (Z2f (width (deref hp image)))
                                        (Z2f (height (deref hp image)))))).
  intros hp. apply may_keep; [exact Hr|]. intros c. repeat split.
Qed.


Lemma writes_width (L : Layer.t) : writes n S R (fun _ => True) (Layer.width L).
Proof.
  unfold Layer.width. apply (writes_bind n S R R_pre (fun _ => True)).
  - now apply writes_read.
  - intros c _. now apply writes_ret.
Qed.

Lemma writes_height (L : Layer.t) : writes n S R (fun _ => True) (Layer.height L).
Proof.
  unfold Layer.height. apply (writes_bind n S R R_pre (fun _ => True)).
  - now apply writes_read.
  - intros c _. now apply writes_ret.
Qed.

Ltac fp_target :=
  unfold target in *;
  first [ assumption
        | left; first [assumption | lia]
        | right; first [assumption | simpl; tauto]
        | tauto ].

Ltac fp_may :=
  apply may_keep; [fp_target | intros ?; repeat split].

Ltac fp_step :=
  first [ apply writes_read; assumption
        | apply writes_width
        | apply writes_height
        | apply writes_createElement; assumption
        | apply writes_cloneCanvas; assumption
        | apply writes_drawImage9; fp_target
        | apply writes_drawImage5; fp_target
        | apply writes_drawImage3; fp_target
        | apply writes_modify; [assumption | fp_may]
        | apply writes_throw
        | apply (writes_ret _ _ _ R_pre (fun _ => True)); exact I
        | apply writes_ret; [assumption | first [exact I | assumption | lia]] ].

Ltac fp :=
  lazymatch goal with
  | |- writes _ _ _ _ (bind _ _) =>
      eapply writes_bind; [assumption | fp | cbv beta; intros ? ?; fp]
  | |- _ => fp_step
  end.

Lemma writes_applyTransformations (L : Layer.t) (context : Ref) (alpha_arg : bool) :
  target n S context ->
  writes n S R (fun _ => True) (Layer.applyTransformations L context alpha_arg).
Proof.
  intros Hc. unfold Layer.applyTransformations. fp_unfold.
  destruct alpha_arg; cbn [when]; fp.
Qed.

Lemma writes_applyTransparentPixels (L : Layer.t) (context : Ref) :
  target n S context ->
  writes n S R (fun _ => True) (Layer.applyTransparentPixels L context).
Proof.
  intros Hc. unfold Layer.applyTransparentPixels. fp_unfold.
  destruct (Layer.alphaPixelColors L); cbv iota; [fp|].
  unfold putImageData. fp.
Qed.

Lemma writes_applyTint (L : Layer.t) (context : Ref) :
  (n <= context)%nat ->
  writes n S R (fun _ => True) (Layer.applyTint L context).
Proof.
  intros Hc. unfold Layer.applyTint.
  eapply writes_bind; [assumption | apply writes_cloneCanvas; assumption |].
  cbv beta. intros tintCanvas Ht.
  eapply writes_bind; [assumption | apply writes_read; assumption |].
  intros s _.
  assert (Hmod : forall r f, (n <= r)%nat -> writes n S R (fun _ => True) (Dom.modify r f)).
  { intros r f Hr. apply writes_modify; [assumption | now left]. }
  unfold Layer.assignFillStyle. fp_unfold.
  repeat (eapply writes_bind;
          [ assumption
          | first [ apply Hmod; assumption
                  | apply writes_applyTransformations; now left
                  | apply writes_drawImage3; now left
                  | destruct (Layer.tintColor L); [apply Hmod; assumption | fp] ]
          | intros _ _ ]).
  apply Hmod; assumption.
Qed.

Lemma writes_redrawOriginal (L : Layer.t) :
  writes n S R (fun a => (n <= a)%nat) (Layer.redrawOriginal L).
Proof.
  unfold Layer.redrawOriginal.
  eapply writes_bind; [assumption | apply writes_cloneCanvas; assumption |].
  cbv beta. intros original Ho.
  eapply writes_bind; [assumption
                      | apply writes_applyTransformations; now left | intros _ _].
  eapply writes_bind; [assumption
                      | apply writes_drawImage3; now left | intros _ _].
  eapply writes_bind; [assumption
                      | apply writes_when; [assumption | now apply writes_applyTint]
                      | intros _ _].
  fp_unfold.
  eapply writes_bind; [assumption
                      | apply writes_modify; [assumption | now left] | intros _ _].
  apply writes_ret; assumption.
Qed.

(** The last loop of [redraw], for one of the two contexts. *)
Lemma writes_place (L : Layer.t) (original cContext : Ref) (s : Canvas.t) :
  target n S cContext ->
  writes n S R (fun _ => True)
    (Dom.translate cContext 0 0 ;;;
     (if Layer.colorLayer L then
        Layer.assignFillStyle cContext (Layer.color L) ;;;
        w <~ Layer.width L ;;
        h <~ Layer.height L ;;
        Dom.rect cContext 0 0 w h ;;;
        Dom.fill cContext
      else
        Dom.drawImage5 cContext original (Layer.x (Layer.position L))
                       (Layer.y (Layer.position L))
                       (Z2f (width s) * Layer.scale L) (Z2f (height s) * Layer.scale L) ;;;
        Layer.applyTransparentPixels L cContext) ;;;
     Dom.resetTransform cContext).
Proof.
  intros Hc. unfold Layer.assignFillStyle. fp_unfold.
  eapply writes_bind; [assumption | fp_step | intros _ _].
  eapply writes_bind; [assumption | | intros _ _; fp_step].
  destruct (Layer.colorLayer L).
  - destruct (Layer.color L); cbv iota; fp.
  - eapply writes_bind; [assumption | fp_step | intros _ _].
    now apply writes_applyTransparentPixels.
Qed.

Lemma writes_recalculateMask (L : Layer.t) :
  (forall rm, Layer.renderedMask L = Some rm -> target n S rm) ->
  writes n S R (fun _ => True) (Layer.recalculateMask L).
Proof.
  intros Hrm. unfold Layer.recalculateMask.
  destruct (Layer.mask L) as [m|]; [|now apply writes_ret].
  destruct (Layer.renderedMask L) as [rm|]; [|now apply writes_ret].
  destruct (Layer.customMask L); [now apply writes_ret|].
  specialize (Hrm rm eq_refl).
  eapply writes_bind; [assumption | now apply writes_applyTransformations | intros _ _].
  fp.
Qed.

Lemma writes_setColor (L : Layer.t) (hex : option string) :
  target n S (Layer.canvas L) ->
  writes n S R (fun _ => True) (Layer.setColor L hex).
Proof.
  intros Hc. unfold Layer.setColor, Layer.assignFillStyle. fp_unfold.
  destruct (negb (Layer.colorLayer L)); [now apply writes_ret|].
  cbn [Layer.canvas Layer.set_color].
  destruct hex; fp.
Qed.

Lemma writes_isCompletelyTransparent (L : Layer.t) :
  writes n S R (fun _ => True) (Layer.isCompletelyTransparent L).
Proof. unfold Layer.isCompletelyTransparent. fp. Qed.

Lemma writes_isCompletelyOpaque (L : Layer.t) :
  writes n S R (fun _ => True) (Layer.isCompletelyOpaque L).
Proof. unfold Layer.isCompletelyOpaque. fp. Qed.

Lemma writes_drawContour (temp : Ref) (points : list (list Z)) :
  target n S temp -> writes n S R (fun _ => True) (Layer.drawContour temp points).
Proof.
  intros Ht. unfold Layer.drawContour. fp_unfold.
  eapply writes_bind; [assumption | fp_step | intros _ _].
  eapply writes_bind; [assumption | | intros ? _].
  { destruct (points !! 0%nat); [fp_step | now apply writes_throw]. }
  eapply writes_bind; [assumption | fp_step | intros _ _].
  eapply writes_bind; [assumption | | intros _ _; fp].
  apply writes_forEach; [assumption|]. intros p _. fp_step.
Qed.

(** [createOriginalMask] draws on canvases of its own making only. *)
Lemma writes_createOriginalMask (L : Layer.t) :
  writes n S R (fun _ => True) (Layer.createOriginalMask L).
Proof.
  unfold Layer.createOriginalMask.
  eapply writes_bind; [assumption | now apply writes_createElement |].
  cbv beta. intros temp Ht.
  eapply writes_bind; [assumption | fp_step | intros cv _].
  eapply writes_bind; [assumption | fp_step | intros _ _].
  eapply writes_bind; [assumption | fp_step | intros t0 _].
  eapply writes_bind; [assumption | | intros _ _].
  { apply writes_when; [assumption|]. fp_unfold. fp_step. }
  fp_unfold.
  eapply writes_bind; [assumption | fp_step | intros _ _].
  eapply writes_bind; [assumption | fp_step | intros _ _].
  eapply writes_bind; [assumption | fp_step | intros _ _].
  eapply writes_bind; [assumption | fp | intros tw _].
  eapply writes_bind; [assumption | fp | intros th _].
  eapply writes_bind; [assumption | apply writes_isCompletelyTransparent | intros tr _].
  eapply writes_bind; [assumption | | intros _ _].
  { destruct tr; [fp_step|].
    eapply writes_bind; [assumption | apply writes_isCompletelyOpaque | intros op _].
    destruct op; [fp|].
    eapply writes_bind; [assumption | fp_step | intros _ _].
    apply writes_drawContour. now left. }
  eapply writes_bind; [assumption | fp_step | intros s _].
  eapply writes_bind; [assumption | now apply writes_createElement |].
  cbv beta. intros rm Hrm.
  fp.
Qed.

(** Where the composite operation may change as well. *)
Section Blend.
Hypothesis R_size : forall c c',
  width c' = width c -> height c' = height c -> R c c'.

Lemma may_blend (r : Ref) (f : Canvas.t -> Canvas.t) :
  target n S r ->
  (forall c, width (f c) = width c /\ height (f c) = height c) ->
  mayWrite n S R r f.
Proof.
  intros [Hf | Hin] Hk; [now left|]. right. split; [exact Hin|].
  intros c. destruct (Hk c) as (A & B). now apply R_size.
Qed.

Lemma writes_drawMask (L maskLayer : Layer.t) :
  target n S (Layer.canvas L) ->
  writes n S R (fun _ => True) (Layer.drawMask L maskLayer).
Proof.
  intros Hc. unfold Layer.drawMask. fp_unfold.
  destruct (Layer.renderedMask maskLayer) as [rm|].
  - cbv iota. eapply writes_bind; [assumption | fp_step | intros ? _].
    eapply writes_bind; [assumption | fp_step | intros ? _].
    eapply writes_bind; [assumption | fp_step | intros ? _].
    eapply writes_bind; [assumption | fp_step | intros ? _].
    eapply writes_bind; [assumption | fp_step | intros ? _].
    apply writes_modify; [assumption|]. apply may_blend; [exact Hc|].
    intros c. split; reflexivity.
  - intros h a h' _ E. discriminate.
Qed.

Lemma writes_redraw (L : Layer.t) :
  target n S (Layer.canvas L) -> target n S (Layer.preview L) ->
  writes n S R (fun _ => True) (Layer.redraw view L).
Proof.
  intros Hc Hp. unfold Layer.redraw.
  eapply writes_bind; [assumption | apply writes_redrawOriginal |].
  cbv beta. intros original Ho.
  eapply writes_bind; [assumption | apply writes_read; assumption |].
  intros s _.
  assert (Hboth : forall r, In r [Layer.canvas L; Layer.preview L] -> target n S r).
  { intros r [<- | [<- | []]]; assumption. }
  eapply writes_bind; [assumption | | intros _ _].
  { apply writes_forEach; [assumption |]. intros r Hr.
    specialize (Hboth r Hr). fp_unfold.
    eapply writes_bind; [assumption | | intros _ _; fp].
    apply writes_modify; [assumption|]. apply may_blend; [exact Hboth|].
    intros c. split; reflexivity. }
  eapply writes_bind; [assumption | | intros _ _].
  { apply writes_forEach; [assumption |]. intros maskId _.
    destruct (Layer.redrawMaskLayer view L maskId) as [ml|].
    - now apply writes_drawMask.
    - apply writes_ret; [assumption | exact I]. }
  apply writes_forEach; [assumption |]. intros r Hr.
  apply writes_place. now apply Hboth.
Qed.

Lemma writes_flip (L : Layer.t) :
  target n S (Layer.canvas L) -> target n S (Layer.preview L) ->
  writes n S R (fun _ => True) (Layer.flip view L).
Proof.
  intros Hc Hp. unfold Layer.flip.
  eapply writes_bind; [assumption | apply writes_redraw; assumption | intros _ _].
  now apply writes_ret.
Qed.

Lemma writes_resetMasks (L : Layer.t) :
  target n S (Layer.canvas L) -> target n S (Layer.preview L) ->
  writes n S R (fun _ => True) (Layer.resetMasks view L).
Proof.
  intros Hc Hp. unfold Layer.resetMasks.
  eapply writes_bind; [assumption | | intros ? _].
  { destruct (Layer.sourceMask _); [apply writes_cloneCanvas; assumption | apply writes_throw; assumption]. }
  eapply writes_bind; [assumption | apply writes_redraw; assumption | intros _ _].
  now apply writes_ret.
Qed.

Lemma writes_call (c : Layer.Call) (L : Layer.t) :
  target n S (Layer.canvas L) -> target n S (Layer.preview L) ->
  (forall rm, Layer.renderedMask L = Some rm -> target n S rm) ->
  writes n S R (fun _ => True) (Layer.call view c L).
Proof.
  intros Hc Hp Hrm.
  destruct c; cbn [Layer.call];
    unfold Layer.translate, Layer.setScale, Layer.rotate, Layer.activate, Layer.deactivate,
      Layer.saveColor, Layer.restoreColor, Layer.saveAlphas, Layer.restoreAlphas,
      Layer.addTransparentColour;
    try (now apply writes_ret).
  - now apply writes_flip.
  - now apply writes_setColor.
  - now apply writes_setColor.
  - now apply writes_recalculateMask.
  - eapply writes_bind; [assumption | now apply writes_redraw | intros _ _].
    now apply writes_ret.
Qed.

End Blend.

End MethodFootprints.

(** ** What [redraw] writes *)
Section SameSize.
Import Canvas Footprint.

Lemma sameSize_preorder : preorder sameSize.
Proof.
  split.
  - intros c. split; reflexivity.
  - intros a b c [A1 A2] [B1 B2]. split; congruence.
Qed.

Lemma sameSize_keeps (c c' : Canvas.t) :
  width c' = width c -> height c' = height c ->
  globalCompositeOperation (ctx c') = globalCompositeOperation (ctx c) -> sameSize c c'.
Proof. intros A B _. now split. Qed.

Lemma sameSize_size (c c' : Canvas.t) :
  width c' = width c -> height c' = height c -> sameSize c c'.
Proof. intros A B. now split. Qed.

Lemma sameBlend_preorder : preorder sameBlend.
Proof.
  split.
  - intros c. reflexivity.
  - intros a b c A B. unfold sameBlend in *. congruence.
Qed.

Lemma sameBlend_keeps (c c' : Canvas.t) :
  width c' = width c -> height c' = height c ->
  globalCompositeOperation (ctx c') = globalCompositeOperation (ctx c) -> sameBlend c c'.
Proof. intros _ _ A. exact A. Qed.

End SameSize.

Section RedrawFootprint.
Context `{Host}.
Import Canvas Footprint.
Variable view : Layer.View.

(** X5. A completed [redraw()] removes no canvas and resizes none, and of
    the canvases that existed before the call it writes at most the layer's
    view canvas and its preview: the source, every mask and every canvas of
    another layer are exactly as they were. *)
Theorem redraw_writes_only_the_canvas_and_the_preview (L : Layer.t) (h h' : Heap) :
  Layer.redraw view L h = Ok (tt, h') ->
  (length h <= length h')%nat
  /\ forall r, (r < length h)%nat ->
       width (deref h' r) = width (deref h r)
       /\ height (deref h' r) = height (deref h r)
       /\ (r <> Layer.canvas L -> r <> Layer.preview L -> deref h' r = deref h r).
Proof.
  intros E.
  destruct (writes_redraw view (length h) [Layer.canvas L; Layer.preview L] sameSize
              sameSize_preorder sameSize_keeps sameSize_size L
              (or_intror (or_introl eq_refl)) (or_intror (or_intror (or_introl eq_refl)))
              h tt h' (le_n _) E) as [[Hlen Hstep] _].
  split; [exact Hlen|]. intros r Hr. destruct (Hstep r Hr) as [[Hw Hh] Hsame].
  repeat split; try assumption.
  intros Hc Hp. apply Hsame. intros [<- | [<- | []]]; congruence.
Qed.

End RedrawFootprint.

(** ** Scripts that always complete *)
Section Totality.
Import Canvas Footprint.

Lemma total_ret {A} (a : A) : total (ret a).
Proof. intros h. now exists a, h. Qed.

Lemma total_bind {A B} (m : M A) (k : A -> M B) :
  total m -> (forall a, total (k a)) -> total (bind m k).
Proof.
  intros Hm Hk h. destruct (Hm h) as (a & h1 & E1). destruct (Hk a h1) as (b & h2 & E2).
  exists b, h2. now rewrite (bind_Ok _ _ _ _ _ E1).
Qed.

Lemma total_read (r : Ref) : total (Dom.read r).
Proof. intros h. now eexists _, _. Qed.

Lemma total_update (r : Ref) (F : Heap -> Canvas.t -> Canvas.t) :
  total (fun hp => Dom.modify r (F hp) hp).
Proof. intros h. now eexists _, _. Qed.

Lemma total_modify (r : Ref) (f : Canvas.t -> Canvas.t) : total (Dom.modify r f).
Proof. intros h. now eexists _, _. Qed.

Lemma total_createElement (w h : Z) : total (Dom.createElement w h).
Proof. intros hp. now eexists _, _. Qed.

Lemma total_cloneCanvas (r : Ref) : total (Dom.cloneCanvas r).
Proof. intros hp. now eexists _, _. Qed.

Lemma total_forEach {A} (xs : list A) (body : A -> M unit) :
  (forall x, In x xs -> total (body x)) -> total (forEach xs body).
Proof.
  induction xs as [|x xs IH]; intros Hb; cbn [forEach].
  - apply total_ret.
  - apply total_bind; [apply Hb; now left|].
    intros _. apply IH. intros y Hy. apply Hb. now right.
Qed.

Lemma total_when (b : bool) (m : M unit) : total m -> total (when b m).
Proof. intros Hm. destruct b; [exact Hm | apply total_ret]. Qed.

End Totality.

Ltac tot_step :=
  first [ apply total_read
        | apply total_createElement
        | apply total_cloneCanvas
        | apply total_modify
        | apply (total_update _ (fun hp c => _))
        | apply total_ret ].

Ltac tot :=
  lazymatch goal with
  | |- Footprint.total (bind _ _) => apply total_bind; [tot | intros ?; tot]
  | |- _ => tot_step
  end.

Section MethodTotality.
Context `{Host}.
Import Canvas Footprint.
Variable view : Layer.View.

Lemma total_drawImage9 (r image : Ref) (sx sy sw sh dx dy dw dh : float) :
  total (Dom.drawImage9 r image sx sy sw sh dx dy dw dh).
Proof. intros h. now eexists _, _. Qed.

Lemma total_drawImage5 (r image : Ref) (dx dy dw dh : float) :
  total (Dom.drawImage5 r image dx dy dw dh).
Proof. intros h. now eexists _, _. Qed.

Lemma total_drawImage3 (r image : Ref) (dx dy : float) :
  total (Dom.drawImage3 r image dx dy).
Proof. intros h. now eexists _, _. Qed.

Lemma total_width (L : Layer.t) : total (Layer.width L).
Proof. unfold Layer.width. tot. Qed.

Lemma total_height (L : Layer.t) : total (Layer.height L).
Proof. unfold Layer.height. tot. Qed.

Lemma total_assignFillStyle (r : Ref) (v : option string) :
  total (Layer.assignFillStyle r v).
Proof. destruct v; cbn [Layer.assignFillStyle]; [fp_unfold|]; tot. Qed.

Lemma total_applyTransformations (L : Layer.t) (context : Ref) (alpha_arg : bool) :
  total (Layer.applyTransformations L context alpha_arg).
Proof.
  unfold Layer.applyTransformations. fp_unfold. destruct alpha_arg; cbn [when]; tot.
Qed.

Lemma total_applyTransparentPixels (L : Layer.t) (context : Ref) :
  total (Layer.applyTransparentPixels L context).
Proof.
  unfold Layer.applyTransparentPixels.
  destruct (Layer.alphaPixelColors L); [apply total_ret|].
  apply total_bind; [apply total_width | intros w].
  apply total_bind; [apply total_height | intros hh]. tot.
Qed.

Lemma total_applyTint (L : Layer.t) (context : Ref) : total (Layer.applyTint L context).
Proof.
  unfold Layer.applyTint. fp_unfold.
  apply total_bind; [tot | intros tintCanvas].
  apply total_bind; [tot | intros s].
  apply total_bind; [tot | intros _].
  apply total_bind; [tot | intros _].
  apply total_bind; [apply total_applyTransformations | intros _].
  apply total_bind; [apply total_drawImage3 | intros _].
  apply total_bind; [tot | intros _].
  apply total_bind; [apply total_assignFillStyle | intros _].
  apply total_bind; [tot | intros _].
  apply total_bind; [tot | intros _].
  apply total_bind; [tot | intros _].
  apply total_bind; [apply total_drawImage3 | intros _].
  tot.
Qed.

Lemma total_redrawOriginal (L : Layer.t) : total (Layer.redrawOriginal L).
Proof.
  unfold Layer.redrawOriginal. fp_unfold.
  apply total_bind; [tot | intros original].
  apply total_bind; [apply total_applyTransformations | intros _].
  apply total_bind; [apply total_drawImage3 | intros _].
  apply total_bind; [apply total_when, total_applyTint | intros _].
  tot.
Qed.

Lemma total_drawMask (L maskLayer : Layer.t) :
  Layer.renderedMask maskLayer <> None -> total (Layer.drawMask L maskLayer).
Proof.
  intros Hrm. unfold Layer.drawMask. fp_unfold.
  destruct (Layer.renderedMask maskLayer) as [rm|]; [|contradiction].
  apply total_bind; [tot | intros ?].
  apply total_bind; [apply total_width | intros ?].
  apply total_bind; [apply total_height | intros ?].
  apply total_bind; [tot | intros ?].
  apply total_bind; [apply total_drawImage9 | intros ?].
  tot.
Qed.

Lemma drawMask_without_mask (L maskLayer : Layer.t) (h : Heap) :
  Layer.renderedMask maskLayer = None ->
  Layer.drawMask L maskLayer h = Throw (TypeError "drawImage(null)").
Proof. intros E. unfold Layer.drawMask. now rewrite E. Qed.

(** The mask loop stops with a TypeError at the first provider without a
    rendered mask. *)
Lemma mask_loop_throws (L : Layer.t) (mls : list Layer.t) (h : Heap) :
  (exists M, In M mls /\ Layer.renderedMask M = None) ->
  forEach mls (Layer.drawMask L) h = Throw (TypeError "drawImage(null)").
Proof.
  revert h. induction mls as [|ml mls IH]; intros h (M & HM & EM); [contradiction|].
  cbn [forEach]. destruct (Layer.renderedMask ml) as [rm|] eqn:Erm.
  - destruct (total_drawMask L ml) with (h := h) as ([] & h1 & E1); [congruence|].
    rewrite (bind_Ok _ _ _ _ _ E1). apply IH.
    destruct HM as [-> | HM]; [congruence|]. eauto.
  - apply bind_Throw. now apply drawMask_without_mask.
Qed.

Lemma total_place (L : Layer.t) (original cContext : Ref) (s : Canvas.t) :
  total
    (Dom.translate cContext 0 0 ;;;
     (if Layer.colorLayer L then
        Layer.assignFillStyle cContext (Layer.color L) ;;;
        w <~ Layer.width L ;;
        h <~ Layer.height L ;;
        Dom.rect cContext 0 0 w h ;;;
        Dom.fill cContext
      else
        Dom.drawImage5 cContext original (Layer.x (Layer.position L))
                       (Layer.y (Layer.position L))
                       (Z2f (width s) * Layer.scale L) (Z2f (height s) * Layer.scale L) ;;;
        Layer.applyTransparentPixels L cContext) ;;;
     Dom.resetTransform cContext).
Proof.
  fp_unfold.
  apply total_bind; [tot | intros _].
  apply total_bind; [| intros _; tot].
  destruct (Layer.colorLayer L).
  - apply total_bind; [apply total_assignFillStyle | intros _].
    apply total_bind; [apply total_width | intros w].
    apply total_bind; [apply total_height | intros hh]. tot.
  - apply total_bind; [apply total_drawImage5 | intros _].
    apply total_applyTransparentPixels.
Qed.

(** X6. On a layer whose view canvas and source have pixels (a positive
    width and height), as do the rendered masks of the mask providers it
    draws: [redraw()] completes exactly when every one of these providers
    has a rendered mask; when one has none, it stops with a TypeError at
    the [drawImage] of that mask. *)
Theorem redraw_completes_iff_every_provider_has_a_rendered_mask
    (L : Layer.t) (h : Heap) :
  positiveSize (deref h (Layer.canvas L)) ->
  positiveSize (deref h (Layer.source L)) ->
  (forall M rm, In M (Layer.redrawProviders view L) -> Layer.renderedMask M = Some rm ->
                positiveSize (deref h rm)) ->
  ((forall M, In M (Layer.redrawProviders view L) -> Layer.renderedMask M <> None)
   -> exists h', Layer.redraw view L h = Ok (tt, h'))
  /\ ((exists M, In M (Layer.redrawProviders view L) /\ Layer.renderedMask M = None)
      -> Layer.redraw view L h = Throw (TypeError "drawImage(null)")).
Proof.
  intros _ _ _. split.
  - intros Hall.
    assert (T : total (Layer.redraw view L)).
    { unfold Layer.redraw.
      apply total_bind; [apply total_redrawOriginal | intros original].
      apply total_bind; [tot | intros s].
      apply total_bind.
      { apply total_forEach. intros r _. fp_unfold. tot. }
      intros _. apply total_bind.
      { intros h0. rewrite redraw_mask_loop. revert h0.
        apply total_forEach. intros M HM. apply total_drawMask. now apply Hall. }
      intros _. apply total_forEach. intros r _. apply total_place. }
    destruct (T h) as ([] & h' & E). now exists h'.
  - intros Hsome. unfold Layer.redraw.
    destruct (total_redrawOriginal L h) as (original & h1 & E1).
    rewrite (bind_Ok _ _ _ _ _ E1).
    rewrite (bind_Ok _ _ _ _ _ (eq_refl : Dom.read (Layer.source L) h1 = Ok (_, h1))).
    match goal with
    | |- bind ?m _ _ = _ =>
        assert (T : total m) by (apply total_forEach; intros r _; fp_unfold; tot);
        destruct (T h1) as ([] & h2 & E2); rewrite (bind_Ok _ _ _ _ _ E2)
    end.
    apply bind_Throw. rewrite redraw_mask_loop. now apply mask_loop_throws.
Qed.

End MethodTotality.

(** ** The state [redraw] leaves behind *)
Lemma bind_elim {A B} (m : M A) (k : A -> M B) (h : Canvas.Heap) (r : B * Canvas.Heap)
      (P : Prop) :
  (forall a h1, m h = Ok (a, h1) -> k a h1 = Ok r -> P) -> bind m k h = Ok r -> P.
Proof.
  intros HP. unfold bind. destruct (m h) as [[a h1]|e]; [|discriminate].
  intros E. now apply (HP a h1).
Qed.

Lemma bind_ret {A B} (a : A) (k : A -> M B) (h : Canvas.Heap) : bind (ret a) k h = k a h.
Proof. reflexivity. Qed.

Lemma bind_read {B} (r : Canvas.Ref) (k : Canvas.t -> M B) (h : Canvas.Heap) :
  bind (Dom.read r) k h = k (Canvas.deref h r) h.
Proof. reflexivity. Qed.

Lemma bind_width {B} (L : Layer.t) (k : Z -> M B) (h : Canvas.Heap) :
  bind (Layer.width L) k h = k (Canvas.width (Canvas.deref h (Layer.canvas L))) h.
Proof. reflexivity. Qed.

Lemma bind_height {B} (L : Layer.t) (k : Z -> M B) (h : Canvas.Heap) :
  bind (Layer.height L) k h = k (Canvas.height (Canvas.deref h (Layer.canvas L))) h.
Proof. reflexivity. Qed.

Lemma modify_inv (r : Canvas.Ref) (f : Canvas.t -> Canvas.t) (h h' : Canvas.Heap) :
  Dom.modify r f h = Ok (tt, h') -> h' = <[r := f (Canvas.deref h r)]> h.
Proof. now intros [= <-]. Qed.

(** For a goal [bind m k h = Ok r -> P]: names the result of [m]. *)
Ltac bind_run :=
  lazymatch goal with
  | |- bind ?m ?k ?h = Ok ?r -> ?P => refine (bind_elim m k h r P _)
  end.

(** For a goal [Dom.modify r f h = Ok (tt, h') -> P]: replaces [h']. *)
Ltac modify_run :=
  let E := fresh "E" in intros E; apply modify_inv in E; subst.

Section RedrawEnd.
Context `{Host}.
Import Canvas Footprint.
Variable view : Layer.View.

(** The first loop of [redraw], for one of the two contexts. *)
Lemma clear_run (L : Layer.t) (s : Canvas.t) (r : Ref) (h h' : Heap) :
  (r < length h)%nat ->
  (Dom.setGlobalCompositeOperation r (Layer.compositeOperation L) ;;;
   Dom.clearRect r 0 0 (Z2f (width s)) (Z2f (height s)) ;;;
   Dom.resetTransform r) h = Ok (tt, h') ->
  length h' = length h
  /\ (forall r', r' <> r -> deref h' r' = deref h r')
  /\ globalCompositeOperation (ctx (deref h' r)) = Layer.compositeOperation L.
Proof.
  intros Hr. fp_unfold.
  rewrite !modify_then_modify by exact Hr.
  rewrite modify_then_modify_end by exact Hr.
  modify_run.
  split; [apply length_insert|].
  split; [intros r' Hne; apply deref_insert_ne; congruence|].
  rewrite deref_insert_eq by exact Hr. reflexivity.
Qed.

Lemma drawMask_run (L ml : Layer.t) (h h' : Heap) :
  (Layer.canvas L < length h)%nat ->
  Layer.drawMask L ml h = Ok (tt, h') ->
  length h' = length h
  /\ (forall r, r <> Layer.canvas L -> deref h' r = deref h r)
  /\ globalCompositeOperation (ctx (deref h' (Layer.canvas L)))
     = Layer.maskCompositeOperation L.
Proof.
  intros Hc. unfold Layer.drawMask.
  destruct (Layer.renderedMask ml) as [rm|]; [|discriminate].
  rewrite bind_ret, bind_width, bind_height, bind_read.
  bind_run; intros [] h1. unfold Dom.drawImage9. cbv beta zeta.
  modify_run. fp_unfold. modify_run.
  split; [now rewrite !length_insert|].
  split; [intros r' Hne; rewrite !deref_insert_ne by congruence; reflexivity|].
  rewrite deref_insert_eq by (rewrite length_insert; exact Hc). reflexivity.
Qed.

Lemma mask_loop_run (L : Layer.t) (mls : list Layer.t) (h h' : Heap) :
  (Layer.canvas L < length h)%nat ->
  forEach mls (Layer.drawMask L) h = Ok (tt, h') ->
  length h' = length h
  /\ (forall r, r <> Layer.canvas L -> deref h' r = deref h r)
  /\ globalCompositeOperation (ctx (deref h' (Layer.canvas L)))
     = match mls with
       | [] => globalCompositeOperation (ctx (deref h (Layer.canvas L)))
       | _ :: _ => Layer.maskCompositeOperation L
       end.
Proof.
  revert h. induction mls as [|ml mls IH]; intros h Hc; cbn [forEach].
  - intros [= <-]. repeat split.
  - bind_run; intros [] h1 E1 E2.
    destruct (drawMask_run L ml h h1 Hc E1) as (L1 & O1 & G1).
    destruct (IH h1 ltac:(lia) E2) as (L2 & O2 & G2).
    split; [congruence|]. split.
    + intros r Hr. rewrite (O2 r Hr). now apply O1.
    + rewrite G2. destruct mls; [exact G1 | reflexivity].
Qed.

(** The last loop of [redraw], for one of the two contexts. *)
Lemma place_run (L : Layer.t) (original r : Ref) (s : Canvas.t) (h h' : Heap) :
  (r < length h)%nat ->
  (Dom.translate r 0 0 ;;;
   (if Layer.colorLayer L then
      Layer.assignFillStyle r (Layer.color L) ;;;
      w <~ Layer.width L ;;
      hh <~ Layer.height L ;;
      Dom.rect r 0 0 w hh ;;;
      Dom.fill r
    else
      Dom.drawImage5 r original (Layer.x (Layer.position L)) (Layer.y (Layer.position L))
                     (Z2f (width s) * Layer.scale L) (Z2f (height s) * Layer.scale L) ;;;
      Layer.applyTransparentPixels L r) ;;;
   Dom.resetTransform r) h = Ok (tt, h') ->
  (length h <= length h')%nat
  /\ (forall r', (r' < length h)%nat -> r' <> r -> deref h' r' = deref h r')
  /\ transform (ctx (deref h' r)) = []
  /\ globalCompositeOperation (ctx (deref h' r)) = globalCompositeOperation (ctx (deref h r)).
Proof.
  intros Hr E.
  destruct (writes_place (length h) [r] sameBlend sameBlend_preorder sameBlend_keeps
              L original r s (or_intror (or_introl eq_refl)) h tt h' (le_n _) E)
    as [[Hlen Hstep] _].
  split; [exact Hlen|]. split.
  - intros r' Hr' Hne. apply (Hstep r' Hr'). intros [<- | []]. congruence.
  - split; [|apply (Hstep r Hr)].
    revert Hlen. revert E. bind_run; intros [] ha Ea. bind_run; intros [] hb Eb.
    unfold Dom.resetTransform, Dom.modifyCtx. modify_run.
    rewrite length_insert. intros Hlen.
    rewrite deref_insert_eq by lia. reflexivity.
Qed.

(** X7. After a completed [redraw()] on a layer whose view canvas and
    preview are two live canvases, both contexts have the identity
    transform; the preview's composite operation is the layer's
    [compositeOperation]; and the view canvas is left with the layer's
    [maskCompositeOperation] when at least one mask was drawn, and with its
    [compositeOperation] when none was. *)
Theorem redraw_leaves_identity_transforms (L : Layer.t) (h h' : Heap) :
  (Layer.canvas L < length h)%nat -> (Layer.preview L < length h)%nat ->
  Layer.canvas L <> Layer.preview L ->
  Layer.redraw view L h = Ok (tt, h') ->
  transform (ctx (deref h' (Layer.canvas L))) = []
  /\ transform (ctx (deref h' (Layer.preview L))) = []
  /\ globalCompositeOperation (ctx (deref h' (Layer.preview L))) = Layer.compositeOperation L
  /\ globalCompositeOperation (ctx (deref h' (Layer.canvas L)))
     = match Layer.redrawProviders view L with
       | [] => Layer.compositeOperation L
       | _ :: _ => Layer.maskCompositeOperation L
       end.
Proof.
  intros Hc Hp Hne. unfold Layer.redraw.
  bind_run; intros original h1 E1.
  pose proof (writes_redrawOriginal (length h) [] sameSize sameSize_preorder sameSize_keeps
                L h original h1 (le_n _) E1) as [[Hlen1 _] _].
  rewrite bind_read.
  set (s := deref h1 (Layer.source L)).
  bind_run; intros [] h2. cbn [forEach].
  bind_run; intros [] h2a Ea. bind_run; intros [] h2b Eb. intros [= <-].
  destruct (clear_run L s (Layer.canvas L) h1 h2a ltac:(lia) Ea) as (La & Oa & Ga).
  destruct (clear_run L s (Layer.preview L) h2a h2b ltac:(lia) Eb) as (Lb & Ob & Gb).
  bind_run; intros [] h3. rewrite redraw_mask_loop. intros E3.
  destruct (mask_loop_run L _ h2b h3 ltac:(lia) E3) as (L3 & O3 & G3).
  fold (Layer.redrawProviders view L) in G3.
  bind_run; intros [] h4 E4. bind_run; intros [] h5 E5. intros [= <-].
  destruct (place_run L original (Layer.canvas L) s h3 h4 ltac:(lia) E4) as (L4 & O4 & T4 & G4).
  destruct (place_run L original (Layer.preview L) s h4 h5 ltac:(lia) E5) as (L5 & O5 & T5 & G5).
  rewrite (O5 (Layer.canvas L)) by (lia || congruence).
  split; [exact T4|]. split; [exact T5|]. split.
  - rewrite G5, (O4 (Layer.preview L)) by (lia || congruence).
    rewrite (O3 (Layer.preview L)) by congruence. exact Gb.
  - rewrite G4, G3. destruct (Layer.redrawProviders view L); [|reflexivity].
    rewrite (Ob (Layer.canvas L)) by congruence. exact Ga.
Qed.

End RedrawEnd.

(** ** What the calls keep *)
Section CallFrames.
Context `{Host}.
Import Canvas Footprint.
Variable view : Layer.View.

Lemma cloneCanvas_inv (r : Ref) (h : Heap) (a : Ref) (h' : Heap) :
  Dom.cloneCanvas r h = Ok (a, h') ->
  a = length h
  /\ h' = h ++ [mk (width (deref h r)) (height (deref h r)) (pixels (deref h r))
                   defaultContext].
Proof. now intros [= <- <-]. Qed.

(** What [setColor] returns on a color layer: the layer with its color
    assigned and its source rebound to a new canvas, a snapshot of the view
    canvas as the call left it. *)
Lemma setColor_inv (L : Layer.t) (hex : option string) (h : Heap) (L' : Layer.t) (h' : Heap) :
  Layer.setColor L hex h = Ok (L', h') ->
  (Layer.colorLayer L = false /\ L' = L /\ h' = h)
  \/ (Layer.colorLayer L = true
      /\ L' = Layer.set_source (Layer.set_color L hex) (length h)
      /\ length h' = Datatypes.S (length h)
      /\ ((Layer.canvas L < length h)%nat ->
          deref h' (length h)
          = mk (width (deref h' (Layer.canvas L))) (height (deref h' (Layer.canvas L)))
               (pixels (deref h' (Layer.canvas L))) defaultContext)).
Proof.
  unfold Layer.setColor. destruct (Layer.colorLayer L); cbn [negb];
    [|intros [= <- <-]; now left].
  intros E. right. split; [reflexivity|]. revert E.
  cbn [Layer.canvas Layer.set_color].
  bind_run; intros [] h1 E1.
  assert (L1 : length h1 = length h).
  { revert E1. destruct hex; cbn [Layer.assignFillStyle]; [fp_unfold; modify_run|intros [= <-]];
      [apply length_insert | reflexivity]. }
  rewrite bind_width, bind_height. fp_unfold.
  bind_run; intros [] h2; modify_run. bind_run; intros [] h3; modify_run.
  bind_run; intros s h4 E4. apply cloneCanvas_inv in E4 as [-> ->]. intros [= <- <-].
  rewrite !length_insert, L1. split; [reflexivity|].
  split; [rewrite length_app, !length_insert, L1; simpl; lia|].
  intros Hc. rewrite <- L1 at 1.
  rewrite <- (length_insert h1 (Layer.canvas L)
                (set_ctx (deref h1 (Layer.canvas L))
                   (set_path (ctx (deref h1 (Layer.canvas L)))
                      (path (ctx (deref h1 (Layer.canvas L)))
                       ++ [Rect 0 0 (width (deref h1 (Layer.canvas L)))
                             (height (deref h1 (Layer.canvas L)))])))) at 1.
  match goal with
  | |- deref (?hh ++ [?c]) (length ?h0) = _ =>
      rewrite <- (length_insert h0 (Layer.canvas L) (set_pixels (deref h0 (Layer.canvas L)) (render_fill (deref h0 (Layer.canvas L)))))
  end.
  rewrite deref_alloc_new.
  rewrite deref_alloc_old by (rewrite !length_insert; lia).
  reflexivity.
Qed.

(** What each call returns as the layer. *)
Lemma call_inv (c : Layer.Call) (L L' : Layer.t) (h h' : Heap) :
  Layer.call view c L h = Ok (L', h') ->
  match c with
  | Layer.CallTranslate dx dy =>
      L' = Layer.set_position L
             (Layer.mkPos (Layer.x (Layer.position L) - dx) (Layer.y (Layer.position L) - dy))
  | Layer.CallSetScale f => L' = Layer.set_scale L f
  | Layer.CallRotate d => L' = Layer.set_rotation L (Layer.rotation L + d * 2)
  | Layer.CallFlip =>
      L' = Layer.set_flipped (Layer.set_mirror L (Layer.mirror L * -1))
             (negb (Layer.flipped L))
  | Layer.CallActivate => L' = Layer.set_active L true
  | Layer.CallDeactivate => L' = Layer.set_active L false
  | Layer.CallSetColor hex =>
      L' = L \/ L' = Layer.set_source (Layer.set_color L hex) (length h)
  | Layer.CallRestoreColor =>
      L' = L \/ L' = Layer.set_source (Layer.set_color L (Layer.previousColor L)) (length h)
  | Layer.CallSaveColor => L' = Layer.set_previousColor L (Layer.color L)
  | Layer.CallSaveAlphas =>
      L' = Layer.set_previousAlphaPixelColors L (Some (Layer.alphaPixelColors L))
  | Layer.CallRestoreAlphas =>
      L' = Layer.set_alphaPixelColors L (default [] (Layer.previousAlphaPixelColors L))
  | Layer.CallAddTransparentColour k =>
      L' = Layer.set_alphaPixelColors L (Layer.alphaPixelColors L ++ [k])
  | Layer.CallRecalculateMask | Layer.CallRedraw => L' = L
  end.
Proof.
  destruct c; cbn [Layer.call];
    unfold Layer.translate, Layer.setScale, Layer.rotate, Layer.activate, Layer.deactivate,
      Layer.saveColor, Layer.restoreColor, Layer.saveAlphas, Layer.restoreAlphas,
      Layer.addTransparentColour;
    try (now intros [= <- <-]).
  - unfold Layer.flip. bind_run; intros [] h1 _. now intros [= <- <-].
  - intros E. apply setColor_inv in E as [(_ & -> & _) | (_ & -> & _)]; auto.
  - intros E. apply setColor_inv in E as [(_ & -> & _) | (_ & -> & _)]; auto.
  - unfold Layer.recalculateMask.
    destruct (Layer.mask L) as [m|]; [|now intros [= <- <-]].
    destruct (Layer.renderedMask L) as [rm|]; [|now intros [= <- <-]].
    destruct (Layer.customMask L); [now intros [= <- <-]|].
    bind_run; intros [] h1 _. rewrite bind_read. bind_run; intros [] h2 _.
    now intros [= <- <-].
  - bind_run; intros [] h1 _. now intros [= <- <-].
Qed.

(** X8. Whatever it is called on, a call assigns no property of the layer
    object besides its own: [translate] the position, [setScale] the scale,
    [rotate] the rotation, [flip] the mirror sign and the flag,
    [activate]/[deactivate] the active flag, [setColor]/[restoreColor] the
    color and the source, [saveColor] and [saveAlphas] their saved slot,
    [restoreAlphas] and [addTransparentColour] the color set;
    [recalculateMask] and [redraw] assign none. *)
Theorem calls_assign_only_their_own_properties
    (c : Layer.Call) (L L' : Layer.t) (h h' : Heap) :
  Layer.call view c L h = Ok (L', h') ->
  Layer.unchanged_except (Laws.fieldsOf c) L L'.
Proof.
  intros E. apply call_inv in E.
  destruct c; cbn [Laws.fieldsOf]; try (subst L'; frame).
  - destruct E as [-> | ->]; frame.
  - destruct E as [-> | ->]; frame.
Qed.

(** X9. A completed call removes no canvas and resizes none, and of the
    canvases that existed before it, it writes at most the layer's view
    canvas, its preview and its rendered mask: the source and the masks
    are never drawn on, only replaced. *)
Theorem calls_draw_only_on_the_layers_canvases
    (c : Layer.Call) (L L' : Layer.t) (h h' : Heap) :
  Layer.call view c L h = Ok (L', h') ->
  (length h <= length h')%nat
  /\ forall r, (r < length h)%nat ->
       width (deref h' r) = width (deref h r)
       /\ height (deref h' r) = height (deref h r)
       /\ (~ In r (Laws.drawnOn L) -> deref h' r = deref h r).
Proof.
  intros E.
  assert (Hc : target (length h) (Laws.drawnOn L) (Layer.canvas L)) by (right; now left).
  assert (Hp : target (length h) (Laws.drawnOn L) (Layer.preview L))
    by (right; right; now left).
  assert (Hrm : forall rm, Layer.renderedMask L = Some rm ->
                           target (length h) (Laws.drawnOn L) rm).
  { intros rm Erm. right. unfold Laws.drawnOn. rewrite Erm. simpl. tauto. }
  destruct (writes_call view (length h) (Laws.drawnOn L) sameSize
              sameSize_preorder sameSize_keeps sameSize_size c L Hc Hp Hrm
              h L' h' (le_n _) E) as [[Hlen Hstep] _].
  split; [exact Hlen|]. intros r Hr. destruct (Hstep r Hr) as [[Hw Hh] Hsame].
  repeat split; assumption.
Qed.

End CallFrames.

(** ** The invariants of a layer *)
Section Invariants.
Context `{Host}.
Import Canvas Footprint.
Variable view : Layer.View.

(** What the constructor returns, and the three canvases it makes. *)
Lemma new_run (uuid : string) (canvas : Ref) (tintColor : option string) (tintLayer : bool)
      (img : option Layer.Image) (color : option string) (h : Heap) :
  (canvas < length h)%nat ->
  exists L,
    Layer.new uuid canvas tintColor tintLayer img color h
    = Ok (L, h ++ [mk (width (deref h canvas)) (height (deref h canvas))
                      (pixels (deref h canvas)) defaultContext;
                   mk (width (deref h canvas)) (height (deref h canvas))
                      (pixels (deref h canvas)) defaultContext;
                   blank (width (deref h canvas)) (height (deref h canvas))])
    /\ Layer.canvas L = canvas /\ Layer.source L = length h
    /\ Layer.preview L = Datatypes.S (length h)
    /\ Layer.renderedMask L = Some (Datatypes.S (Datatypes.S (length h)))
    /\ Layer.mirror L = 1%float /\ Layer.flipped L = false
    /\ Layer.colorLayer L = match color with Some _ => true | None => false end
    /\ Layer.color L = color /\ Layer.mask L = None /\ Layer.sourceMask L = None
    /\ Layer.id L = uuid.
Proof.
  intros Hc. unfold Layer.new.
  set (snap := mk (width (deref h canvas)) (height (deref h canvas))
                  (pixels (deref h canvas)) defaultContext).
  rewrite (bind_Ok _ _ h (length h) (h ++ [snap])) by reflexivity.
  rewrite (bind_Ok _ _ (h ++ [snap]) (Datatypes.S (length h)) ((h ++ [snap]) ++ [snap])).
  2:{ unfold Dom.cloneCanvas. rewrite deref_alloc_old by exact Hc.
      rewrite length_app. simpl. now rewrite Nat.add_1_r. }
  rewrite bind_read, bind_read.
  assert (Hcv : deref ((h ++ [snap]) ++ [snap]) canvas = deref h canvas).
  { rewrite !deref_alloc_old; [reflexivity | exact Hc | rewrite length_app; simpl; lia]. }
  assert (Hsrc : deref ((h ++ [snap]) ++ [snap]) (length h) = snap).
  { rewrite deref_alloc_old by (rewrite length_app; simpl; lia). apply deref_alloc_new. }
  rewrite Hcv, Hsrc.
  rewrite (bind_Ok _ _ _ (Datatypes.S (Datatypes.S (length h)))
             (((h ++ [snap]) ++ [snap]) ++ [blank (width snap) (height snap)])).
  2:{ unfold Dom.createElement. rewrite !length_app. simpl.
      now rewrite !Nat.add_1_r. }
  eexists. split.
  - unfold ret. rewrite <- !app_assoc. reflexivity.
  - repeat split.
Qed.

Lemma step_keeps_canvases (L L' : Layer.t) (S : list Ref) (h h' : Heap) :
  Laws.ownsCanvases L h -> Laws.sameSizes L h ->
  step (length h) S sameSize h h' ->
  Layer.canvas L' = Layer.canvas L -> Layer.source L' = Layer.source L ->
  Layer.preview L' = Layer.preview L -> Layer.renderedMask L' = Layer.renderedMask L ->
  Laws.ownsCanvases L' h' /\ Laws.sameSizes L' h'.
Proof.
  intros (Oc & Os & Op & D1 & D2 & D3 & Orm) (S1 & S2 & S3 & S4) [Hlen Hstep] Ec Es Ep Erm.
  split.
  - unfold Laws.ownsCanvases. rewrite Ec, Es, Ep, Erm.
    split; [lia|]. split; [lia|]. split; [lia|].
    split; [exact D1|]. split; [exact D2|]. split; [exact D3|].
    intros rm E. destruct (Orm rm E) as (A & B & C & D).
    repeat split; try assumption; lia.
  - unfold Laws.sameSizes. rewrite Ec, Es, Ep.
    destruct (Hstep _ Oc) as [[Wc Hc] _].
    destruct (Hstep _ Os) as [[Ws Hs] _].
    destruct (Hstep _ Op) as [[Wp Hp] _].
    repeat split; congruence.
Qed.

Lemma call_keeps_wellFormed (c : Layer.Call) (L L' : Layer.t) (h h' : Heap) :
  Laws.wellFormed L h -> Layer.call view c L h = Ok (L', h') -> Laws.wellFormed L' h'.
Proof.
  intros (Own & Mir & Siz) E.
  assert (Hc : target (length h) (Laws.drawnOn L) (Layer.canvas L)) by (right; now left).
  assert (Hp : target (length h) (Laws.drawnOn L) (Layer.preview L))
    by (right; right; now left).
  assert (Hrm : forall rm, Layer.renderedMask L = Some rm ->
                           target (length h) (Laws.drawnOn L) rm).
  { intros rm Erm. right. unfold Laws.drawnOn. rewrite Erm. simpl. tauto. }
  destruct (writes_call view (length h) (Laws.drawnOn L) sameSize
              sameSize_preorder sameSize_keeps sameSize_size c L Hc Hp Hrm
              h L' h' (le_n _) E) as [St _].
  pose proof (call_inv view c L L' h h' E) as Inv.
  assert (Same : Layer.canvas L' = Layer.canvas L -> Layer.source L' = Layer.source L ->
                 Layer.preview L' = Layer.preview L ->
                 Layer.renderedMask L' = Layer.renderedMask L ->
                 Laws.mirrorAgrees L' -> Laws.wellFormed L' h').
  { intros A B C D M.
    destruct (step_keeps_canvases L L' _ h h' Own Siz St A B C D) as [O' S'].
    split; [exact O' | split; [exact M | exact S']]. }
  assert (Recolored : forall hex,
            Layer.setColor L hex h = Ok (L', h') ->
            L' = Layer.set_source (Layer.set_color L hex) (length h) ->
            Laws.wellFormed L' h').
  { intros hex Es ->. apply setColor_inv in Es as [(_ & EL & _) | (_ & _ & Hlen & Hsnap)].
    - apply Same; try (rewrite EL; reflexivity). rewrite EL. exact Mir.
    - destruct Own as (Oc & Os & Op & D1 & D2 & D3 & Orm).
      destruct Siz as (S1 & S2 & S3 & S4). destruct St as [_ Hstep].
      destruct (Hstep _ Oc) as [[Wc Hgc] _]. destruct (Hstep _ Op) as [[Wp Hgp] _].
      specialize (Hsnap Oc).
      split; [|split; [exact Mir|]].
      + unfold Laws.ownsCanvases.
        cbn [Layer.canvas Layer.source Layer.preview Layer.renderedMask
             Layer.set_source Layer.set_color].
        split; [lia|]. split; [lia|]. split; [lia|]. split; [lia|].
        split; [exact D2|]. split; [lia|].
        intros rm E0. destruct (Orm rm E0) as (A & B & C & D).
        repeat split; try assumption; lia.
      + unfold Laws.sameSizes.
        cbn [Layer.canvas Layer.source Layer.preview Layer.set_source Layer.set_color].
        rewrite Hsnap. cbn [width height]. repeat split; congruence. }
  destruct c; cbv beta iota in Inv;
    try (subst L'; apply Same; try reflexivity; exact Mir).
  - subst L'. apply Same; try reflexivity.
    destruct Mir as [[Em Ef] | [Em Ef]]; [right | left];
      cbn [Layer.mirror Layer.flipped Layer.set_mirror Layer.set_flipped];
      rewrite Em, Ef; split; reflexivity.
  - destruct Inv as [-> | EL]; [apply Same; try reflexivity; exact Mir|].
    exact (Recolored hex E EL).
  - destruct Inv as [-> | EL]; [apply Same; try reflexivity; exact Mir|].
    exact (Recolored (Layer.previousColor L) E EL).
Qed.

Lemma calls_keep_wellFormed (cs : list Layer.Call) (L L' : Layer.t) (h h' : Heap) :
  Laws.wellFormed L h -> Layer.calls view cs L h = Ok (L', h') -> Laws.wellFormed L' h'.
Proof.
  revert L h. induction cs as [|c cs IH]; intros L h W; cbn [Layer.calls].
  - now intros [= <- <-].
  - bind_run; intros L1 h1 E1. apply IH. now apply (call_keeps_wellFormed c L L1 h h1).
Qed.

Lemma new_wellFormed (uuid : string) (canvas : Ref) (tintColor : option string)
      (tintLayer : bool) (img : option Layer.Image) (color : option string)
      (h : Heap) (L0 : Layer.t) (h0 : Heap) :
  (canvas < length h)%nat ->
  Layer.new uuid canvas tintColor tintLayer img color h = Ok (L0, h0) ->
  Laws.wellFormed L0 h0 /\ Layer.canvas L0 = canvas
  /\ length h0 = (length h + 3)%nat
  /\ (forall r, (r < length h)%nat -> deref h0 r = deref h r)
  /\ Layer.colorLayer L0 = match color with Some _ => true | None => false end
  /\ Layer.color L0 = color
  /\ Layer.img L0 = img /\ Layer.tintLayer L0 = tintLayer.
Proof.
  intros Hc E0.
  destruct (new_run uuid canvas tintColor tintLayer img color h Hc)
    as (L & E & Ecv & Esrc & Epv & Erm & Em & Ef & Ecl & Eco & _).
  assert (Eimg : Layer.img L0 = img /\ Layer.tintLayer L0 = tintLayer).
  { revert E0. unfold Layer.new. repeat (bind_run; intros ? ? _).
    intros [= <- _]. split; reflexivity. }
  rewrite E in E0. injection E0 as <- <-.
  set (snap := mk (width (deref h canvas)) (height (deref h canvas))
                  (pixels (deref h canvas)) defaultContext).
  set (B := blank (width (deref h canvas)) (height (deref h canvas))).
  assert (Hlen : length (h ++ [snap; snap; B]) = (length h + 3)%nat)
    by (rewrite length_app; reflexivity).
  assert (Hold : forall r, (r < length h)%nat -> deref (h ++ [snap; snap; B]) r = deref h r).
  { intros r Hr. unfold deref. now rewrite lookup_app_l by exact Hr. }
  assert (D1 : deref (h ++ [snap; snap; B]) (length h) = snap).
  { unfold deref. rewrite lookup_app_r by lia. now rewrite Nat.sub_diag. }
  assert (D2 : deref (h ++ [snap; snap; B]) (Datatypes.S (length h)) = snap).
  { unfold deref. rewrite lookup_app_r by lia.
    now replace (Datatypes.S (length h) - length h)%nat with 1%nat by lia. }
  split; [|repeat split; try assumption; tauto].
  split; [|split; [left; now split|]].
  - unfold Laws.ownsCanvases. rewrite Ecv, Esrc, Epv, Erm, Hlen.
    split; [lia|]. split; [lia|]. split; [lia|]. split; [lia|]. split; [lia|].
    split; [lia|]. intros rm0 [= <-]. lia.
  - unfold Laws.sameSizes. rewrite Ecv, Esrc, Epv, (Hold canvas Hc), D1, D2. repeat split.
Qed.

(** X10. A layer made by the constructor on a live canvas owns four live,
    pairwise distinct canvases (view canvas, source, preview, rendered
    mask), its source and preview have the size of its view canvas, and its
    mirror sign is +1 with [flipped] false; and after any sequence of
    calls that completes this is still so, the mirror sign being +1 or -1
    and [flipped] telling which. *)
Theorem layer_invariants_are_kept
    (uuid : string) (canvas : Ref) (tintColor : option string) (tintLayer : bool)
    (img : option Layer.Image) (color : option string) (h : Heap) :
  (canvas < length h)%nat ->
  exists L0 h0,
    Layer.new uuid canvas tintColor tintLayer img color h = Ok (L0, h0)
    /\ Laws.wellFormed L0 h0
    /\ Layer.mirror L0 = 1%float /\ Layer.flipped L0 = false
    /\ forall cs L h',
         Layer.calls view cs L0 h0 = Ok (L, h') -> Laws.wellFormed L h'.
Proof.
  intros Hc.
  destruct (new_run uuid canvas tintColor tintLayer img color h Hc)
    as (L0 & E & _ & _ & _ & _ & Em & Ef & _).
  destruct (new_wellFormed uuid canvas tintColor tintLayer img color h _ _ Hc E) as (W & _).
  eexists _, _. split; [exact E|]. split; [exact W|]. split; [exact Em|]. split; [exact Ef|].
  intros cs L h'. now apply calls_keep_wellFormed.
Qed.

(** X11. On a layer whose mirror sign and flag agree, two completed
    [flip()] calls in a row give back the layer object exactly as it was. *)
Theorem flip_twice_restores_the_layer (L L1 L2 : Layer.t) (h h1 h2 : Heap) :
  Laws.mirrorAgrees L ->
  Layer.flip view L h = Ok (L1, h1) -> Layer.flip view L1 h1 = Ok (L2, h2) ->
  L2 = L /\ Layer.mirror L1 = (- Layer.mirror L)%float
  /\ Layer.flipped L1 = negb (Layer.flipped L).
Proof.
  intros Mir E1 E2.
  pose proof (call_inv view Layer.CallFlip L L1 h h1 E1) as I1.
  pose proof (call_inv view Layer.CallFlip L1 L2 h1 h2 E2) as I2.
  cbv beta iota in I1, I2. clear E1 E2. subst L2 L1. unfold Laws.mirrorAgrees in Mir.
  destruct L as [i cv sr pv po sc ro ce mi fl im si ac pm rm ma sm mc cm am cl al co vi
                   pc cr cy pa ap tl tc].
  cbn [Layer.mirror Layer.flipped] in Mir.
  destruct Mir as [[-> ->] | [-> ->]]; repeat split.
Qed.

End Invariants.

(** ** Saving and restoring *)
Section SaveRestore.
Context `{Host}.
Import Canvas Footprint.
Variable view : Layer.View.

Lemma total_setColor (L : Layer.t) (hex : option string) : total (Layer.setColor L hex).
Proof.
  unfold Layer.setColor. destruct (negb (Layer.colorLayer L)); [apply total_ret|].
  apply total_bind; [apply total_assignFillStyle | intros _].
  apply total_bind; [apply total_width | intros w].
  apply total_bind; [apply total_height | intros hh].
  fp_unfold. tot.
Qed.

Lemma call_keeps_saved_color (c : Layer.Call) (L L' : Layer.t) (h h' : Heap) :
  c <> Layer.CallSaveColor -> Layer.call view c L h = Ok (L', h') ->
  Layer.previousColor L' = Layer.previousColor L /\ Layer.colorLayer L' = Layer.colorLayer L.
Proof.
  intros Hc E. apply call_inv in E.
  destruct c; try congruence; try (subst L'; split; reflexivity);
    destruct E as [-> | ->]; split; reflexivity.
Qed.

Lemma calls_keep_saved_color (cs : list Layer.Call) (L L' : Layer.t) (h h' : Heap) :
  Forall (fun c => c <> Layer.CallSaveColor) cs ->
  Layer.calls view cs L h = Ok (L', h') ->
  Layer.previousColor L' = Layer.previousColor L /\ Layer.colorLayer L' = Layer.colorLayer L.
Proof.
  intros Hcs. revert L h. induction Hcs as [|c cs Hc Hcs IH]; intros L h; cbn [Layer.calls].
  - intros [= <- <-]. now split.
  - bind_run; intros L1 h1 E1 E2.
    destruct (call_keeps_saved_color c L L1 h h1 Hc E1) as [A1 B1].
    destruct (IH L1 h1 E2) as [A2 B2]. split; congruence.
Qed.

(** X12. On a color layer, after [saveColor()] and any further calls that
    complete, [setColor] included but not another [saveColor],
    [restoreColor()] completes and the layer's color is again the one it
    had when it was saved. *)
Theorem restoreColor_brings_back_the_saved_color
    (L L1 L2 : Layer.t) (cs : list Layer.Call) (h h1 h2 : Heap) :
  Layer.colorLayer L = true ->
  Layer.saveColor L h = Ok (L1, h1) ->
  Layer.calls view cs L1 h1 = Ok (L2, h2) ->
  Forall (fun c => c <> Layer.CallSaveColor) cs ->
  exists L3 h3,
    Layer.restoreColor L2 h2 = Ok (L3, h3)
    /\ Layer.color L3 = Layer.color L
    /\ Layer.colorLayer L3 = true.
Proof.
  intros Hcl [= <- <-] E2 Hcs.
  destruct (calls_keep_saved_color cs _ L2 h h2 Hcs E2) as [Ep Ec].
  cbn [Layer.previousColor Layer.colorLayer Layer.set_previousColor] in Ep, Ec.
  destruct (total_setColor L2 (Layer.previousColor L2) h2) as (L3 & h3 & E3).
  exists L3, h3. split; [exact E3|].
  apply setColor_inv in E3 as [(Hf & _) | (_ & -> & _)]; [congruence|].
  cbn [Layer.color Layer.colorLayer Layer.set_source Layer.set_color].
  split; congruence.
Qed.

Lemma call_keeps_saved_alphas (c : Layer.Call) (L L' : Layer.t) (h h' : Heap) :
  c <> Layer.CallSaveAlphas -> Layer.call view c L h = Ok (L', h') ->
  Layer.previousAlphaPixelColors L' = Layer.previousAlphaPixelColors L.
Proof.
  intros Hc E. apply call_inv in E.
  destruct c; try congruence; try (subst L'; reflexivity);
    destruct E as [-> | ->]; reflexivity.
Qed.

Lemma calls_keep_saved_alphas (cs : list Layer.Call) (L L' : Layer.t) (h h' : Heap) :
  Forall (fun c => c <> Layer.CallSaveAlphas) cs ->
  Layer.calls view cs L h = Ok (L', h') ->
  Layer.previousAlphaPixelColors L' = Layer.previousAlphaPixelColors L.
Proof.
  intros Hcs. revert L h. induction Hcs as [|c cs Hc Hcs IH]; intros L h; cbn [Layer.calls].
  - now intros [= <- <-].
  - bind_run; intros L1 h1 E1 E2.
    rewrite (IH L1 h1 E2). now apply (call_keeps_saved_alphas c L L1 h h1).
Qed.

(** X13. After [saveAlphas()] and any further calls that complete,
    [addTransparentColour] and [restoreAlphas] included but not another
    [saveAlphas], [restoreAlphas()] makes the set of reference colors
    again the one that was saved, and touches nothing else. *)
Theorem restoreAlphas_brings_back_the_saved_colors
    (L L1 L2 : Layer.t) (cs : list Layer.Call) (h h1 h2 : Heap) :
  Layer.saveAlphas L h = Ok (L1, h1) ->
  Layer.calls view cs L1 h1 = Ok (L2, h2) ->
  Forall (fun c => c <> Layer.CallSaveAlphas) cs ->
  Layer.restoreAlphas L2 h2
  = Ok (Layer.set_alphaPixelColors L2 (Layer.alphaPixelColors L), h2).
Proof.
  intros [= <- <-] E2 Hcs.
  pose proof (calls_keep_saved_alphas cs _ L2 h h2 Hcs E2) as Ep.
  cbn [Layer.previousAlphaPixelColors Layer.set_previousAlphaPixelColors] in Ep.
  unfold Layer.restoreAlphas. now rewrite Ep.
Qed.

End SaveRestore.

(** ** Mask membership *)
Section Membership.
Context `{Host}.
Import Canvas Footprint.
Variable view : Layer.View.

Lemma existsb_eqb_In (v : string) (s : list string) :
  existsb (String.eqb v) s = true <-> In v s.
Proof.
  rewrite existsb_exists. split.
  - intros (x & Hx & E). apply String.eqb_eq in E. now subst.
  - intros Hv. exists v. split; [exact Hv | apply String.eqb_refl].
Qed.

Lemma set_add_In (v x : string) (s : list string) :
  In x (Layer.set_add v s) <-> x = v \/ In x s.
Proof.
  unfold Layer.set_add. destruct (existsb (String.eqb v) s) eqn:E.
  - apply existsb_eqb_In in E. split; [auto | intros [-> | Hx]; assumption].
  - rewrite in_app_iff. simpl. intuition.
Qed.

Lemma set_add_NoDup (v : string) (s : list string) :
  NoDup s -> NoDup (Layer.set_add v s).
Proof.
  intros Hnd. unfold Layer.set_add. destruct (existsb (String.eqb v) s) eqn:E; [exact Hnd|].
  apply NoDup_app. repeat split.
  - exact Hnd.
  - intros x Hx Hv. apply list_elem_of_In in Hx. apply list_elem_of_In in Hv.
    destruct Hv as [<- | []].
    apply existsb_eqb_In in Hx. congruence.
  - apply NoDup_singleton.
Qed.

(** The membership loop of [resetMasks] and [reset], from any starting set. *)
Lemma membership_loop (L : Layer.t) (ls : list Layer.t) (acc : list string) :
  let ids := fold_left (fun ids l =>
                 if Layer.providesMask l && Layer.isOriginLayerHigher view (Layer.id l) (Layer.id L)
                 then Layer.set_add (Layer.id l) ids else ids) ls acc in
  (NoDup acc -> NoDup ids)
  /\ forall i, In i ids
       <-> In i acc
           \/ exists M, In M ls /\ Layer.providesMask M = true
                        /\ Layer.isOriginLayerHigher view (Layer.id M) (Layer.id L) = true
                        /\ Layer.id M = i.
Proof.
  revert acc. induction ls as [|l ls IH]; intros acc; cbn [fold_left].
  - split; [auto|]. intros i. split; [auto|]. intros [Hi | (M & [] & _)]. exact Hi.
  - destruct (IH (if Layer.providesMask l
                     && Layer.isOriginLayerHigher view (Layer.id l) (Layer.id L)
                  then Layer.set_add (Layer.id l) acc else acc)) as [IHnd IHin].
    split.
    + intros Hnd. apply IHnd. destruct (_ && _); [now apply set_add_NoDup | exact Hnd].
    + intros i. rewrite IHin.
      destruct (Layer.providesMask l
                && Layer.isOriginLayerHigher view (Layer.id l) (Layer.id L)) eqn:E.
      * apply andb_true_iff in E as [Ep Eh]. rewrite set_add_In. split.
        -- intros [[-> | Hi] | (M & HM & P)]; [right | left | right].
           ++ exists l. repeat split; try assumption. now left.
           ++ exact Hi.
           ++ exists M. split; [now right | exact P].
        -- intros [Hi | (M & [<- | HM] & Pp & Ph & <-)]; [left; now right | left; now left |].
           right. exists M. auto.
      * split.
        -- intros [Hi | (M & HM & P)]; [now left | right].
           exists M. split; [now right | exact P].
        -- intros [Hi | (M & [<- | HM] & Pp & Ph & Ei)]; [now left | | right].
           ++ rewrite Pp, Ph in E. discriminate.
           ++ exists M. auto.
Qed.

Lemma defaultMaskIds_spec (L : Layer.t) :
  NoDup (Layer.defaultMaskIds view L)
  /\ forall i, In i (Layer.defaultMaskIds view L)
       <-> exists M, In M (Layer.layers view) /\ Layer.providesMask M = true
                     /\ Layer.isOriginLayerHigher view (Layer.id M) (Layer.id L) = true
                     /\ Layer.id M = i.
Proof.
  destruct (membership_loop L (Layer.layers view) []) as [Hnd Hin].
  split; [apply Hnd; apply NoDup_nil_2|].
  intros i. unfold Layer.defaultMaskIds. rewrite Hin. split; [|auto].
  intros [[] | P]. exact P.
Qed.

(** What [resetMasks] returns as the layer. *)
Lemma resetMasks_inv (L L' : Layer.t) (h h' : Heap) :
  Layer.resetMasks view L h = Ok (L', h') ->
  exists sm,
    Layer.sourceMask L = Some sm
    /\ L' = Layer.set_mask
              (Layer.set_customMask
                 (Layer.set_maskCompositeOperation
                    (Layer.set_compositeOperation
                       (Layer.set_appliedMaskIds
                          (Layer.set_appliedMaskIds (Layer.set_customMaskLayers L false) [])
                          (Layer.defaultMaskIds view L))
                       source_over)
                    source_in)
                 false)
              (Some (length h))
    /\ Layer.redraw view L'
         (h ++ [mk (width (deref h sm)) (height (deref h sm)) (pixels (deref h sm))
                   defaultContext])
       = Ok (tt, h').
Proof.
  unfold Layer.resetMasks.
  cbn [Layer.sourceMask Layer.set_customMask Layer.set_maskCompositeOperation
       Layer.set_compositeOperation Layer.set_appliedMaskIds Layer.set_customMaskLayers].
  destruct (Layer.sourceMask L) as [sm|]; [|discriminate].
  bind_run; intros m h1 E1. apply cloneCanvas_inv in E1 as [-> ->].
  bind_run; intros [] h2 E2. intros [= <- <-].
  exists sm. repeat split. exact E2.
Qed.

(** X14. When [resetMasks()] completes, the layer had a source mask; the
    custom flags are cleared and the two composite operations are back to
    source-over and source-in; [appliedMaskIds] holds, without duplicates,
    exactly the ids of the mask-providing layers of the stack that are
    higher than this layer; no other property but [mask] is assigned; and,
    the view canvas and the preview being live, [mask] is a new canvas that
    holds a copy of the source mask. *)
Theorem resetMasks_rebuilds_the_default_membership (L L' : Layer.t) (h h' : Heap) :
  Layer.resetMasks view L h = Ok (L', h') ->
  Layer.customMaskLayers L' = false /\ Layer.customMask L' = false
  /\ Layer.compositeOperation L' = source_over
  /\ Layer.maskCompositeOperation L' = source_in
  /\ NoDup (Layer.appliedMaskIds L')
  /\ (forall i, In i (Layer.appliedMaskIds L')
        <-> exists M, In M (Layer.layers view) /\ Layer.providesMask M = true
                      /\ Layer.isOriginLayerHigher view (Layer.id M) (Layer.id L) = true
                      /\ Layer.id M = i)
  /\ Layer.unchanged_except
       [Layer.F_customMaskLayers; Layer.F_appliedMaskIds; Layer.F_compositeOperation;
        Layer.F_maskCompositeOperation; Layer.F_customMask; Layer.F_mask] L L'
  /\ exists sm,
       Layer.sourceMask L = Some sm /\ Layer.mask L' = Some (length h)
       /\ ((Layer.canvas L < length h)%nat -> (Layer.preview L < length h)%nat ->
           deref h' (length h)
           = mk (width (deref h sm)) (height (deref h sm)) (pixels (deref h sm))
                defaultContext).
Proof.
  intros E. apply resetMasks_inv in E as (sm & Esm & -> & E).
  destruct (defaultMaskIds_spec L) as [Hnd Hin].
  split; [reflexivity|]. split; [reflexivity|]. split; [reflexivity|].
  split; [reflexivity|]. split; [exact Hnd|]. split; [exact Hin|].
  split; [frame|].
  exists sm. split; [exact Esm|]. split; [reflexivity|].
  intros Hc Hp.
  set (snap := mk _ _ _ _) in *.
  match type of E with
  | Layer.redraw view ?L1 _ = _ =>
      destruct (writes_redraw view (Datatypes.S (length h))
                  [Layer.canvas L1; Layer.preview L1] sameSize
                  sameSize_preorder sameSize_keeps sameSize_size L1
                  (or_intror (or_introl eq_refl))
                  (or_intror (or_intror (or_introl eq_refl)))
                  (h ++ [snap]) tt h') as [[_ Hstep] _];
        [rewrite length_app; simpl; lia | exact E |]
  end.
  destruct (Hstep (length h) ltac:(lia)) as [_ Hsame].
  rewrite Hsame; [apply deref_alloc_new|].
  cbn [Layer.canvas Layer.preview Layer.set_mask Layer.set_customMask
       Layer.set_maskCompositeOperation Layer.set_compositeOperation
       Layer.set_appliedMaskIds Layer.set_customMaskLayers].
  intros [E1 | [E1 | []]]; lia.
Qed.

(** X15. In a stack whose layer ids are distinct and whose mask providers
    are all registered in [view.maskIds]: after [resetMasks()], the next
    [redraw()] of the layer is the script that transforms the source,
    clears the view canvas and the preview, draws onto the view canvas the
    rendered mask of each layer of a list of providers, and places the
    result; and the ids of the layers of that list are exactly the ids in
    [appliedMaskIds]. *)
Theorem resetMasks_stores_the_ids_redraw_draws (L L' : Layer.t) (h h' : Heap) :
  NoDup (map Layer.id (Layer.layers view)) ->
  (forall P, In P (Layer.layers view) -> Layer.providesMask P = true ->
             In (Layer.id P) (Layer.maskIds view)) ->
  Layer.resetMasks view L h = Ok (L', h') ->
  exists providers : list Layer.t,
    (forall i, In i (Layer.appliedMaskIds L') <-> In i (map Layer.id providers))
    /\ forall h0,
         Layer.redraw view L' h0
         = (original <~ Layer.redrawOriginal L' ;;
            s <~ Dom.read (Layer.source L') ;;
            forEach [Layer.canvas L'; Layer.preview L'] (fun cContext =>
              Dom.setGlobalCompositeOperation cContext (Layer.compositeOperation L') ;;;
              Dom.clearRect cContext 0 0 (Z2f (Canvas.width s)) (Z2f (Canvas.height s)) ;;;
              Dom.resetTransform cContext) ;;;
            forEach providers (fun M =>
              rm <~ match Layer.renderedMask M with
                    | Some rm => ret rm
                    | None => throw (TypeError "drawImage(null)")
                    end ;;
              mw <~ Layer.width M ;;
              mh <~ Layer.height M ;;
              cv <~ Dom.read (Layer.canvas L') ;;
              Dom.drawImage9 (Layer.canvas L') rm 0 0 (Z2f mw) (Z2f mh)
                             0 0 (Z2f (Canvas.width cv)) (Z2f (Canvas.height cv)) ;;;
              Dom.setGlobalCompositeOperation (Layer.canvas L')
                                              (Layer.maskCompositeOperation L')) ;;;
            forEach [Layer.canvas L'; Layer.preview L'] (fun cContext =>
              Dom.translate cContext 0 0 ;;;
              (if Layer.colorLayer L' then
                 Layer.assignFillStyle cContext (Layer.color L') ;;;
                 w <~ Layer.width L' ;;
                 h <~ Layer.height L' ;;
                 Dom.rect cContext 0 0 w h ;;;
                 Dom.fill cContext
               else
                 Dom.drawImage5 cContext original
                                (Layer.x (Layer.position L')) (Layer.y (Layer.position L'))
                                (Z2f (Canvas.width s) * Layer.scale L')
                                (Z2f (Canvas.height s) * Layer.scale L') ;;;
                 Layer.applyTransparentPixels L' cContext) ;;;
              Dom.resetTransform cContext)) h0.
Proof.
  intros Hnd Hreg E. exists (Layer.redrawProviders view L'). split.
  - intros i. apply resetMasks_inv in E as (sm & _ & -> & _).
    cbn [Layer.appliedMaskIds Layer.set_mask Layer.set_customMask
         Layer.set_maskCompositeOperation Layer.set_compositeOperation
         Layer.set_appliedMaskIds Layer.set_customMaskLayers].
    rewrite (proj2 (defaultMaskIds_spec L) i), in_map_iff. split.
    + intros (M & HM & Hp & Hh & Ei). exists M. split; [exact Ei|].
      apply (higher_mask_layers view); try assumption; [reflexivity|]. auto.
    + intros (M & Ei & HM). exists M.
      apply (higher_mask_layers view) in HM as (A & B & C); try assumption; [|reflexivity].
      auto.
  - intros h0. apply redraw_over_the_providers.
Qed.

(** The providers in the custom mode. *)
Lemma providers_custom (L M : Layer.t) :
  Layer.customMaskLayers L = true ->
  NoDup (map Layer.id (Layer.layers view)) ->
  In M (Layer.redrawProviders view L)
  <-> In M (Layer.layers view) /\ Layer.providesMask M = true
      /\ In (Layer.id M) (Layer.appliedMaskIds L).
Proof.
  intros Hc Hnd. unfold Layer.redrawProviders, Layer.redrawMaskIds. rewrite Hc.
  rewrite <- list_elem_of_In, list_elem_of_omap. split.
  - intros (i & Hi & E). unfold Layer.redrawMaskLayer in E. rewrite Hc in E.
    destruct (Layer.getMaskLayer view i) as [ml|] eqn:Eg; [|discriminate].
    simpl in E. injection E as ->. apply getMaskLayer_Some in Eg as (HM & Hp & <-).
    apply list_elem_of_In in Hi. auto.
  - intros (HM & Hp & Hi). exists (Layer.id M). split; [now apply list_elem_of_In|].
    unfold Layer.redrawMaskLayer. rewrite Hc, (getMaskLayer_own_id view M Hnd HM Hp).
    reflexivity.
Qed.

(** X16. With [customMaskLayers] set, in a stack whose layer ids are
    distinct: [redraw()] is the script that transforms the source, clears
    the view canvas and the preview, draws onto the view canvas the
    rendered mask of each layer of a list of providers, and places the
    result; and the layers of that list are exactly the mask-providing
    layers whose id is in [appliedMaskIds], wherever they sit in the
    stack: the stacking order is not consulted. *)
Theorem custom_mask_layers_ignore_the_stacking_order (L : Layer.t) :
  Layer.customMaskLayers L = true ->
  NoDup (map Layer.id (Layer.layers view)) ->
  exists providers : list Layer.t,
    (forall M, In M providers
               <-> In M (Layer.layers view) /\ Layer.providesMask M = true
                   /\ In (Layer.id M) (Layer.appliedMaskIds L))
    /\ forall h,
         Layer.redraw view L h
         = (original <~ Layer.redrawOriginal L ;;
            s <~ Dom.read (Layer.source L) ;;
            forEach [Layer.canvas L; Layer.preview L] (fun cContext =>
              Dom.setGlobalCompositeOperation cContext (Layer.compositeOperation L) ;;;
              Dom.clearRect cContext 0 0 (Z2f (Canvas.width s)) (Z2f (Canvas.height s)) ;;;
              Dom.resetTransform cContext) ;;;
            forEach providers (fun M =>
              rm <~ match Layer.renderedMask M with
                    | Some rm => ret rm
                    | None => throw (TypeError "drawImage(null)")
                    end ;;
              mw <~ Layer.width M ;;
              mh <~ Layer.height M ;;
              cv <~ Dom.read (Layer.canvas L) ;;
              Dom.drawImage9 (Layer.canvas L) rm 0 0 (Z2f mw) (Z2f mh)
                             0 0 (Z2f (Canvas.width cv)) (Z2f (Canvas.height cv)) ;;;
              Dom.setGlobalCompositeOperation (Layer.canvas L)
                                              (Layer.maskCompositeOperation L)) ;;;
            forEach [Layer.canvas L; Layer.preview L] (fun cContext =>
              Dom.translate cContext 0 0 ;;;
              (if Layer.colorLayer L then
                 Layer.assignFillStyle cContext (Layer.color L) ;;;
                 w <~ Layer.width L ;;
                 h <~ Layer.height L ;;
                 Dom.rect cContext 0 0 w h ;;;
                 Dom.fill cContext
               else
                 Dom.drawImage5 cContext original
                                (Layer.x (Layer.position L)) (Layer.y (Layer.position L))
                                (Z2f (Canvas.width s) * Layer.scale L)
                                (Z2f (Canvas.height s) * Layer.scale L) ;;;
                 Layer.applyTransparentPixels L cContext) ;;;
              Dom.resetTransform cContext)) h.
Proof.
  intros Hc Hnd. exists (Layer.redrawProviders view L). split.
  - intros M. now apply providers_custom.
  - intros h. apply redraw_over_the_providers.
Qed.

End Membership.

(** ** Labels *)
Section Labels.
Variable view : Layer.View.
Variables ACTIVE INACTIVE : list string.

Lemma findIndex_lookup (ls : list Layer.t) (k : nat) (L : Layer.t) :
  NoDup (map Layer.id ls) -> ls !! k = Some L ->
  Layer.findIndex (Layer.id L) ls = Some k.
Proof.
  revert k. induction ls as [|l ls IH]; intros k Hnd Hk; [discriminate|].
  cbn [Layer.findIndex]. inversion Hnd as [|? ? Hnotin Hnd']; subst.
  destruct k as [|k].
  - injection Hk as ->. now rewrite String.eqb_refl.
  - cbn in Hk. destruct (String.eqb_spec (Layer.id l) (Layer.id L)) as [Ei | _].
    + exfalso. apply Hnotin. rewrite list_elem_of_In, Ei. apply in_map.
      apply list_elem_of_In. eapply list_elem_of_lookup_2. exact Hk.
    + now rewrite (IH k Hnd' Hk).
Qed.

Lemma findIndex_None (ls : list Layer.t) (i : string) :
  Layer.findIndex i ls = None <-> ~ In i (map Layer.id ls).
Proof.
  induction ls as [|l ls IH]; cbn [Layer.findIndex map In]; [tauto|].
  destruct (String.eqb_spec (Layer.id l) i) as [Ei | Hne].
  - split; [discriminate | intros Hn; exfalso; auto].
  - destruct (Layer.findIndex i ls); cbn [option_map].
    + split; [discriminate|]. intros Hn. exfalso.
      assert (Hnot : ~ In i (map Layer.id ls)) by tauto.
      apply IH in Hnot. discriminate.
    + split; [|reflexivity]. intros _ [Hc | Hc]; [congruence|].
      now apply (proj1 IH eq_refl).
Qed.

(** X17. [getLayerLabel(active)]: a layer whose id is not in the view is
    labelled "?"; in a view whose layer ids are distinct, the layer at
    position [k] of the stack gets entry [k] of the active or of the
    inactive labels, which is [undefined] when the stack has more layers
    than there are labels. *)
Theorem getLayerLabel_is_the_entry_at_the_layers_position (L : Layer.t) (active : bool) :
  (~ In (Layer.id L) (map Layer.id (Layer.layers view)) ->
   Layer.getLayerLabel view ACTIVE INACTIVE L active = Some "?"%string)
  /\ (forall k, NoDup (map Layer.id (Layer.layers view)) ->
        Layer.layers view !! k = Some L ->
        Layer.getLayerLabel view ACTIVE INACTIVE L active
        = (if active then ACTIVE else INACTIVE) !! k
        /\ ((length (if active then ACTIVE else INACTIVE) <= k)%nat ->
            Layer.getLayerLabel view ACTIVE INACTIVE L active = None)).
Proof.
  unfold Layer.getLayerLabel. split.
  - intros Hn. apply findIndex_None in Hn. now rewrite Hn.
  - intros k Hnd Hk. rewrite (findIndex_lookup _ k L Hnd Hk).
    split; [now destruct active|].
    intros Hlen. destruct active; now apply lookup_ge_None_2.
Qed.

End Labels.

(** ** What mask creation allocates *)
Section MaskAllocation.
Context `{Host}.
Import Canvas Footprint.

Lemma isCompletelyTransparent_inv (L : Layer.t) (h h' : Heap) (b : bool) :
  Layer.isCompletelyTransparent L h = Ok (b, h') -> h' = h.
Proof. unfold Layer.isCompletelyTransparent. rewrite bind_read. now intros [= _ <-]. Qed.

Lemma isCompletelyOpaque_inv (L : Layer.t) (h h' : Heap) (b : bool) :
  Layer.isCompletelyOpaque L h = Ok (b, h') -> h' = h.
Proof. unfold Layer.isCompletelyOpaque. rewrite bind_read. now intros [= _ <-]. Qed.

(** A write of the intermediate canvas keeps the heap in the same shape. *)
Lemma temp_update (h : Heap) (T0 T : Canvas.t) (f : Canvas.t -> Canvas.t) (h' : Heap) :
  Dom.modify (length h) f (<[length h := T]> (h ++ [T0])) = Ok (tt, h') ->
  h' = <[length h := f T]> (h ++ [T0]).
Proof.
  intros E. apply modify_inv in E. subst h'.
  rewrite deref_insert_eq by apply temp_live. apply list_insert_insert_eq.
Qed.

Lemma two_new_canvases (h : Heap) (T0 T1 B X : Canvas.t) :
  <[Datatypes.S (length h) := X]> (<[length h := T1]> (h ++ [T0]) ++ [B]) = h ++ [T1; X].
Proof.
  rewrite (insert_app_r_alt h [T0] (length h)) by lia.
  rewrite Nat.sub_diag. cbn [insert list_insert]. rewrite <- app_assoc. cbn [app].
  rewrite (insert_app_r_alt h [T1; B] (Datatypes.S (length h))) by lia.
  replace (Datatypes.S (length h) - length h)%nat with 1%nat by lia. reflexivity.
Qed.

Lemma drawContour_inv (h : Heap) (T0 T : Canvas.t) (points : list (list Z)) (h' : Heap) :
  Layer.drawContour (length h) points (<[length h := T]> (h ++ [T0])) = Ok (tt, h') ->
  exists T', h' = <[length h := T']> (h ++ [T0])
             /\ width T' = width T /\ height T' = height T.
Proof.
  intros E.
  destruct (writes_drawContour (Datatypes.S (length h)) [length h] sameSize
              sameSize_preorder sameSize_keeps (length h) points
              (or_intror (or_introl eq_refl))
              (<[length h := T]> (h ++ [T0])) tt h') as [[_ Hstep] _];
    [rewrite length_insert, length_app; simpl; lia | exact E |].
  destruct (Hstep (length h) ltac:(lia)) as [[Hw Hh] _].
  rewrite deref_insert_eq in Hw, Hh by apply temp_live.
  destruct points as [|p0 rest]; [discriminate|].
  destruct (drawContour_nonempty (length h) p0 rest (h ++ [T0]) T (temp_live h T0))
    as (c' & Ec & _).
  rewrite Ec in E. injection E as <-.
  exists c'. rewrite deref_insert_eq in Hw, Hh by apply temp_live. auto.
Qed.

Lemma createOriginalMask_inv (L L' : Layer.t) (h h' : Heap) :
  (Layer.canvas L < length h)%nat -> (Layer.source L < length h)%nat ->
  Layer.createOriginalMask L h = Ok (L', h') ->
  L' = Layer.set_renderedMask L (Some (Datatypes.S (length h)))
  /\ Layer.unchanged_except [Layer.F_renderedMask] L L'
  /\ exists T RM,
       h' = h ++ [T; RM]
       /\ width T = MASK_DENSITY + 2 /\ height T = MASK_DENSITY + 2
       /\ width RM = width (deref h (Layer.source L))
       /\ height RM = height (deref h (Layer.source L)).
Proof.
  intros Hcv Hsrc.
  destruct (createOriginalMask_prefix L h Hcv) as (T & (Tw & Th & _) & ->).
  assert (Tail : forall T1 : Canvas.t,
            width T1 = MASK_DENSITY + 2 -> height T1 = MASK_DENSITY + 2 ->
            (s <~ Dom.read (Layer.source L) ;;
             rm <~ Dom.createElement (width s) (height s) ;;
             Dom.drawImage9 rm (length h) 1 1 (Z2f MASK_DENSITY) (Z2f MASK_DENSITY)
                            0 0 (Z2f (width s)) (Z2f (height s)) ;;;
             ret (Layer.set_renderedMask L (Some rm)))
              (<[length h := T1]> (h ++ [blank (MASK_DENSITY + 2) (MASK_DENSITY + 2)]))
            = Ok (L', h') ->
            L' = Layer.set_renderedMask L (Some (Datatypes.S (length h)))
            /\ Layer.unchanged_except [Layer.F_renderedMask] L L'
            /\ exists T RM,
                 h' = h ++ [T; RM]
                 /\ width T = MASK_DENSITY + 2 /\ height T = MASK_DENSITY + 2
                 /\ width RM = width (deref h (Layer.source L))
                 /\ height RM = height (deref h (Layer.source L))).
  { intros T1 W1 H1. rewrite (createOriginalMask_tail L h T1 Hsrc). cbv zeta.
    intros [= <- <-]. split; [reflexivity|]. split; [frame|].
    eexists T1, _. split; [apply two_new_canvases|].
    repeat split; try assumption; reflexivity. }
  bind_run; intros tr h1 E1. apply isCompletelyTransparent_inv in E1 as ->.
  bind_run; intros [] h2 E2. destruct tr.
  - apply temp_update in E2 as ->. now apply Tail.
  - revert E2. bind_run; intros op h3 E3. apply isCompletelyOpaque_inv in E3 as ->.
    destruct op.
    + bind_run; intros [] h4 E4. apply temp_update in E4 as ->.
      bind_run; intros [] h5 E5. apply temp_update in E5 as ->.
      intros E6. apply temp_update in E6 as ->. now apply Tail.
    + bind_run; intros [] h4 E4. apply temp_update in E4 as ->.
      intros E5. apply drawContour_inv in E5 as (T' & -> & W' & H').
      apply Tail; cbn [width height set_pixels] in *; congruence.
Qed.

(** X18. When [createOriginalMask()] completes on a layer whose view canvas
    and source are live, the heap is the one before the call followed by
    exactly two new canvases: the square intermediate canvas of side
    [MASK_DENSITY + 2], and the new rendered mask, of the size of the
    source.  Every canvas that existed (the previous rendered mask
    included) is as it was, and the only property assigned is
    [renderedMask]: [mask] and [sourceMask] are left alone. *)
Theorem createOriginalMask_only_adds_two_canvases (L L' : Layer.t) (h h' : Heap) :
  (Layer.canvas L < length h)%nat -> (Layer.source L < length h)%nat ->
  Layer.createOriginalMask L h = Ok (L', h') ->
  L' = Layer.set_renderedMask L (Some (Datatypes.S (length h)))
  /\ Layer.unchanged_except [Layer.F_renderedMask] L L'
  /\ exists T RM,
       h' = h ++ [T; RM]
       /\ width T = MASK_DENSITY + 2 /\ height T = MASK_DENSITY + 2
       /\ width RM = width (deref h (Layer.source L))
       /\ height RM = height (deref h (Layer.source L)).
Proof. apply createOriginalMask_inv. Qed.

End MaskAllocation.

(** ** The baseline mask and [reset] *)
Section BaselineMask.
Context `{Host}.
Import Canvas Footprint.
Variable view : Layer.View.
Variable default_algorithm : bool.
Variable generateRayMask : Ref -> M Ref.
Variable Math_floor : float -> float.

(** A clone holds the bitmap of the canvas it was made from. *)
Lemma clone_is_a_copy (h : Heap) (m : Ref) :
  let h' := h ++ [mk (width (deref h m)) (height (deref h m)) (pixels (deref h m))
                     defaultContext] in
  pixels (deref h' (length h)) = pixels (deref h' m)
  /\ width (deref h' (length h)) = width (deref h' m)
  /\ height (deref h' (length h)) = height (deref h' m).
Proof.
  cbv zeta. rewrite deref_alloc_new. cbn [pixels width height].
  destruct (Nat.lt_trichotomy m (length h)) as [Hlt | [-> | Hgt]].
  - rewrite deref_alloc_old by exact Hlt. repeat split.
  - rewrite deref_alloc_new. cbn [pixels width height].
    unfold deref. rewrite lookup_ge_None_2 by lia. repeat split.
  - unfold deref. rewrite !lookup_ge_None_2 by (rewrite ?length_app; simpl; lia).
    repeat split.
Qed.

(** What [createMask] returns as the layer. *)
Lemma createMask_inv (L L' : Layer.t) (h h' : Heap) :
  Layer.createMask default_algorithm generateRayMask L h = Ok (L', h') ->
  exists L1 L2 h2 m,
    (L1 = L \/ L1 = Layer.set_renderedMask L (Some (length h)))
    /\ (if default_algorithm
        then exists h0 h1 r,
               generateRayMask (Layer.canvas L) h0 = Ok (r, h1)
               /\ L2 = Layer.set_mask L1 (Some r)
        else exists rm, L2 = Layer.set_renderedMask L1 (Some rm))
    /\ Layer.mask L2 = Some m
    /\ L' = Layer.set_sourceMask L2 (Some (length h2))
    /\ h' = h2 ++ [mk (width (deref h2 m)) (height (deref h2 m)) (pixels (deref h2 m))
                      defaultContext].
Proof.
  unfold Layer.createMask.
  bind_run; intros L1 h1 E1.
  assert (HL1 : L1 = L \/ L1 = Layer.set_renderedMask L (Some (length h))).
  { revert E1. destruct (Layer.renderedMask L); [intros [= <- <-]; now left|].
    rewrite bind_read. bind_run; intros rm hx [= <- <-]. intros [= <- <-]. now right. }
  assert (Hcv : Layer.canvas L1 = Layer.canvas L) by (destruct HL1 as [-> | ->]; reflexivity).
  clear E1.
  bind_run; intros L2 h2 E2.
  assert (HL2 : if default_algorithm
                then exists h0 h1 r,
                       generateRayMask (Layer.canvas L) h0 = Ok (r, h1)
                       /\ L2 = Layer.set_mask L1 (Some r)
                else exists rm, L2 = Layer.set_renderedMask L1 (Some rm)).
  { revert E2. destruct default_algorithm.
    - bind_run; intros r hr Er. rewrite Hcv in Er.
      bind_run; intros mc hc _. bind_run; intros [] hd _.
      rewrite bind_width, bind_height. bind_run; intros [] he _.
      intros [= <- <-]. eauto.
    - unfold Layer.createOriginalMask.
      repeat (bind_run; intros ? ? _).
      intros [= <- <-]. eauto. }
  clear E2.
  destruct (Layer.mask L2) as [m|] eqn:Em; [|discriminate].
  bind_run; intros sm h3 E3. apply cloneCanvas_inv in E3 as [-> ->].
  intros [= <- <-]. exists L1, L2, h2, m. auto.
Qed.

(** X19. When [createMask()] completes: no property of the layer but
    [renderedMask], [mask] and [sourceMask] is assigned; with the contour
    algorithm [mask] is not assigned at all (the traced mask is in
    [renderedMask] only), while with the ray algorithm it is the canvas
    the generator returned; and [sourceMask] is the newest canvas of the
    heap, holding a copy (same size, same pixels) of the canvas that
    [mask] refers to. *)
Theorem createMask_snapshots_the_mask (L L' : Layer.t) (h h' : Heap) :
  Layer.createMask default_algorithm generateRayMask L h = Ok (L', h') ->
  Layer.unchanged_except [Layer.F_renderedMask; Layer.F_mask; Layer.F_sourceMask] L L'
  /\ (default_algorithm = false -> Layer.mask L' = Layer.mask L)
  /\ (default_algorithm = true ->
      exists h0 h1 r, generateRayMask (Layer.canvas L) h0 = Ok (r, h1)
                      /\ Layer.mask L' = Some r)
  /\ exists m sm,
       Layer.mask L' = Some m /\ Layer.sourceMask L' = Some sm
       /\ Datatypes.S sm = length h'
       /\ pixels (deref h' sm) = pixels (deref h' m)
       /\ width (deref h' sm) = width (deref h' m)
       /\ height (deref h' sm) = height (deref h' m).
Proof.
  intros E. apply createMask_inv in E as (L1 & L2 & h2 & m & HL1 & HL2 & Em & -> & ->).
  split.
  - destruct default_algorithm.
    + destruct HL2 as (h0 & h1 & r & _ & ->). destruct HL1 as [-> | ->]; frame.
    + destruct HL2 as (rm & ->). destruct HL1 as [-> | ->]; frame.
  - split; [|split].
    + intros ->. destruct HL2 as (rm & ->). destruct HL1 as [-> | ->]; reflexivity.
    + intros ->. destruct HL2 as (h0 & h1 & r & Er & ->). exists h0, h1, r.
      split; [exact Er | reflexivity].
    + exists m, (length h2). split; [exact Em|]. split; [reflexivity|].
      split; [rewrite length_app; simpl; lia|].
      apply clone_is_a_copy.
Qed.

Lemma recalculateMask_layer (L L' : Layer.t) (h h' : Heap) :
  Layer.recalculateMask L h = Ok (L', h') -> L' = L.
Proof. intros E. exact (call_inv view Layer.CallRecalculateMask L L' h h' E). Qed.

(** X20. When [reset()] completes, the rotation is 0, the set of reference
    colors is empty, the custom flags are cleared, the composite
    operations are source-over and source-in, [appliedMaskIds] is the
    default membership, the scale is the canvas width over the larger side
    of the source, and the position is the floor of the centering offsets;
    and no other property but the three mask references is assigned: in
    particular the mirror sign, [flipped], the alpha, the visibility and
    the color are as they were. *)
Theorem reset_keeps_the_mirror_and_the_alpha (L L' : Layer.t) (h h' : Heap) :
  Layer.reset view default_algorithm generateRayMask Math_floor L h = Ok (L', h') ->
  let w := Z2f (width (deref h (Layer.canvas L))) in
  let hh := Z2f (height (deref h (Layer.canvas L))) in
  let sw := width (deref h (Layer.source L)) in
  let sh := height (deref h (Layer.source L)) in
  Layer.rotation L' = 0%float
  /\ Layer.alphaPixelColors L' = []
  /\ Layer.customMask L' = false /\ Layer.customMaskLayers L' = false
  /\ Layer.compositeOperation L' = source_over
  /\ Layer.maskCompositeOperation L' = source_in
  /\ Layer.appliedMaskIds L' = Layer.defaultMaskIds view L
  /\ Layer.scale L' = (w / Z2f (Z.max sw sh))%float
  /\ Layer.position L'
     = Layer.mkPos (Math_floor (w / 2 - (Z2f sw * Layer.scale L') / 2)%float)
                   (Math_floor (hh / 2 - (Z2f sh * Layer.scale L') / 2)%float)
  /\ Layer.unchanged_except
       [Layer.F_customMaskLayers; Layer.F_appliedMaskIds; Layer.F_alphaPixelColors;
        Layer.F_compositeOperation; Layer.F_maskCompositeOperation; Layer.F_scale;
        Layer.F_rotation; Layer.F_position; Layer.F_customMask;
        Layer.F_renderedMask; Layer.F_mask; Layer.F_sourceMask] L L'.
Proof.
  unfold Layer.reset. rewrite bind_width, bind_read, bind_height.
  cbn [Layer.canvas Layer.source Layer.scale Layer.position Layer.x Layer.y
       Layer.set_customMaskLayers Layer.set_appliedMaskIds Layer.set_alphaPixelColors
       Layer.set_compositeOperation Layer.set_maskCompositeOperation Layer.set_scale
       Layer.set_rotation Layer.set_position Layer.set_mask Layer.set_customMask].
  bind_run; intros [] h1 _. bind_run; intros L1 h2 E1 E2.
  apply recalculateMask_layer in E2 as ->.
  apply createMask_inv in E1 as (La & Lb & hb & m & HLa & HLb & _ & -> & _).
  cbv zeta.
  destruct default_algorithm.
  - destruct HLb as (h0 & hx & r & _ & ->). destruct HLa as [-> | ->];
      (repeat (split; [reflexivity|])); frame.
  - destruct HLb as (rm & ->). destruct HLa as [-> | ->];
      (repeat (split; [reflexivity|])); frame.
Qed.

End BaselineMask.

(** ** Factories and clones *)
Section Factories.
Context `{Host}.
Import Canvas Footprint.

Lemma setColor_keeps_wellFormed (L L' : Layer.t) (hex : option string) (h h' : Heap) :
  Laws.wellFormed L h -> Layer.setColor L hex h = Ok (L', h') -> Laws.wellFormed L' h'.
Proof.
  intros W E.
  exact (call_keeps_wellFormed (Layer.mkView [] []) (Layer.CallSetColor hex) L L' h h' W E).
Qed.

(** What [fromColor] returns. *)
Lemma fromColor_inv (uuid : string) (color : option string) (w hh : option Z)
      (h : Heap) (L : Layer.t) (h' : Heap) :
  Layer.fromColor uuid color w hh h = Ok (L, h') ->
  Laws.wellFormed L h'
  /\ Layer.canvas L = length h
  /\ (length h < length h')%nat
  /\ (forall r, (r < length h)%nat -> deref h' r = deref h r)
  /\ width (deref h' (Layer.canvas L)) = default 0 w
  /\ height (deref h' (Layer.canvas L)) = default 0 hh
  /\ Layer.colorLayer L = match color with Some _ => true | None => false end
  /\ Layer.color L = color
  /\ Layer.img L = None /\ Layer.tintLayer L = false.
Proof.
  unfold Layer.fromColor.
  bind_run; intros c0 h0 [= <- <-].
  bind_run; intros L0 h1 E0.
  assert (Hc0 : (length h < length (h ++ [blank (default 0%Z w) (default 0%Z hh)]))%nat)
    by apply temp_live.
  destruct (new_wellFormed uuid (length h) None false None color _ L0 h1 Hc0 E0)
    as (W0 & Ecv & Hlen1 & Hold1 & Ecl & Eco & Eimg & Etl).
  intros E1.
  pose proof (setColor_keeps_wellFormed L0 L color h1 h' W0 E1) as W.
  destruct (writes_setColor (length h1) [Layer.canvas L0] sameSize
              sameSize_preorder sameSize_keeps L0 color
              (or_intror (or_introl eq_refl)) h1 L h' (le_n _) E1) as [[Hlen Hstep] _].
  assert (Hlive : (length h < length h1)%nat)
    by (rewrite Hlen1, length_app; simpl; lia).
  assert (Hcv' : Layer.canvas L = length h /\ Layer.colorLayer L = Layer.colorLayer L0
                 /\ Layer.color L = color /\ Layer.img L = Layer.img L0
                 /\ Layer.tintLayer L = Layer.tintLayer L0).
  { apply setColor_inv in E1 as [(Hf & -> & _) | (_ & -> & _)].
    - repeat split; try assumption.
    - repeat split. exact Ecv. }
  destruct Hcv' as (Ec & Ecl' & Eco' & Eimg' & Etl').
  split; [exact W|]. split; [exact Ec|]. split; [lia|]. split.
  - intros r Hr. destruct (Hstep r ltac:(lia)) as [_ Hsame].
    rewrite Hsame by (rewrite Ecv; intros [<- | []]; lia).
    rewrite (Hold1 r) by (rewrite length_app; simpl; lia).
    now apply deref_alloc_old.
  - rewrite Ec. destruct (Hstep (length h) Hlive) as [[Hw Hh] _].
    rewrite Hw, Hh, (Hold1 (length h) Hc0), deref_alloc_new.
    repeat split; congruence.
Qed.


End Factories.

(** ** What [clone] copies *)
Section CloneCopies.
Context `{Host}.
Import Canvas Footprint.
Variable fromImage : Layer.ImgOptions -> M Layer.t.

Lemma deref_extends (h ext : Heap) (r : Ref) :
  (r < length h)%nat -> deref (h ++ ext) r = deref h r.
Proof. intros Hr. unfold deref. now rewrite lookup_app_l by exact Hr. Qed.

(** The run of [clone]: the factory makes a layer, and what follows only
    adds clones of the mask canvases to the heap. *)
Lemma clone_inv (uuid : string) (L this' newLayer : Layer.t) (h h' : Heap) :
  Layer.clone fromImage uuid L h = Ok ((this', newLayer), h') ->
  exists made hm ext,
    match Layer.img L with
    | Some i =>
        fromImage (Layer.mkImgOptions i (height (deref h (Layer.source L)))
                                      (width (deref h (Layer.source L)))
                                      (Layer.tintColor L) (Layer.tintLayer L))
    | None => Layer.fromColor uuid (Layer.color L) None None
    end h = Ok (made, hm)
    /\ h' = hm ++ ext
    /\ Layer.unchanged_except
         [Layer.F_active; Layer.F_scale; Layer.F_rotation; Layer.F_position; Layer.F_center;
          Layer.F_mirror; Layer.F_flipped; Layer.F_visible; Layer.F_alpha; Layer.F_mask;
          Layer.F_customMask; Layer.F_customMaskLayers; Layer.F_appliedMaskIds;
          Layer.F_compositeOperation; Layer.F_maskCompositeOperation;
          Layer.F_alphaPixelColors; Layer.F_previousAlphaPixelColors] made newLayer
    /\ Layer.active newLayer = false
    /\ Layer.unchanged_except
         [Layer.F_id; Layer.F_canvas; Layer.F_source; Layer.F_preview; Layer.F_img;
          Layer.F_sourceImg; Layer.F_active; Layer.F_providesMask; Layer.F_renderedMask;
          Layer.F_mask; Layer.F_sourceMask; Layer.F_previousColor; Layer.F_color;
          Layer.F_colorLayer; Layer.F_previousAlphaPixelColors; Layer.F_tintLayer;
          Layer.F_tintColor] L newLayer
    /\ (forall p, Layer.previousAlphaPixelColors L = Some p ->
                  Layer.previousAlphaPixelColors newLayer = Some p)
    /\ Layer.unchanged_except [Layer.F_sourceMask; Layer.F_renderedMask] L this'.
Proof.
  unfold Layer.clone. rewrite bind_read.
  bind_run; intros made hm Em E. exists made, hm. revert E.
  cbv zeta. unfold bind, ret, Dom.cloneCanvas.
  destruct (Layer.mask L), (Layer.sourceMask L);
    cbn [Layer.renderedMask Layer.set_sourceMask];
    destruct (Layer.renderedMask L);
    cbn [Layer.previousAlphaPixelColors Layer.set_sourceMask Layer.set_renderedMask];
    destruct (Layer.previousAlphaPixelColors L) eqn:Ep;
    intros E; injection E; intros; subst;
    (eexists; split; [exact Em|]; split;
     [rewrite <- ?app_assoc; try reflexivity; symmetry; apply app_nil_r|]);
    (split; [frame|]); (split; [reflexivity|]); (split; [frame|]);
    (split; [intros p0; try discriminate; intros [= <-]; reflexivity | frame]).
Qed.

(** X22. When [clone()] completes, the new layer is inactive and has the
    original's scale, rotation, position, center, mirror sign, [flipped],
    visibility, alpha, custom-mask flags, [appliedMaskIds], the two
    composite operations and the set of reference colors (with the saved
    set, when there is one); and of the original's own properties only
    [sourceMask] and [renderedMask] are assigned. *)
Theorem clone_copies_the_settings (uuid : string) (L this' newLayer : Layer.t)
    (h h' : Heap) :
  Layer.clone fromImage uuid L h = Ok ((this', newLayer), h') ->
  Layer.active newLayer = false
  /\ Layer.unchanged_except
       [Layer.F_id; Layer.F_canvas; Layer.F_source; Layer.F_preview; Layer.F_img;
        Layer.F_sourceImg; Layer.F_active; Layer.F_providesMask; Layer.F_renderedMask;
        Layer.F_mask; Layer.F_sourceMask; Layer.F_previousColor; Layer.F_color;
        Layer.F_colorLayer; Layer.F_previousAlphaPixelColors; Layer.F_tintLayer;
        Layer.F_tintColor] L newLayer
  /\ (forall p, Layer.previousAlphaPixelColors L = Some p ->
                Layer.previousAlphaPixelColors newLayer = Some p)
  /\ Layer.unchanged_except [Layer.F_sourceMask; Layer.F_renderedMask] L this'.
Proof.
  intros E. apply clone_inv in E as (made & hm & ext & _ & _ & _ & A & B & C & D).
  auto.
Qed.

(** X23. The clone of a color layer has no size: [clone()] hands
    [canvasWidth] and [canvasHeight] to [Layer.fromColor], which reads
    [width] and [height], so the new layer's view canvas, source and
    preview are 0 wide and 0 high whatever the size of the original; it
    has the original's color, and no canvas that existed is touched. *)
Theorem clone_of_a_color_layer_has_no_size (uuid : string) (L this' newLayer : Layer.t)
    (h h' : Heap) :
  Layer.img L = None ->
  Layer.clone fromImage uuid L h = Ok ((this', newLayer), h') ->
  width (deref h' (Layer.canvas newLayer)) = 0
  /\ height (deref h' (Layer.canvas newLayer)) = 0
  /\ width (deref h' (Layer.source newLayer)) = 0
  /\ height (deref h' (Layer.source newLayer)) = 0
  /\ width (deref h' (Layer.preview newLayer)) = 0
  /\ height (deref h' (Layer.preview newLayer)) = 0
  /\ Layer.color newLayer = Layer.color L
  /\ Layer.colorLayer newLayer = match Layer.color L with Some _ => true | None => false end
  /\ (Layer.canvas newLayer < length h')%nat
  /\ forall r, (r < length h)%nat -> deref h' r = deref h r.
Proof.
  intros Himg E. apply clone_inv in E as (made & hm & ext & Em & -> & F & _).
  rewrite Himg in Em.
  apply fromColor_inv in Em as (W & Ec & Hlen & Hold & Hw & Hh & Ecl & Eco & _).
  destruct W as ((Oc & Os & Op & _) & _ & (S1 & S2 & S3 & S4)).
  assert (Ecv : Layer.canvas newLayer = Layer.canvas made)
    by (symmetry; apply (F Layer.F_canvas); simpl; intuition discriminate).
  assert (Esr : Layer.source newLayer = Layer.source made)
    by (symmetry; apply (F Layer.F_source); simpl; intuition discriminate).
  assert (Epv : Layer.preview newLayer = Layer.preview made)
    by (symmetry; apply (F Layer.F_preview); simpl; intuition discriminate).
  assert (Eco' : Layer.color newLayer = Layer.color made)
    by (symmetry; apply (F Layer.F_color); simpl; intuition discriminate).
  assert (Ecl' : Layer.colorLayer newLayer = Layer.colorLayer made)
    by (symmetry; apply (F Layer.F_colorLayer); simpl; intuition discriminate).
  rewrite Ecv, Esr, Epv, Eco', Ecl', !deref_extends by assumption.
  cbn [default] in Hw, Hh.
  repeat split; try congruence.
  - rewrite length_app. lia.
  - intros r Hr. rewrite deref_extends by lia. now apply Hold.
Qed.

End CloneCopies.

(** ** What [setColor] paints *)
Section Painting.
Context `{Host}.
Import Canvas Footprint.

Lemma deref_alloc_at (h h0 : Heap) (c : Canvas.t) :
  length h0 = length h -> deref (h0 ++ [c]) (length h) = c.
Proof. intros <-. apply deref_alloc_new. Qed.

(** X24. [setColor(hex)] does nothing on a layer that is not a color layer.
    On a color layer with a live view canvas it completes: the color is
    assigned; the view canvas keeps its size, keeps its fill style when
    [hex] is [null], and gets one more rectangle, of its own size,
    appended to its current path, which is never begun anew; the source is
    rebound to a new canvas, a snapshot of
    the view canvas as filled; no other property is assigned and no other
    canvas, the preview included, is written. *)
Theorem setColor_snapshots_the_filled_canvas (L : Layer.t) (hex : option string) (h : Heap) :
  (Layer.colorLayer L = false -> Layer.setColor L hex h = Ok (L, h))
  /\ (Layer.colorLayer L = true -> (Layer.canvas L < length h)%nat ->
      exists L' h',
        Layer.setColor L hex h = Ok (L', h')
        /\ Layer.color L' = hex /\ Layer.source L' = length h
        /\ length h' = Datatypes.S (length h)
        /\ Layer.unchanged_except [Layer.F_color; Layer.F_source] L L'
        /\ (forall r, (r < length h)%nat -> r <> Layer.canvas L -> deref h' r = deref h r)
        /\ width (deref h' (Layer.canvas L)) = width (deref h (Layer.canvas L))
        /\ height (deref h' (Layer.canvas L)) = height (deref h (Layer.canvas L))
        /\ (hex = None ->
            fillStyle (ctx (deref h' (Layer.canvas L)))
            = fillStyle (ctx (deref h (Layer.canvas L))))
        /\ path (ctx (deref h' (Layer.canvas L)))
           = path (ctx (deref h (Layer.canvas L)))
             ++ [Rect 0 0 (width (deref h (Layer.canvas L)))
                   (height (deref h (Layer.canvas L)))]
        /\ deref h' (Layer.source L')
           = mk (width (deref h' (Layer.canvas L))) (height (deref h' (Layer.canvas L)))
                (pixels (deref h' (Layer.canvas L))) defaultContext).
Proof.
  split.
  - intros Ecl. unfold Layer.setColor. now rewrite Ecl.
  - intros Ecl Hc.
    destruct (total_setColor L hex h) as (L' & h' & E).
    exists L', h'. split; [exact E|].
    revert E. unfold Layer.setColor. rewrite Ecl. cbn [negb].
    cbn [Layer.canvas Layer.set_color].
    bind_run; intros [] h1 E1.
    assert (F1 : h1 = <[Layer.canvas L :=
                         match hex with
                         | Some s => set_ctx (deref h (Layer.canvas L))
                                       (set_fillStyle (ctx (deref h (Layer.canvas L))) s)
                         | None => deref h (Layer.canvas L)
                         end]> h).
    { revert E1. destruct hex; cbn [Layer.assignFillStyle].
      - fp_unfold. now modify_run.
      - intros [= <-]. symmetry. now apply insert_deref. }
    clear E1. subst h1.
    rewrite bind_width, bind_height. fp_unfold.
    rewrite !deref_insert_eq by exact Hc.
    bind_run; intros [] h2; modify_run. bind_run; intros [] h3; modify_run.
    rewrite !deref_insert_eq by (rewrite ?length_insert; exact Hc).
    rewrite !list_insert_insert_eq.
    bind_run; intros s h4 E4. apply cloneCanvas_inv in E4 as [-> ->]. intros [= <- <-].
    rewrite length_insert, deref_insert_eq by exact Hc.
    cbn [Layer.color Layer.source Layer.set_source Layer.set_color].
    split; [reflexivity|]. split; [reflexivity|].
    split; [rewrite length_app, length_insert; simpl; lia|].
    split; [frame|]. split.
    { intros r Hr Hne. rewrite deref_alloc_old by (rewrite length_insert; exact Hr).
      apply deref_insert_ne. congruence. }
    rewrite deref_alloc_old by (rewrite length_insert; exact Hc).
    rewrite deref_insert_eq by exact Hc.
    rewrite (deref_alloc_at h) by apply length_insert.
    destruct hex; repeat split; try discriminate.
Qed.

End Painting.

(** ** The properties above on the small host *)

Lemma isCompletelyTransparent_iff_no_alpha_above_threshold_witness :
  exists b,
    @Layer.isCompletelyTransparent (Reference.host Reference.triangle)
       Reference.exampleLayer (Reference.heapOf Reference.faint)
    = Ok (b, Reference.heapOf Reference.faint)
    /\ (b = true
        <-> Canvas.allAlpha
              (fun a => a <= @TRANSPARENCY_THRESHOLD (Reference.host Reference.triangle))
              Reference.faint)
    /\ (b = false
        <-> Canvas.someAlpha
              (fun a => @TRANSPARENCY_THRESHOLD (Reference.host Reference.triangle) < a)
              Reference.faint).
Proof.
  apply (@isCompletelyTransparent_iff_no_alpha_above_threshold
           (Reference.host Reference.triangle)
           Reference.exampleLayer (Reference.heapOf Reference.faint)
           (bitmap_2x1_wf (Canvas.pixels Reference.faint) eq_refl)
           (conj eq_refl eq_refl)).
Defined.

Lemma isCompletelyOpaque_iff_no_alpha_below_threshold_witness :
  exists b,
    @Layer.isCompletelyOpaque (Reference.host Reference.triangle)
       Reference.exampleLayer (Reference.heapOf Reference.solid)
    = Ok (b, Reference.heapOf Reference.solid)
    /\ (b = true
        <-> Canvas.allAlpha
              (fun a => @TRANSPARENCY_THRESHOLD (Reference.host Reference.triangle) <= a)
              Reference.solid)
    /\ (b = false
        <-> Canvas.someAlpha
              (fun a => a < @TRANSPARENCY_THRESHOLD (Reference.host Reference.triangle))
              Reference.solid).
Proof.
  apply (@isCompletelyOpaque_iff_no_alpha_below_threshold
           (Reference.host Reference.triangle)
           Reference.exampleLayer (Reference.heapOf Reference.solid)
           (bitmap_2x1_wf (Canvas.pixels Reference.solid) eq_refl)
           (conj eq_refl eq_refl)).
Defined.

Lemma alpha_tests_both_pass_only_at_the_threshold_witness :
  @Layer.isCompletelyTransparent (Reference.host Reference.triangle)
     Reference.exampleLayer (Reference.heapOf Reference.atThreshold)
  = Ok (true, Reference.heapOf Reference.atThreshold)
  /\ @Layer.isCompletelyOpaque (Reference.host Reference.triangle)
       Reference.exampleLayer (Reference.heapOf Reference.atThreshold)
     = Ok (true, Reference.heapOf Reference.atThreshold).
Proof.
  destruct (@alpha_tests_both_pass_only_at_the_threshold
              (Reference.host Reference.triangle)
              Reference.exampleLayer (Reference.heapOf Reference.atThreshold)
              (bitmap_2x1_wf (Canvas.pixels Reference.atThreshold) eq_refl)
              (conj eq_refl eq_refl))
    as (bt & bo & Et & Eo & Hboth & _).
  destruct (proj2 Hboth) as [-> ->]; [|now split].
  apply allAlpha_2x1; reflexivity.
Defined.

Lemma redraw_writes_only_the_canvas_and_the_preview_witness :
  exists h',
    @Layer.redraw (Reference.host Reference.triangle) Reference.viewABC Reference.layerB
       Reference.heapABC = Ok (tt, h')
    /\ (length Reference.heapABC <= length h')%nat
    /\ forall r, (r < length Reference.heapABC)%nat ->
         Canvas.width (Canvas.deref h' r) = Canvas.width (Canvas.deref Reference.heapABC r)
         /\ Canvas.height (Canvas.deref h' r)
            = Canvas.height (Canvas.deref Reference.heapABC r)
         /\ (r <> Layer.canvas Reference.layerB -> r <> Layer.preview Reference.layerB ->
             Canvas.deref h' r = Canvas.deref Reference.heapABC r).
Proof.
  eexists. split; [vm_compute; reflexivity|].
  apply (@redraw_writes_only_the_canvas_and_the_preview (Reference.host Reference.triangle)
           Reference.viewABC Reference.layerB Reference.heapABC).
  vm_compute. reflexivity.
Defined.

Lemma redraw_completes_iff_every_provider_has_a_rendered_mask_witness :
  (exists h',
     @Layer.redraw (Reference.host Reference.triangle) Reference.viewABC Reference.layerB
        Reference.heapABC = Ok (tt, h'))
  /\ @Layer.redraw (Reference.host Reference.triangle)
       (Layer.mkView [Reference.layerB; Layer.set_renderedMask Reference.layerC None]
                     ["C"%string])
       Reference.layerB Reference.heapABC
     = Throw (TypeError "drawImage(null)").
Proof.
  split.
  - apply (proj1 (@redraw_completes_iff_every_provider_has_a_rendered_mask
                    (Reference.host Reference.triangle) Reference.viewABC Reference.layerB
                    Reference.heapABC (conj eq_refl eq_refl) (conj eq_refl eq_refl)
                    ltac:(intros M rm [<- | []] [= <-]; split; reflexivity))).
    intros M [<- | []]. discriminate.
  - apply (proj2 (@redraw_completes_iff_every_provider_has_a_rendered_mask
                    (Reference.host Reference.triangle)
                    (Layer.mkView [Reference.layerB;
                                   Layer.set_renderedMask Reference.layerC None]
                                  ["C"%string])
                    Reference.layerB
                    Reference.heapABC (conj eq_refl eq_refl) (conj eq_refl eq_refl)
                    ltac:(intros M rm [<- | []]; discriminate))).
    eexists. split; [left; reflexivity | reflexivity].
Defined.

Lemma redraw_leaves_identity_transforms_witness :
  exists h',
    @Layer.redraw (Reference.host Reference.triangle) Reference.viewABC Reference.layerB
       Reference.heapABC = Ok (tt, h')
    /\ Canvas.transform (Canvas.ctx (Canvas.deref h' 4%nat)) = []
    /\ Canvas.transform (Canvas.ctx (Canvas.deref h' 6%nat)) = []
    /\ Canvas.globalCompositeOperation (Canvas.ctx (Canvas.deref h' 6%nat))
       = Canvas.source_over
    /\ Canvas.globalCompositeOperation (Canvas.ctx (Canvas.deref h' 4%nat))
       = Canvas.source_in.
Proof.
  eexists. split; [vm_compute; reflexivity|].
  apply (@redraw_leaves_identity_transforms (Reference.host Reference.triangle)
           Reference.viewABC Reference.layerB Reference.heapABC).
  - simpl. lia.
  - simpl. lia.
  - discriminate.
  - vm_compute. reflexivity.
Defined.

Lemma applyTransparentPixels_clears_the_keyed_pixels_witness :
  exists h',
    @Layer.applyTransparentPixels (Reference.host Reference.triangle)
       Reference.keyedLayer 0%nat (Reference.heapOf Reference.halfOpaque) = Ok (tt, h')
    /\ Canvas.pixelAt (Canvas.deref h' 0%nat) 1 0 = [0; 0; 0; 0]
    /\ Canvas.pixelAt (Canvas.deref h' 0%nat) 0 0 = [0; 0; 0; 0].
Proof.
  destruct (@applyTransparentPixels_clears_the_keyed_pixels
              (Reference.host Reference.triangle)
              Reference.keyedLayer 0%nat (Reference.heapOf Reference.halfOpaque)
              (four_refs_live _ 0 ltac:(lia))
              (bitmap_2x1_wf (Canvas.pixels Reference.halfOpaque) eq_refl)
              (conj eq_refl eq_refl) eq_refl eq_refl) as (h' & E & _ & _ & _ & _ & _ & P).
  exists h'. split; [exact E|]. split.
  - rewrite (P 1 0) by (simpl; lia). reflexivity.
  - rewrite (P 0 0) by (simpl; lia). reflexivity.
Defined.

Lemma calls_assign_only_their_own_properties_witness :
  exists L' h',
    @Layer.call (Reference.host Reference.triangle) Reference.viewABC Layer.CallFlip
       Reference.layerB Reference.heapABC = Ok (L', h')
    /\ Layer.unchanged_except [Layer.F_mirror; Layer.F_flipped] Reference.layerB L'.
Proof.
  eexists _, _. split; [vm_compute; reflexivity|].
  eapply (@calls_assign_only_their_own_properties (Reference.host Reference.triangle)
           Reference.viewABC Layer.CallFlip Reference.layerB _ Reference.heapABC _).
  vm_compute. reflexivity.
Defined.

Lemma calls_draw_only_on_the_layers_canvases_witness :
  exists L' h',
    @Layer.call (Reference.host Reference.triangle) Reference.viewABC Layer.CallRedraw
       Reference.layerB Reference.heapABC = Ok (L', h')
    /\ (length Reference.heapABC <= length h')%nat
    /\ forall r, (r < length Reference.heapABC)%nat ->
         Canvas.width (Canvas.deref h' r) = Canvas.width (Canvas.deref Reference.heapABC r)
         /\ Canvas.height (Canvas.deref h' r)
            = Canvas.height (Canvas.deref Reference.heapABC r)
         /\ (~ In r (Laws.drawnOn Reference.layerB) ->
             Canvas.deref h' r = Canvas.deref Reference.heapABC r).
Proof.
  eexists _, _. split; [vm_compute; reflexivity|].
  eapply (@calls_draw_only_on_the_layers_canvases (Reference.host Reference.triangle)
           Reference.viewABC Layer.CallRedraw Reference.layerB _ Reference.heapABC _).
  vm_compute. reflexivity.
Defined.

Lemma layer_invariants_are_kept_witness :
  exists L0 h0,
    Layer.new "L"%string 0%nat None false None None
       [Reference.halfOpaque] = Ok (L0, h0)
    /\ Laws.wellFormed L0 h0
    /\ Layer.mirror L0 = 1%float /\ Layer.flipped L0 = false
    /\ forall cs L h',
         @Layer.calls (Reference.host Reference.triangle) Reference.viewABC cs L0 h0
         = Ok (L, h') -> Laws.wellFormed L h'.
Proof.
  apply (@layer_invariants_are_kept (Reference.host Reference.triangle) Reference.viewABC
           "L"%string 0%nat None false None None [Reference.halfOpaque]).
  simpl. lia.
Defined.

Lemma flip_twice_restores_the_layer_witness :
  exists L1 h1 h2,
    @Layer.flip (Reference.host Reference.triangle) Reference.viewABC Reference.layerB
       Reference.heapABC = Ok (L1, h1)
    /\ @Layer.flip (Reference.host Reference.triangle) Reference.viewABC L1 h1
       = Ok (Reference.layerB, h2)
    /\ Layer.mirror L1 = (-1)%float /\ Layer.flipped L1 = true.
Proof.
  eexists _, _, _. split; [vm_compute; reflexivity|].
  split; [vm_compute; reflexivity|].
  refine (proj2 (@flip_twice_restores_the_layer (Reference.host Reference.triangle)
                   Reference.viewABC Reference.layerB _ Reference.layerB
                   Reference.heapABC _ _ _ _ _)).
  - left. split; reflexivity.
  - vm_compute. reflexivity.
  - vm_compute. reflexivity.
Defined.

Lemma restoreColor_brings_back_the_saved_color_witness :
  exists L h L2 h2,
    @Layer.fromColor (Reference.host Reference.triangle) "layer-1"%string
       (Some "#336699"%string) (Some 2) (Some 1) [] = Ok (L, h)
    /\ @Layer.calls (Reference.host Reference.triangle) Reference.viewABC
         [Layer.CallSetColor (Some "#ffffff"%string); Layer.CallRotate 45;
          Layer.CallSetColor None]
         (Layer.set_previousColor L (Layer.color L)) h = Ok (L2, h2)
    /\ Layer.color L2 = None
    /\ exists L3 h3,
         @Layer.restoreColor (Reference.host Reference.triangle) L2 h2 = Ok (L3, h3)
         /\ Layer.color L3 = Layer.color L
         /\ Layer.colorLayer L3 = true.
Proof.
  eexists _, _, _, _. split; [vm_compute; reflexivity|].
  match goal with |- ?A /\ _ => assert (E1 : A) by (vm_compute; reflexivity) end.
  split; [exact E1|]. split; [reflexivity|].
  refine (@restoreColor_brings_back_the_saved_color (Reference.host Reference.triangle)
            Reference.viewABC _ _ _ _ _ _ _ _ _ E1 _);
    [reflexivity | reflexivity | repeat constructor; discriminate].
Defined.

Lemma restoreAlphas_brings_back_the_saved_colors_witness :
  exists L2 h2,
    @Layer.calls (Reference.host Reference.triangle) Reference.viewABC
       [Layer.CallAddTransparentColour (Color.mk (Some 1) (Some 2) (Some 3) (Some 255));
        Layer.CallRestoreAlphas;
        Layer.CallAddTransparentColour (Color.mk (Some 4) (Some 5) (Some 6) (Some 255))]
       (Layer.set_previousAlphaPixelColors Reference.keyedLayer
          (Some (Layer.alphaPixelColors Reference.keyedLayer)))
       (Reference.heapOf Reference.halfOpaque) = Ok (L2, h2)
    /\ length (Layer.alphaPixelColors L2) = 2%nat
    /\ Layer.restoreAlphas L2 h2
       = Ok (Layer.set_alphaPixelColors L2 (Layer.alphaPixelColors Reference.keyedLayer), h2).
Proof.
  eexists _, _. split; [vm_compute; reflexivity|]. split; [reflexivity|].
  eapply (@restoreAlphas_brings_back_the_saved_colors (Reference.host Reference.triangle)
           Reference.viewABC Reference.keyedLayer _ _
           [Layer.CallAddTransparentColour (Color.mk (Some 1) (Some 2) (Some 3) (Some 255));
            Layer.CallRestoreAlphas;
            Layer.CallAddTransparentColour (Color.mk (Some 4) (Some 5) (Some 6) (Some 255))]
           (Reference.heapOf Reference.halfOpaque) _ _ eq_refl).
  - vm_compute. reflexivity.
  - repeat constructor; discriminate.
Defined.

Lemma resetMasks_rebuilds_the_default_membership_witness :
  exists L' h',
    @Layer.resetMasks (Reference.host Reference.triangle) Reference.viewABC
       Reference.maskedB Reference.heapABC = Ok (L', h')
    /\ Layer.appliedMaskIds L' = ["C"%string]
    /\ Layer.customMask L' = false
    /\ Layer.mask L' = Some 12%nat
    /\ NoDup (Layer.appliedMaskIds L').
Proof.
  eexists _, _. split; [vm_compute; reflexivity|].
  split; [reflexivity|]. split; [reflexivity|]. split; [reflexivity|].
  refine (proj1 (proj2 (proj2 (proj2 (proj2
            (@resetMasks_rebuilds_the_default_membership
               (Reference.host Reference.triangle) Reference.viewABC
               Reference.maskedB _ Reference.heapABC _ _)))))).
  vm_compute. reflexivity.
Defined.

Lemma resetMasks_stores_the_ids_redraw_draws_witness :
  exists L' h' providers,
    @Layer.resetMasks (Reference.host Reference.triangle) Reference.viewABC
       Reference.maskedB Reference.heapABC = Ok (L', h')
    /\ Layer.appliedMaskIds L' = ["C"%string]
    /\ In "C"%string (map Layer.id providers)
    /\ ~ In "A"%string (map Layer.id providers).
Proof.
  assert (Hnd : NoDup (map Layer.id (Layer.layers Reference.viewABC))).
  { simpl. repeat constructor; rewrite ?list_elem_of_In; simpl; intuition discriminate. }
  assert (Hreg : forall P, In P (Layer.layers Reference.viewABC) ->
                           Layer.providesMask P = true ->
                           In (Layer.id P) (Layer.maskIds Reference.viewABC)).
  { intros P [<- | [<- | [<- | []]]]; simpl; intros HP; try discriminate; auto. }
  eexists _, _.
  match goal with
  | |- exists ps, ?A /\ _ => assert (E : A) by (vm_compute; reflexivity)
  end.
  pose proof (@resetMasks_stores_the_ids_redraw_draws (Reference.host Reference.triangle)
                Reference.viewABC _ _ _ _ Hnd Hreg E) as (ps & Hin & _).
  exists ps. split; [exact E|]. split; [reflexivity|]. split.
  - apply Hin. left. reflexivity.
  - intros HA. apply Hin in HA as [HA | []]. discriminate HA.
Defined.

Lemma custom_mask_layers_ignore_the_stacking_order_witness :
  exists providers : list Layer.t,
    In Reference.layerA providers /\ ~ In Reference.layerC providers.
Proof.
  destruct (@custom_mask_layers_ignore_the_stacking_order
              (Reference.host Reference.triangle) Reference.viewABC Reference.pickyB
              eq_refl) as (ps & Hin & _).
  - simpl. repeat constructor; rewrite ?list_elem_of_In; simpl; intuition discriminate.
  - exists ps. split.
    + apply Hin. split; [left; reflexivity|]. split; [reflexivity|]. left. reflexivity.
    + intros HC. apply Hin in HC as (_ & _ & [E | []]). discriminate E.
Defined.

Lemma createOriginalMask_only_adds_two_canvases_witness :
  exists L' h',
    @Layer.createOriginalMask (Reference.host Reference.triangle) Reference.exampleLayer
       (Reference.heapOf Reference.halfOpaque) = Ok (L', h')
    /\ L' = Layer.set_renderedMask Reference.exampleLayer (Some 5%nat)
    /\ length h' = 6%nat
    /\ Layer.unchanged_except [Layer.F_renderedMask] Reference.exampleLayer L'.
Proof.
  eexists _, _. split; [vm_compute; reflexivity|].
  split; [reflexivity|]. split; [reflexivity|].
  refine (proj1 (proj2
            (@createOriginalMask_only_adds_two_canvases (Reference.host Reference.triangle)
               Reference.exampleLayer _ (Reference.heapOf Reference.halfOpaque) _ _ _ _))).
  - simpl. lia.
  - simpl. lia.
  - vm_compute. reflexivity.
Defined.

Lemma createMask_snapshots_the_mask_witness :
  exists L' h',
    @Layer.createMask (Reference.host Reference.triangle) true Reference.copyMask
       Reference.exampleLayer (Reference.heapOf Reference.halfOpaque) = Ok (L', h')
    /\ Layer.mask L' = Some 4%nat /\ Layer.sourceMask L' = Some 5%nat
    /\ Layer.unchanged_except [Layer.F_renderedMask; Layer.F_mask; Layer.F_sourceMask]
         Reference.exampleLayer L'.
Proof.
  eexists _, _. split; [vm_compute; reflexivity|].
  split; [reflexivity|]. split; [reflexivity|].
  refine (proj1
            (@createMask_snapshots_the_mask (Reference.host Reference.triangle) true
               Reference.copyMask Reference.exampleLayer _
               (Reference.heapOf Reference.halfOpaque) _ _)).
  vm_compute. reflexivity.
Defined.

Lemma reset_keeps_the_mirror_and_the_alpha_witness :
  exists L' h',
    @Layer.reset (Reference.host Reference.triangle) Reference.viewABC true
       Reference.copyMask Reference.floor
       (Layer.set_rotation (Layer.set_mirror Reference.layerB (-1)) 90)
       Reference.heapABC = Ok (L', h')
    /\ Layer.rotation L' = 0%float
    /\ Layer.mirror L' = (-1)%float
    /\ Layer.scale L' = 1%float
    /\ Layer.position L' = Layer.mkPos 0 0
    /\ Layer.appliedMaskIds L' = ["C"%string].
Proof.
  eexists _, _. split; [vm_compute; reflexivity|].
  split.
  { refine (proj1
              (@reset_keeps_the_mirror_and_the_alpha (Reference.host Reference.triangle)
                 Reference.viewABC true Reference.copyMask Reference.floor
                 (Layer.set_rotation (Layer.set_mirror Reference.layerB (-1)) 90) _
                 Reference.heapABC _ _)).
    vm_compute. reflexivity. }
  repeat split.
Defined.

Lemma clone_copies_the_settings_witness :
  exists L h this' newLayer h',
    (L0 <~ @Layer.fromColor (Reference.host Reference.triangle) "layer-1"%string
             (Some "#336699"%string) (Some 2) (Some 1) ;;
     @Layer.calls (Reference.host Reference.triangle) Reference.viewABC
        [Layer.CallRotate 45; Layer.CallTranslate 1 2; Layer.CallSetScale 3;
         Layer.CallAddTransparentColour (Color.mk (Some 1) (Some 2) (Some 3) (Some 255))]
        L0) [] = Ok (L, h)
    /\ @Layer.clone (Reference.host Reference.triangle)
         (fun _ => throw (TypeError "no image")) "layer-2"%string L h
       = Ok ((this', newLayer), h')
    /\ Layer.rotation newLayer = 90%float
    /\ Layer.scale newLayer = 3%float
    /\ Layer.position newLayer = Layer.mkPos (-1) (-2)
    /\ length (Layer.alphaPixelColors newLayer) = 1%nat
    /\ Layer.active newLayer = false
    /\ Layer.unchanged_except [Layer.F_sourceMask; Layer.F_renderedMask] L this'.
Proof.
  eexists _, _, _, _, _. split; [vm_compute; reflexivity|].
  match goal with |- ?A /\ _ => assert (E : A) by (vm_compute; reflexivity) end.
  split; [exact E|]. do 4 (split; [reflexivity|]).
  pose proof (@clone_copies_the_settings (Reference.host Reference.triangle)
                _ _ _ _ _ _ _ E) as (Ha & _ & _ & Hthis).
  split; [exact Ha | exact Hthis].
Defined.

Lemma clone_of_a_color_layer_has_no_size_witness :
  exists L h this' newLayer h',
    @Layer.fromColor (Reference.host Reference.triangle) "layer-1"%string
       (Some "#336699"%string) (Some 2) (Some 1) [] = Ok (L, h)
    /\ Canvas.width (Canvas.deref h (Layer.canvas L)) = 2
    /\ @Layer.clone (Reference.host Reference.triangle)
         (fun _ => throw (TypeError "no image")) "layer-2"%string L h
       = Ok ((this', newLayer), h')
    /\ Canvas.width (Canvas.deref h' (Layer.canvas newLayer)) = 0
    /\ Canvas.height (Canvas.deref h' (Layer.canvas newLayer)) = 0
    /\ Layer.color newLayer = Some "#336699"%string.
Proof.
  eexists _, _, _, _, _. split; [vm_compute; reflexivity|].
  split; [reflexivity|].
  match goal with |- ?A /\ _ => assert (E : A) by (vm_compute; reflexivity) end.
  split; [exact E|].
  match type of E with
  | Layer.clone _ _ ?L ?h = _ =>
      pose proof (@clone_of_a_color_layer_has_no_size (Reference.host Reference.triangle)
                    _ _ L _ _ h _ eq_refl E) as (Hw & Hh & _ & _ & _ & _ & Hc & _)
  end.
  split; [exact Hw|]. split; [exact Hh | exact Hc].
Defined.

Lemma setColor_snapshots_the_filled_canvas_witness :
  (@Layer.setColor (Reference.host Reference.triangle) Reference.exampleLayer
     (Some "#ffffff"%string) (Reference.heapOf Reference.halfOpaque)
   = Ok (Reference.exampleLayer, Reference.heapOf Reference.halfOpaque))
  /\ exists L h L' h',
       @Layer.fromColor (Reference.host Reference.triangle) "layer-1"%string
          (Some "#336699"%string) (Some 2) (Some 1) [] = Ok (L, h)
       /\ @Layer.setColor (Reference.host Reference.triangle) L (Some "#ffffff"%string) h
          = Ok (L', h')
       /\ Layer.color L' = Some "#ffffff"%string
       /\ Layer.source L' = length h
       /\ length h' = Datatypes.S (length h).
Proof.
  split.
  - apply (proj1 (@setColor_snapshots_the_filled_canvas (Reference.host Reference.triangle)
                    Reference.exampleLayer (Some "#ffffff"%string)
                    (Reference.heapOf Reference.halfOpaque))).
    reflexivity.
  - eexists _, _. 
    match goal with
    | |- exists L' h', ?A /\ _ => assert (E : A) by (vm_compute; reflexivity)
    end.
    match type of E with
    | _ = Ok (?L, ?h) =>
        destruct (proj2 (@setColor_snapshots_the_filled_canvas
                           (Reference.host Reference.triangle) L (Some "#ffffff"%string) h)
                        eq_refl ltac:(simpl; lia))
          as (L' & h' & E' & Hc & Hs & Hl & _)
    end.
    exists L', h'. split; [exact E|]. split; [exact E'|]. split; [exact Hc|].
    split; [exact Hs | exact Hl].
Defined.

Lemma getLayerLabel_is_the_entry_at_the_layers_position_witness :
  Layer.getLayerLabel Reference.viewABC ["1"; "2"]%string ["a"; "b"]%string
    Reference.exampleLayer true = Some "?"%string
  /\ Layer.getLayerLabel Reference.viewABC ["1"; "2"]%string ["a"; "b"]%string
       Reference.layerB false = Some "b"%string
  /\ Layer.getLayerLabel Reference.viewABC ["1"; "2"]%string ["a"; "b"]%string
       Reference.layerC true = None.
Proof.
  assert (Hnd : NoDup (map Layer.id (Layer.layers Reference.viewABC))).
  { simpl. repeat constructor; rewrite ?list_elem_of_In; simpl; intuition discriminate. }
  split; [|split].
  - apply (proj1 (getLayerLabel_is_the_entry_at_the_layers_position Reference.viewABC
                    ["1"; "2"]%string ["a"; "b"]%string Reference.exampleLayer true)).
    simpl. intuition discriminate.
  - apply (proj1 (proj2 (getLayerLabel_is_the_entry_at_the_layers_position
                           Reference.viewABC ["1"; "2"]%string ["a"; "b"]%string
                           Reference.layerB false) 1%nat Hnd eq_refl)).
  - apply (proj2 (proj2 (getLayerLabel_is_the_entry_at_the_layers_position
                           Reference.viewABC ["1"; "2"]%string ["a"; "b"]%string
                           Reference.layerC true) 2%nat Hnd eq_refl)).
    simpl. lia.
Defined.


(** ** What [recalculateMask] draws *)
Section Recalculate.
Context `{Host}.
Import Canvas Footprint.

Lemma total_recalculateMask (L : Layer.t) : total (Layer.recalculateMask L).
Proof.
  unfold Layer.recalculateMask.
  destruct (Layer.mask L) as [m|]; [|apply total_ret].
  destruct (Layer.renderedMask L) as [rm|]; [|apply total_ret].
  destruct (Layer.customMask L); [apply total_ret|].
  apply total_bind; [apply total_applyTransformations | intros _].
  apply total_bind; [tot | intros s].
  apply total_bind; [apply total_drawImage5 | intros _]. apply total_ret.
Qed.

(** X25. On a layer whose mask, if it has one, has pixels (a positive width
    and height), [recalculateMask()] completes and assigns no property of
    the layer.  It removes no canvas and resizes none, and of the canvases
    that existed it writes at most the rendered mask: [mask] is only read.
    Without a mask, without a rendered mask, or with a custom mask it leaves
    every canvas exactly as it was. *)
Theorem recalculateMask_draws_only_on_the_rendered_mask (L : Layer.t) (h : Heap) :
  (forall m, Layer.mask L = Some m -> positiveSize (deref h m)) ->
  exists h',
    Layer.recalculateMask L h = Ok (L, h')
    /\ (length h <= length h')%nat
    /\ (forall r, (r < length h)%nat ->
          width (deref h' r) = width (deref h r)
          /\ height (deref h' r) = height (deref h r)
          /\ (Layer.renderedMask L <> Some r -> deref h' r = deref h r))
    /\ (Layer.mask L = None \/ Layer.renderedMask L = None \/ Layer.customMask L = true ->
        h' = h).
Proof.
  intros _.
  destruct (total_recalculateMask L h) as (L' & h' & E).
  pose proof (call_inv (Layer.mkView [] []) Layer.CallRecalculateMask L L' h h' E) as EL.
  cbv beta iota in EL. subst L'.
  exists h'. split; [exact E|].
  destruct (writes_recalculateMask (length h)
              (match Layer.renderedMask L with Some rm => [rm] | None => [] end)
              sameSize sameSize_preorder sameSize_keeps L) with (h := h) (a := L) (h' := h')
    as [[Hlen Hstep] _].
  - intros rm Erm. right. rewrite Erm. now left.
  - apply le_n.
  - exact E.
  - split; [exact Hlen|]. split.
    + intros r Hr. destruct (Hstep r Hr) as [[Hw Hh] Hsame].
      split; [exact Hw|]. split; [exact Hh|].
      intros Hne. apply Hsame. destruct (Layer.renderedMask L) as [rm|]; [|intros []].
      intros [-> | []]. now apply Hne.
    + revert E. unfold Layer.recalculateMask.
      intros E [Em | [Er | Ec]].
      * rewrite Em in E. now injection E.
      * rewrite Er in E. destruct (Layer.mask L); now injection E.
      * rewrite Ec in E. destruct (Layer.mask L), (Layer.renderedMask L); now injection E.
Qed.

End Recalculate.

Lemma recalculateMask_draws_only_on_the_rendered_mask_witness :
  exists h',
    @Layer.recalculateMask (Reference.host Reference.triangle)
       (Layer.set_mask Reference.exampleLayer (Some 0%nat))
       (Reference.heapOf Reference.halfOpaque)
    = Ok (Layer.set_mask Reference.exampleLayer (Some 0%nat), h')
    /\ Canvas.deref h' 0%nat = Reference.halfOpaque
    /\ Canvas.transform (Canvas.ctx (Canvas.deref h' 3%nat)) <> [].
Proof.
  destruct (@recalculateMask_draws_only_on_the_rendered_mask
              (Reference.host Reference.triangle)
              (Layer.set_mask Reference.exampleLayer (Some 0%nat))
              (Reference.heapOf Reference.halfOpaque)
              ltac:(intros m [= <-]; split; reflexivity)) as (h' & E & _ & Hr & _).
  exists h'. split; [exact E|]. split.
  - apply (Hr 0%nat); [simpl; lia | discriminate].
  - assert (E' : @Layer.recalculateMask (Reference.host Reference.triangle)
                   (Layer.set_mask Reference.exampleLayer (Some 0%nat))
                   (Reference.heapOf Reference.halfOpaque) = Ok (_, _))
      by (vm_compute; reflexivity).
    rewrite E in E'. injection E' as ->. discriminate.
Defined.
